(** * async-bulkhead-llm: the admission engine, embedded and verified

    A shallow embedding of [createLLMBulkhead] (token ledger, composite
    release token, admission engine, run wrapper and in-flight
    deduplication registry) together with the properties its specification
    states about it.

    Conventions of the embedding.
    - JavaScript numbers that hold token counts, budgets, queue sizes and
      timeouts are integers of [Z] (the estimator contract promises
      integers; arithmetic on them is exact below 2^53).
    - An optional property [x?: T] is an [option T]; [a ?? b] is
      [nullish a b].
    - The closure returned by [createLLMBulkhead] is split into its
      constants ([Bulkhead]) and its mutable cells ([State]).
    - An [async] function is cut at its [await]s: every synchronous
      segment is one computation of the monad [M], and the event loop is a
      labelled step function that runs one segment per label.
    - The concurrency gate of [async-bulkhead-ts], the caller's work
      function [fn] and the host's [JSON.stringify] are not part of the
      repository: calls to them are recorded in a trace and their answers
      arrive with the labels. *)

From stdpp Require Import gmap strings list fin_maps.
From Stdlib Require Import ZArith Lia.

Local Open Scope Z_scope.

(** ** Request types *)

Record LLMMessage := mkMessage {
  role : string;
  content : string
}.

Record LLMRequest := mkRequest {
  messages : list LLMMessage;
  max_tokens : option Z
}.

(** ** Token estimation types *)

Record TokenEstimate := mkEstimate {
  input : Z;
  maxOutput : Z
}.

Definition TokenEstimator := LLMRequest -> TokenEstimate.

(** ** Reject reasons and the rejection error *)

(** [RejectReason] of the base library. *)
Inductive BaseRejectReason :=
| concurrency_limit
| queue_limit
| timeout
| aborted.

(** [LLMRejectReason = BaseRejectReason | "budget_limit"]. *)
Inductive LLMRejectReason :=
| base_reason (r : BaseRejectReason)
| budget_limit.

Coercion base_reason : BaseRejectReason >-> LLMRejectReason.

Definition reason_text (r : LLMRejectReason) : string :=
  match r with
  | base_reason concurrency_limit => "concurrency_limit"
  | base_reason queue_limit => "queue_limit"
  | base_reason timeout => "timeout"
  | base_reason aborted => "aborted"
  | budget_limit => "budget_limit"
  end.

(** A value that can be thrown, or that a promise can reject with: an
    instance of the exported class [LLMBulkheadRejectedError], or any other
    value (told apart by a tag).  The work function may throw either. *)
Inductive JSError :=
| LLMBulkheadRejectedError (reason : LLMRejectReason)
| OtherError (tag : nat).

Definition LLM_BULKHEAD_REJECTED : string := "LLM_BULKHEAD_REJECTED".

(** The [code], [reason], [name] and [message] properties as the class
    sets them; other thrown values are taken to carry none of them. *)
Definition error_code (e : JSError) : option string :=
  match e with
  | LLMBulkheadRejectedError _ => Some LLM_BULKHEAD_REJECTED
  | OtherError _ => None
  end.

Definition error_reason (e : JSError) : option LLMRejectReason :=
  match e with
  | LLMBulkheadRejectedError r => Some r
  | OtherError _ => None
  end.

Definition error_name (e : JSError) : option string :=
  match e with
  | LLMBulkheadRejectedError _ => Some "LLMBulkheadRejectedError"
  | OtherError _ => None
  end.

Definition error_message (e : JSError) : option string :=
  match e with
  | LLMBulkheadRejectedError r => Some ("LLM bulkhead rejected: " +:+ reason_text r)
  | OtherError _ => None
  end.

(** ** Profile / preset *)

Record LLMBulkheadPreset := mkPreset {
  preset_maxQueue : option Z;
  preset_timeoutMs : option Z
}.

Inductive ProfileName := interactive | batch.

Definition PROFILES (name : ProfileName) : LLMBulkheadPreset :=
  match name with
  | interactive => {| preset_maxQueue := Some 0; preset_timeoutMs := None |}
  | batch => {| preset_maxQueue := Some 20; preset_timeoutMs := Some 30000 |}
  end.

(** [profile?: "interactive" | "batch" | LLMBulkheadPreset]. *)
Inductive Profile :=
| named (name : ProfileName)
| custom (preset : LLMBulkheadPreset).

(** ** Options *)

(** A JavaScript number as far as [createLLMBulkhead] looks at
    [maxConcurrent]: an integer, or a value that [Number.isInteger]
    refuses (a fraction such as 1.5, [NaN], an infinity). *)
Inductive JSNumber :=
| integer (n : Z)
| not_an_integer.

Record TokenBudgetOptions := mkBudget {
  budget : Z;
  budget_estimator : option TokenEstimator;
  outputCap : option Z
}.

Record LLMBulkheadOptions := mkOptions {
  model : string;
  maxConcurrent : JSNumber;
  opt_maxQueue : option Z;
  opt_timeoutMs : option Z;
  profile : option Profile;
  tokenBudget : option TokenBudgetOptions;
  deduplication : option bool
}.

(** [AcquireOptions] of the base library; the abort signal is opaque. *)
Record AcquireOptions := mkAcquireOptions {
  signal : option nat;
  ao_timeoutMs : option Z
}.

(** [a ?? b] *)
Definition nullish {A} (a : option A) (b : A) : A :=
  match a with
  | Some x => x
  | None => b
  end.

(** [a ?? b] where [b] may itself be undefined. *)
Definition nullish_opt {A} (a b : option A) : option A :=
  match a with
  | Some x => Some x
  | None => b
  end.

(** Truthiness of an optional boolean. *)
Definition truthy (b : option bool) : bool := nullish b false.

(** ** Estimator internals *)

Definition DEFAULT_OUTPUT_CAP : Z := 2048.

Definition resolveMaxOutput (request : LLMRequest) (fallback : Z) : Z :=
  nullish (max_tokens request) fallback.

(** [content.length], in code units. *)
Definition content_length (m : LLMMessage) : Z :=
  Z.of_nat (String.length (content m)).

(** [Math.ceil(inputChars / 4.0)]: the quotient is exact in binary
    floating point, so the ceiling is the integer one. *)
Definition naiveTokenEstimator : TokenEstimator := fun request =>
  let inputChars := foldl (fun sum m => sum + content_length m) 0 (messages request) in
  {| input := (inputChars + 3) / 4;
     maxOutput := resolveMaxOutput request DEFAULT_OUTPUT_CAP |}.

(** ** Option resolution *)

Definition resolvePreset (p : option Profile) : LLMBulkheadPreset :=
  match p with
  | None => {| preset_maxQueue := None; preset_timeoutMs := None |}
  | Some (named name) => PROFILES name
  | Some (custom preset) => preset
  end.

(** The constants captured by the closures of [createLLMBulkhead]. *)
Record Bulkhead := mkBulkhead {
  opts : LLMBulkheadOptions;
  maxQueue : Z;
  timeoutMs : option Z;
  estimator : TokenEstimator;
  (** the host's [JSON.stringify] on a message array; [None] when it throws *)
  JSON_stringify : list LLMMessage -> option string
}.

(** What [createLLMBulkhead] can throw: its own two errors, and whatever
    [createBulkhead] of the base library throws. *)
Inductive ConstructionError :=
| model_must_be_non_empty
| maxConcurrent_must_be_positive
| thrown_by_createBulkhead (e : JSError).

Section Construction.

(** [createModelAwareTokenEstimator(undefined, {defaultModel, outputCap})]:
    its ratio table divides by binary fractions and is left abstract. *)
Variable createModelAwareTokenEstimator : string -> option Z -> TokenEstimator.

(** The host's serializer. *)
Variable stringify : list LLMMessage -> option string.

(** [createBulkhead({ maxConcurrent, maxQueue })] of [async-bulkhead-ts]:
    what it throws, if it throws; otherwise it returns the gate, whose
    answers arrive with the labels of the event loop. *)
Variable createBulkhead : Z -> Z -> option JSError.

(** The test [!Number.isInteger(opts.maxConcurrent) ||
    opts.maxConcurrent <= 0] is the case analysis on the number: [||]
    compares with 0 only what [Number.isInteger] accepted. *)
Definition createLLMBulkhead (o : LLMBulkheadOptions)
  : ConstructionError + Bulkhead :=
  if String.eqb (model o) EmptyString then inl model_must_be_non_empty
  else
    match maxConcurrent o with
    | not_an_integer => inl maxConcurrent_must_be_positive
    | integer n =>
        if n <=? 0 then inl maxConcurrent_must_be_positive
        else
          let preset := resolvePreset (profile o) in
          let maxQueue :=
            nullish (opt_maxQueue o) (nullish (preset_maxQueue preset) 0) in
          let timeoutMs := nullish_opt (opt_timeoutMs o) (preset_timeoutMs preset) in
          match createBulkhead n maxQueue with
          | Some e => inl (thrown_by_createBulkhead e)
          | None =>
              let estimator :=
                nullish (tb ← tokenBudget o; budget_estimator tb)
                        (createModelAwareTokenEstimator (model o)
                           (tb ← tokenBudget o; outputCap tb)) in
              inr {| opts := o; maxQueue := maxQueue; timeoutMs := timeoutMs;
                     estimator := estimator; JSON_stringify := stringify |}
          end
    end.

End Construction.

(** ** The mutable cells of a bulkhead, and the bookkeeping of the event loop *)

Abbreviation Value := nat.      (* a result of the work function, opaque *)
Abbreviation AcquireId := nat.  (* an activation of [_acquire] *)
Abbreviation RunId := nat.      (* an activation of [run] *)

(** A [Token] granted by the concurrency gate.  What its [release()] does
    inside the gate is the gate's business; the embedding records the call
    and whether it returns or throws. *)
Record SlotToken := mkSlot {
  slot_id : nat;
  release_throws : option JSError
}.

(** The closure made by [wrapToken]: the captured [base] and [reserved],
    and the captured variable [released]. *)
Record WrappedToken := mkWrapped {
  base : SlotToken;
  reserved : Z;
  released : bool
}.

Inductive PromiseState :=
| Pending
| Fulfilled (v : Value)
| Rejected (e : JSError).

(** The promises of an activation [r] of [run]: the one it returned, its
    [deferred.promise] and the promise [work] of its inner closure. *)
Inductive PromiseRef :=
| Returned (r : RunId)
| Deferred (r : RunId)
| Work (r : RunId).

(** A callback waiting for a promise to settle. *)
Inductive Reaction :=
| Adopt (src dst : PromiseRef)              (* [dst] was resolved with [src] *)
| Cleanup (leader : RunId) (key : string).  (* [deferred.promise.then(cleanup, cleanup)] *)

Inductive InternalAcquireResult :=
| ok_true (token : WrappedToken)
| ok_false (reason : LLMRejectReason).

(** Result of [bulkhead.acquire] of the base library. *)
Inductive GateResult :=
| granted (token : SlotToken)
| refused (reason : BaseRejectReason).

(** Normal or abrupt completion of a synchronous segment. *)
Inductive Completion (A : Type) :=
| Normal (a : A)
| Throw (e : JSError).
Arguments Normal {A} a.
Arguments Throw {A} e.

(** Where an activation of [_acquire] stands. *)
Inductive AcquirePc :=
| AwaitingGate (request : LLMRequest)          (* at [await bulkhead.acquire] *)
| AcquireSettled (c : Completion InternalAcquireResult).

Record AcquireCall := mkAcquire {
  caller : option RunId;       (* the [run] that awaits it; [None]: the public [acquire] *)
  acquire_pc : AcquirePc
}.

(** Where an activation of [run] stands. *)
Inductive RunPc :=
| Joined (leader : RunId)          (* [return existing] *)
| AwaitingAcquire (a : AcquireId)  (* at [await _acquire(request, ao)] *)
| AwaitingFn (a : AcquireId)       (* at [await fn(ao.signal)] *)
| Finished (a : AcquireId).

Record RunCall := mkRun {
  run_ao : AcquireOptions;
  returned : PromiseState;           (* the promise [run] returned *)
  deferred : option PromiseState;    (* [deferred.promise]; [None]: no deferred *)
  work : option PromiseState;        (* [work]; [None]: not created yet *)
  run_pc : RunPc
}.

(** Calls that leave the bulkhead, and registry deletions, in the order
    they happen (most recent first). *)
Inductive Event :=
| GateAcquire (mergedOptions : AcquireOptions)
| SlotRelease (slot : SlotToken)
| FnInvoke (r : RunId) (sig : option nat)
| MapDelete (key : string) (leader : RunId).

(** [dedupMap] holds, for a key, the [deferred.promise] of the leading
    activation of [run]: the entry names that activation. *)
Record State := mkState {
  inFlightTokens : Z;
  dedupMap : gmap string RunId;
  dedupHits : nat;
  reactions : list Reaction;
  acquires : list AcquireCall;
  runs : list RunCall;
  trace : list Event
}.

Definition initial_state : State :=
  {| inFlightTokens := 0; dedupMap := ∅; dedupHits := 0%nat;
     reactions := []; acquires := []; runs := []; trace := [] |}.

Definition with_inFlightTokens (x : Z) (s : State) : State :=
  {| inFlightTokens := x; dedupMap := dedupMap s; dedupHits := dedupHits s;
     reactions := reactions s; acquires := acquires s; runs := runs s;
     trace := trace s |}.

Definition with_dedupMap (x : gmap string RunId) (s : State) : State :=
  {| inFlightTokens := inFlightTokens s; dedupMap := x; dedupHits := dedupHits s;
     reactions := reactions s; acquires := acquires s; runs := runs s;
     trace := trace s |}.

Definition with_dedupHits (x : nat) (s : State) : State :=
  {| inFlightTokens := inFlightTokens s; dedupMap := dedupMap s; dedupHits := x;
     reactions := reactions s; acquires := acquires s; runs := runs s;
     trace := trace s |}.

Definition with_reactions (x : list Reaction) (s : State) : State :=
  {| inFlightTokens := inFlightTokens s; dedupMap := dedupMap s; dedupHits := dedupHits s;
     reactions := x; acquires := acquires s; runs := runs s; trace := trace s |}.

Definition with_acquires (x : list AcquireCall) (s : State) : State :=
  {| inFlightTokens := inFlightTokens s; dedupMap := dedupMap s; dedupHits := dedupHits s;
     reactions := reactions s; acquires := x; runs := runs s; trace := trace s |}.

Definition with_runs (x : list RunCall) (s : State) : State :=
  {| inFlightTokens := inFlightTokens s; dedupMap := dedupMap s; dedupHits := dedupHits s;
     reactions := reactions s; acquires := acquires s; runs := x; trace := trace s |}.

Definition with_trace (x : list Event) (s : State) : State :=
  {| inFlightTokens := inFlightTokens s; dedupMap := dedupMap s; dedupHits := dedupHits s;
     reactions := reactions s; acquires := acquires s; runs := runs s; trace := x |}.

(** ** The monad of synchronous segments: state and exceptions *)

Definition M (A : Type) : Type := State -> Completion A * State.

Definition ret {A} (a : A) : M A := fun s => (Normal a, s).

(** Sequencing: an abrupt completion skips the rest. *)
Definition bind {A B} (m : M A) (f : A -> M B) : M B := fun s =>
  match m s with
  | (Normal a, s') => f a s'
  | (Throw e, s') => (Throw e, s')
  end.

Declare Scope M_scope.
Delimit Scope M_scope with M.
Notation "x ← y ; z" := (bind y (fun x => z))
  (at level 20, y at level 100, z at level 200, only parsing) : M_scope.
Notation "y ;; z" := (bind y (fun _ => z))
  (at level 100, z at level 200, only parsing, right associativity) : M_scope.

Definition throw {A} (e : JSError) : M A := fun s => (Throw e, s).

(** A completion that is already known. *)
Definition complete {A} (c : Completion A) : M A := fun s => (c, s).

Definition gets {A} (f : State -> A) : M A := fun s => (Normal (f s), s).

Definition modify (f : State -> State) : M unit := fun s => (Normal tt, f s).

(** [try { body } finally { fin }]: an abrupt completion of [fin]
    replaces the completion of [body]. *)
Definition try_finally {A} (body : M A) (fin : M unit) : M A := fun s =>
  let (c, s1) := body s in
  match fin s1 with
  | (Normal _, s2) => (c, s2)
  | (Throw e, s2) => (Throw e, s2)
  end.

(** [try { body } catch (err) { handler(err) }] *)
Definition try_catch {A} (body : M A) (handler : JSError -> M A) : M A := fun s =>
  match body s with
  | (Normal a, s1) => (Normal a, s1)
  | (Throw e, s1) => handler e s1
  end.

Definition emit (e : Event) : M unit :=
  modify (fun s => with_trace (e :: trace s) s).

Definition subscribe (r : Reaction) : M unit :=
  modify (fun s => with_reactions (reactions s ++ [r]) s).

(** *** Promises *)

Definition promise_state (s : State) (p : PromiseRef) : option PromiseState :=
  match p with
  | Returned r => returned <$> runs s !! r
  | Deferred r => call ← runs s !! r; deferred call
  | Work r => call ← runs s !! r; work call
  end.

Definition is_settled (st : option PromiseState) : bool :=
  match st with
  | Some (Fulfilled _) | Some (Rejected _) => true
  | _ => false
  end.

Definition set_promise (p : PromiseRef) (st : PromiseState) (s : State) : State :=
  match p with
  | Returned r =>
      with_runs (alter (fun call =>
        {| run_ao := run_ao call; returned := st; deferred := deferred call;
           work := work call; run_pc := run_pc call |}) r (runs s)) s
  | Deferred r =>
      with_runs (alter (fun call =>
        {| run_ao := run_ao call; returned := returned call; deferred := Some st;
           work := work call; run_pc := run_pc call |}) r (runs s)) s
  | Work r =>
      with_runs (alter (fun call =>
        {| run_ao := run_ao call; returned := returned call; deferred := deferred call;
           work := Some st; run_pc := run_pc call |}) r (runs s)) s
  end.

(** Resolving or rejecting a promise that is already settled, or that
    does not exist, does nothing. *)
Definition settle (p : PromiseRef) (st : PromiseState) : M unit :=
  modify (fun s =>
    match promise_state s p with
    | Some Pending => set_promise p st s
    | _ => s
    end).

Definition settle_with (p : PromiseRef) (c : Completion Value) : M unit :=
  match c with
  | Normal v => settle p (Fulfilled v)
  | Throw e => settle p (Rejected e)
  end.

(** ** The closures of [createLLMBulkhead] *)

Section Closures.

Variable B : Bulkhead.

Local Open Scope M_scope.

(** [const budget = opts.tokenBudget] *)
Definition budget_of : option TokenBudgetOptions := tokenBudget (opts B).

(** *** Internal helpers *)

Definition tryReserveTokens (request : LLMRequest) : M (option Z) :=
  match budget_of with
  | None => ret (Some 0)
  | Some b =>
      let estimate := estimator B request in
      let needed := input estimate + maxOutput estimate in
      inFlight ← gets inFlightTokens;
      if inFlight + needed >? budget b then ret None
      else
        modify (with_inFlightTokens (inFlight + needed));;
        ret (Some needed)
  end.

Definition releaseTokens (reserved : Z) : M unit :=
  modify (fun s => with_inFlightTokens (Z.max 0 (inFlightTokens s - reserved)) s).

(** [base.release()] of a slot token: a call into the gate. *)
Definition slot_release (slot : SlotToken) : M unit :=
  emit (SlotRelease slot);;
  match release_throws slot with
  | None => ret tt
  | Some e => throw e
  end.

(** [wrapToken(base, reserved)]: the closure starts with [released]
    false. *)
Definition wrapToken (base : SlotToken) (reserved : Z) : WrappedToken :=
  {| base := base; reserved := reserved; released := false |}.

(** The wrapped token that activation [a] of [_acquire] returned. *)
Definition token_of (s : State) (a : AcquireId) : option WrappedToken :=
  match acquires s !! a with
  | Some {| acquire_pc := AcquireSettled (Normal (ok_true w)) |} => Some w
  | _ => None
  end.

Definition set_released (a : AcquireId) (s : State) : State :=
  with_acquires (alter (fun call =>
    match acquire_pc call with
    | AcquireSettled (Normal (ok_true w)) =>
        {| caller := caller call;
           acquire_pc := AcquireSettled (Normal (ok_true
             {| base := base w; reserved := reserved w; released := true |})) |}
    | _ => call
    end) a (acquires s)) s.

(** The [release()] method of the wrapped token of activation [a]. *)
Definition release (a : AcquireId) : M unit :=
  cell ← gets (fun s => token_of s a);
  match cell with
  | None => ret tt                       (* no such closure: nothing to run *)
  | Some w =>
      if released w then ret tt
      else
        modify (set_released a);;
        try_finally (slot_release (base w)) (releaseTokens (reserved w))
  end.

(** *** Internal acquire *)

Definition mergedOptions (ao : AcquireOptions) : AcquireOptions :=
  {| signal := signal ao;
     ao_timeoutMs := nullish_opt (ao_timeoutMs ao) (timeoutMs B) |}.

(** The read-only budget pre-check at the head of [_acquire]. *)
Definition over_budget (request : LLMRequest) (s : State) : bool :=
  match budget_of with
  | None => false
  | Some b =>
      let estimate := estimator B request in
      let needed := input estimate + maxOutput estimate in
      inFlightTokens s + needed >? budget b
  end.

Definition new_acquire (a : AcquireCall) : M AcquireId := fun s =>
  (Normal (length (acquires s)), with_acquires (acquires s ++ [a]) s).

(** [_acquire] up to its [await]: either it returns at once, or it has
    called [bulkhead.acquire(mergedOptions)] and is suspended. *)
Definition _acquire (request : LLMRequest) (ao : AcquireOptions)
           (who : option RunId) : M AcquireId :=
  over ← gets (over_budget request);
  if over then
    new_acquire {| caller := who;
                   acquire_pc := AcquireSettled (Normal (ok_false budget_limit)) |}
  else
    emit (GateAcquire (mergedOptions ao));;
    new_acquire {| caller := who; acquire_pc := AwaitingGate request |}.

(** [_acquire] after its [await], with the gate's answer [r]. *)
Definition _acquire_resumed (request : LLMRequest) (r : GateResult)
  : M InternalAcquireResult :=
  match r with
  | refused reason => ret (ok_false reason)
  | granted token =>
      reserved ← tryReserveTokens request;
      match reserved with
      | None =>
          slot_release token;;      (* return the concurrency slot *)
          ret (ok_false budget_limit)
      | Some reserved =>
          ret (ok_true (wrapToken token reserved))
      end
  end.

(** The completion of an [async] body settles its promise. *)
Definition settle_acquire (a : AcquireId) (body : M InternalAcquireResult)
  : State -> State := fun s =>
  let (c, s1) := body s in
  with_acquires (alter (fun call =>
    {| caller := caller call; acquire_pc := AcquireSettled c |}) a (acquires s1)) s1.

(** The public [acquire]. *)
Definition acquire (request : LLMRequest) (ao : AcquireOptions) : M AcquireId :=
  _acquire request ao None.

(** *** Public API: [run] *)

Definition dedupKey_of (request : LLMRequest) : string :=
  if truthy (deduplication (opts B)) then
    nullish (JSON_stringify B (messages request)) EmptyString
  else EmptyString.

Definition new_run (r : RunCall) : M RunId := fun s =>
  (Normal (length (runs s)), with_runs (runs s ++ [r]) s).

Definition set_run_pc (r : RunId) (pc : RunPc) : M unit :=
  modify (fun s =>
    with_runs (alter (fun call =>
      {| run_ao := run_ao call; returned := returned call; deferred := deferred call;
         work := work call; run_pc := pc |}) r (runs s)) s).

(** The [cleanup] closure of the leader [this] of [dedupKey]. *)
Definition cleanup (dedupKey : string) (this : RunId) : M unit :=
  try_catch
    (p ← gets (fun s => dedupMap s !! dedupKey);
     if decide (p = Some this) then
       modify (fun s => with_dedupMap (delete dedupKey (dedupMap s)) s);;
       emit (MapDelete dedupKey this)
     else ret tt)
    (fun _ => ret tt).               (* never throw from cleanup *)

(** [run] up to its first [await]; [this] names the activation. *)
Definition run (request : LLMRequest) (ao : AcquireOptions) : M RunId :=
  let dedupKey := dedupKey_of request in
  this ← gets (fun s => length (runs s));
  if truthy (deduplication (opts B)) && negb (String.eqb dedupKey EmptyString) then
    existing ← gets (fun s => dedupMap s !! dedupKey);
    match existing with
    | Some leader =>
        modify (fun s => with_dedupHits (S (dedupHits s)) s);;
        subscribe (Adopt (Deferred leader) (Returned this));;
        new_run {| run_ao := ao; returned := Pending; deferred := None;
                   work := None; run_pc := Joined leader |}
    | None =>
        modify (fun s => with_dedupMap (<[dedupKey := this]> (dedupMap s)) s);;
        subscribe (Cleanup this dedupKey);;
        a ← _acquire request ao (Some this);
        new_run {| run_ao := ao; returned := Pending; deferred := Some Pending;
                   work := None; run_pc := AwaitingAcquire a |}
    end
  else
    a ← _acquire request ao (Some this);
    new_run {| run_ao := ao; returned := Pending; deferred := None;
               work := None; run_pc := AwaitingAcquire a |}.

(** [run] after [await _acquire(request, ao)] completed with [c]: the
    rest of the [try] and the [catch].  The work function is invoked
    here; its own settlement arrives later. *)
Definition run_resumed (r : RunId) (call : RunCall) (a : AcquireId)
           (c : Completion InternalAcquireResult) : M unit :=
  try_catch
    (res ← complete c;
     match res with
     | ok_false reason => throw (LLMBulkheadRejectedError reason)
     | ok_true _ =>
         modify (set_promise (Work r) Pending);;      (* [work] *)
         emit (FnInvoke r (signal (run_ao call)));;
         set_run_pc r (AwaitingFn a);;
         match deferred call with
         | Some _ =>
             subscribe (Adopt (Work r) (Deferred r));;
             subscribe (Adopt (Deferred r) (Returned r))   (* [return resultPromise] *)
         | None =>
             subscribe (Adopt (Work r) (Returned r))      (* [return work] *)
         end
     end)
    (fun err =>
       set_run_pc r (Finished a);;
       match deferred call with
       | Some _ =>
           settle (Deferred r) (Rejected err);;
           subscribe (Adopt (Deferred r) (Returned r))
       | None =>
           settle (Returned r) (Rejected err)              (* [throw err] *)
       end).

(** The [work] closure after [await fn(ao.signal)]: [outcome] is what
    the work function returned or threw. *)
Definition work_resumed (r : RunId) (a : AcquireId)
           (outcome : Completion Value) : State -> State := fun s =>
  let (c, s1) := try_finally (complete outcome) (release a) s in
  snd ((settle_with (Work r) c;; set_run_pc r (Finished a)) s1).

(** *** Runtime stats: the blocks this layer adds to the gate's. *)

Record TokenBudgetStats := mkBudgetStats {
  stats_budget : Z;
  stats_inFlightTokens : Z;
  stats_available : Z
}.

Record DeduplicationStats := mkDedupStats {
  stats_active : nat;
  stats_hits : nat
}.

Record LLMStats := mkStats {
  stats_tokenBudget : option TokenBudgetStats;
  stats_deduplication : option DeduplicationStats
}.

Definition stats (s : State) : LLMStats :=
  {| stats_tokenBudget :=
       match budget_of with
       | Some b => Some {| stats_budget := budget b;
                           stats_inFlightTokens := inFlightTokens s;
                           stats_available := Z.max 0 (budget b - inFlightTokens s) |}
       | None => None
       end;
     stats_deduplication :=
       if truthy (deduplication (opts B)) then
         Some {| stats_active := size (dedupMap s); stats_hits := dedupHits s |}
       else None |}.

End Closures.

(** ** The event loop *)

(** What can happen next: a call from outside, an answer of the gate or
    of the work function, or a continuation or callback that is ready. *)
Inductive Label :=
| call_acquire (request : LLMRequest) (ao : AcquireOptions)
| call_run (request : LLMRequest) (ao : AcquireOptions)
| call_release (a : AcquireId)        (* on the token that [acquire] handed out *)
| gate_settles (a : AcquireId) (r : GateResult)
| resume_run (r : RunId)              (* the continuation of [await _acquire] *)
| fn_settles (r : RunId) (outcome : Completion Value)
| react (i : nat).                    (* the [i]-th waiting callback runs *)

Section EventLoop.

Variable B : Bulkhead.

(** The caller holds the token of [a]: a public [acquire] resolved to it. *)
Definition handed_out (s : State) (a : AcquireId) : bool :=
  match acquires s !! a with
  | Some {| caller := None; acquire_pc := AcquireSettled (Normal (ok_true _)) |} => true
  | _ => false
  end.

(** Running a callback whose promise has settled. *)
Definition fire (r : Reaction) (s : State) : option State :=
  match r with
  | Adopt src dst =>
      match promise_state s src with
      | Some (Fulfilled v) => Some (snd (settle dst (Fulfilled v) s))
      | Some (Rejected e) => Some (snd (settle dst (Rejected e) s))
      | _ => None
      end
  | Cleanup leader key =>
      if is_settled (promise_state s (Deferred leader))
      then Some (snd (cleanup key leader s))
      else None
  end.

Definition step (l : Label) (s : State) : option State :=
  match l with
  | call_acquire request ao => Some (snd (acquire B request ao s))
  | call_run request ao => Some (snd (run B request ao s))
  | call_release a =>
      if handed_out s a then Some (snd (release a s)) else None
  | gate_settles a r =>
      match acquires s !! a with
      | Some {| acquire_pc := AwaitingGate request |} =>
          Some (settle_acquire a (_acquire_resumed B request r) s)
      | _ => None
      end
  | resume_run r =>
      match runs s !! r with
      | Some call =>
          match run_pc call with
          | AwaitingAcquire a =>
              match acquires s !! a with
              | Some {| acquire_pc := AcquireSettled c |} =>
                  Some (snd (run_resumed r call a c s))
              | _ => None
              end
          | _ => None
          end
      | None => None
      end
  | fn_settles r outcome =>
      match runs s !! r with
      | Some {| run_pc := AwaitingFn a |} => Some (work_resumed r a outcome s)
      | _ => None
      end
  | react i =>
      match reactions s !! i with
      | Some r => fire r (with_reactions (delete i (reactions s)) s)
      | None => None
      end
  end.

Fixpoint exec (ls : list Label) (s : State) : option State :=
  match ls with
  | [] => Some s
  | l :: ls' =>
      match step l s with
      | Some s' => exec ls' s'
      | None => None
      end
  end.

(** The states a bulkhead can be in. *)
Definition reachable (s : State) : Prop :=
  exists ls, exec ls initial_state = Some s.

End EventLoop.

(** ** Concrete hosts, estimators and bulkheads used in examples *)

(** A rendering of [JSON.stringify] on an array of [{role, content}]
    objects whose strings hold code units below 256: own properties in
    declaration order, strings quoted as ECMAScript's QuoteJSONString
    does.  It never throws on such input. *)
Definition dquote : string := String (Ascii.ascii_of_nat 34) EmptyString.
Definition backslash : string := String (Ascii.ascii_of_nat 92) EmptyString.

Definition hex_digit (n : nat) : string :=
  String (nth n (String.list_ascii_of_string "0123456789abcdef") (Ascii.ascii_of_nat 48)) EmptyString.

Definition quote_code_unit (c : Ascii.ascii) : string :=
  let n := Ascii.nat_of_ascii c in
  if Nat.eqb n 8 then backslash +:+ "b"
  else if Nat.eqb n 9 then backslash +:+ "t"
  else if Nat.eqb n 10 then backslash +:+ "n"
  else if Nat.eqb n 12 then backslash +:+ "f"
  else if Nat.eqb n 13 then backslash +:+ "r"
  else if Nat.eqb n 34 then backslash +:+ dquote
  else if Nat.eqb n 92 then backslash +:+ backslash
  else if Nat.ltb n 32 then
    backslash +:+ "u00" +:+ hex_digit (n / 16) +:+ hex_digit (n mod 16)
  else String c EmptyString.

Definition quote_JSON_string (s : string) : string :=
  dquote +:+ foldr (fun c acc => quote_code_unit c +:+ acc) EmptyString
                   (String.list_ascii_of_string s) +:+ dquote.

Definition stringify_message (m : LLMMessage) : string :=
  "{" +:+ dquote +:+ "role" +:+ dquote +:+ ":" +:+ quote_JSON_string (role m) +:+
  "," +:+ dquote +:+ "content" +:+ dquote +:+ ":" +:+ quote_JSON_string (content m) +:+ "}".

Fixpoint join_commas (l : list string) : string :=
  match l with
  | [] => EmptyString
  | [x] => x
  | x :: rest => x +:+ "," +:+ join_commas rest
  end.

Definition stringify_messages (l : list LLMMessage) : option string :=
  Some ("[" +:+ join_commas (map stringify_message l) +:+ "]").

(** A host whose serializer throws, as [JSON.stringify] does on a value
    that holds a [BigInt] or a cycle. *)
Definition stringify_throws (l : list LLMMessage) : option string := None.

(** [() => ({ input: i, maxOutput: o })] *)
Definition constant_estimator (i o : Z) : TokenEstimator :=
  fun _ => {| input := i; maxOutput := o |}.

Definition no_acquire_options : AcquireOptions :=
  {| signal := None; ao_timeoutMs := None |}.

Definition hello_request : LLMRequest :=
  {| messages := [ {| role := "user"; content := "hello world" |} ];
     max_tokens := None |}.

Definition hello_request_256 : LLMRequest :=
  {| messages := [ {| role := "user"; content := "hello world" |} ];
     max_tokens := Some 256 |}.

(** Options as the test suite writes them: a budget with a constant
    estimator, optional deduplication, optional profile. *)
Definition demo_options (b i o : Z) (dedup : bool) (p : option Profile)
  : LLMBulkheadOptions :=
  {| model := "claude-sonnet-4"; maxConcurrent := integer 2;
     opt_maxQueue := None; opt_timeoutMs := None; profile := p;
     tokenBudget := Some {| budget := b;
                            budget_estimator := Some (constant_estimator i o);
                            outputCap := None |};
     deduplication := Some dedup |}.

(** The bulkhead [createLLMBulkhead] builds from [demo_options]. *)
Definition demo_bulkhead (b i o : Z) (dedup : bool) (p : option Profile)
           (host : list LLMMessage -> option string) : Bulkhead :=
  {| opts := demo_options b i o dedup p;
     maxQueue := nullish (preset_maxQueue (resolvePreset p)) 0;
     timeoutMs := preset_timeoutMs (resolvePreset p);
     estimator := constant_estimator i o;
     JSON_stringify := host |}.

(** A [createBulkhead] for the examples: it refuses a negative queue
    bound and builds a gate otherwise. *)
Definition checking_createBulkhead (maxConcurrent maxQueue : Z) : option JSError :=
  if maxQueue <? 0 then Some (OtherError 0%nat) else None.

Definition slot (n : nat) : SlotToken := {| slot_id := n; release_throws := None |}.

Definition faulty_slot (n : nat) (e : JSError) : SlotToken :=
  {| slot_id := n; release_throws := Some e |}.

(** ** Predicates used in the statements *)

(** The estimator contract: non-negative integer components. *)
Definition estimator_non_negative (B : Bulkhead) : Prop :=
  forall request,
    0 <= input (estimator B request) /\ 0 <= maxOutput (estimator B request).

(** The defaults a profile stands for, in the words of the
    documentation: the named presets are [interactive = {maxQueue: 0}]
    and [batch = {maxQueue: 20, timeoutMs: 30000}], a plain preset object
    stands for itself, and without a profile there are no defaults.
    Written case by case, without [resolvePreset] and [PROFILES], to be
    compared with them. *)
Definition stated_preset_maxQueue (p : option Profile) : option Z :=
  match p with
  | None => None
  | Some (named interactive) => Some 0
  | Some (named batch) => Some 20
  | Some (custom preset) => preset_maxQueue preset
  end.

Definition stated_preset_timeoutMs (p : option Profile) : option Z :=
  match p with
  | None => None
  | Some (named interactive) => None
  | Some (named batch) => Some 30000
  | Some (custom preset) => preset_timeoutMs preset
  end.

(** The wait-timeout the specification asks for, for per-call options
    [ao] on a bulkhead built from [o]: the per-call [timeoutMs] when
    given, otherwise the constructor's, otherwise the preset's. *)
Definition effective_timeout (o : LLMBulkheadOptions) (ao : AcquireOptions) : option Z :=
  match ao_timeoutMs ao with
  | Some t => Some t
  | None =>
      match opt_timeoutMs o with
      | Some t => Some t
      | None => stated_preset_timeoutMs (profile o)
      end
  end.

(** The queue bound the specification asks for: the constructor's
    [maxQueue] when given, otherwise the preset's, otherwise 0. *)
Definition effective_maxQueue (o : LLMBulkheadOptions) : Z :=
  match opt_maxQueue o with
  | Some q => q
  | None =>
      match stated_preset_maxQueue (profile o) with
      | Some q => q
      | None => 0
      end
  end.

(** The ledger invariant for a budget [bud]: the counter stays within
    [0, bud], and every wrapped token holds a non-negative reservation. *)
Definition ledger_inv (bud : Z) (s : State) : Prop :=
  0 <= inFlightTokens s <= bud /\
  forall a w, token_of s a = Some w -> 0 <= reserved w.

(** The budget invariant as the specification words it: for every
    bulkhead with a token budget and a non-negative estimator, every
    reachable state has [0 <= inFlightTokens <= budget]. *)
Definition budget_invariant_as_stated : Prop :=
  forall B b, budget_of B = Some b -> estimator_non_negative B ->
  forall s, reachable B s -> 0 <= inFlightTokens s <= budget b.

(** [tokenBudget: { budget: -1, estimator: () => ({ input: 50, maxOutput: 50 }) }] *)
Definition negative_budget_bulkhead : Bulkhead :=
  demo_bulkhead (-1) 50 50 false None stringify_messages.

(** The state after [acquire(hello_request)] was called on a fresh
    bulkhead and the gate granted [token]. *)
Definition after_one_admission (B : Bulkhead) (token : SlotToken) : State :=
  settle_acquire 0%nat (_acquire_resumed B hello_request (granted token))
    (snd (acquire B hello_request no_acquire_options initial_state)).

(** Budget 200, every request estimated at 50 + 50 tokens, no
    deduplication, no profile. *)
Definition plain_bulkhead : Bulkhead :=
  demo_bulkhead 200 50 50 false None stringify_messages.

(** The same bulkhead with [deduplication: false]. *)
Definition without_deduplication (B : Bulkhead) : Bulkhead :=
  {| opts := {| model := model (opts B); maxConcurrent := maxConcurrent (opts B);
                opt_maxQueue := opt_maxQueue (opts B);
                opt_timeoutMs := opt_timeoutMs (opts B);
                profile := profile (opts B); tokenBudget := tokenBudget (opts B);
                deduplication := Some false |};
     maxQueue := maxQueue B; timeoutMs := timeoutMs B; estimator := estimator B;
     JSON_stringify := JSON_stringify B |}.

(** Budget 200, every request estimated at 50 + 50 tokens,
    deduplication on. *)
Definition dedup_bulkhead : Bulkhead :=
  demo_bulkhead 200 50 50 true None stringify_messages.

(** The same on a host whose serializer throws. *)
Definition unserializable_bulkhead : Bulkhead :=
  demo_bulkhead 200 50 50 true None stringify_throws.

(** Does a call of [run] with this request find an entry of its key in
    the registry? *)
Definition joins (B : Bulkhead) (request : LLMRequest) (s : State) : option RunId :=
  if truthy (deduplication (opts B))
     && negb (String.eqb (dedupKey_of B request) EmptyString)
  then dedupMap s !! dedupKey_of B request
  else None.

(** Does it install one? *)
Definition leads (B : Bulkhead) (request : LLMRequest) (s : State) : bool :=
  truthy (deduplication (opts B))
  && negb (String.eqb (dedupKey_of B request) EmptyString)
  && bool_decide (dedupMap s !! dedupKey_of B request = None).

(** ** Invariants of the run wrapper *)

(** The activation of [_acquire] that an activation of [run] started. *)
Definition acquire_of (pc : RunPc) : option AcquireId :=
  match pc with
  | Joined _ => None
  | AwaitingAcquire a | AwaitingFn a | Finished a => Some a
  end.

(** Every activation of [_acquire] that a [run] started records that
    [run] as its caller: no two activations of [run] share one, and none
    of them is the caller's. *)
Definition owns_inv (s : State) : Prop :=
  forall r call a,
    runs s !! r = Some call -> acquire_of (run_pc call) = Some a ->
    caller <$> acquires s !! a = Some (Some r).

(** The error that the [catch] of [run] receives when [_acquire]
    completed with [c]; [None] when admission succeeded. *)
Definition admission_error (c : Completion InternalAcquireResult) : option JSError :=
  match c with
  | Normal (ok_true _) => None
  | Normal (ok_false reason) => Some (LLMBulkheadRejectedError reason)
  | Throw e => Some e
  end.

(** A promise in state [dst] was resolved with a promise in state [src]:
    either it has taken that state over, or it is pending and the
    callback [x] that will make it do so is still subscribed. *)
Definition follows (s : State) (dst : PromiseState) (src : option PromiseState)
           (x : Reaction) : Prop :=
  (dst = Pending /\ x ∈ reactions s) \/ (dst <> Pending /\ src = Some dst).

(** The run whose promise a callback settles. *)
Definition owner (x : Reaction) : option RunId :=
  match x with
  | Adopt _ (Returned r) | Adopt _ (Deferred r) | Adopt _ (Work r) => Some r
  | Cleanup _ _ => None
  end.

(** The promise that the one [run] returned was resolved with. *)
Definition source_of (r : RunId) (call : RunCall) : PromiseRef :=
  match run_pc call with
  | Joined leader => Deferred leader
  | _ => match deferred call with
         | Some _ => Deferred r
         | None => Work r
         end
  end.

(** What holds of an activation [r] of [run], by where it stands. *)
Definition run_ok (s : State) (r : RunId) (call : RunCall) : Prop :=
  match run_pc call with
  | Joined leader =>
      deferred call = None /\ work call = None /\
      follows s (returned call) (promise_state s (Deferred leader))
        (Adopt (Deferred leader) (Returned r))
  | AwaitingAcquire a =>
      returned call = Pending /\ work call = None /\
      (deferred call = None \/ deferred call = Some Pending) /\
      (forall w, token_of s a = Some w -> released w = false)
  | AwaitingFn a =>
      returned call = Pending /\ work call = Some Pending /\
      (exists w, token_of s a = Some w /\ released w = false) /\
      match deferred call with
      | None => Adopt (Work r) (Returned r) ∈ reactions s
      | Some d =>
          d = Pending /\ Adopt (Work r) (Deferred r) ∈ reactions s /\
          Adopt (Deferred r) (Returned r) ∈ reactions s
      end
  | Finished a =>
      match acquires s !! a with
      | Some {| acquire_pc := AcquireSettled c |} =>
          match admission_error c with
          | Some err =>                       (* left through the [catch] *)
              work call = None /\
              match deferred call with
              | None => returned call = Rejected err
              | Some d =>
                  d = Rejected err /\
                  follows s (returned call) (Some d) (Adopt (Deferred r) (Returned r))
              end
          | None =>                           (* the work function has settled *)
              (forall w, token_of s a = Some w ->
                 released w = true /\ SlotRelease (base w) ∈ trace s) /\
              exists v, work call = Some v /\ v <> Pending /\
                match deferred call with
                | None => follows s (returned call) (Some v) (Adopt (Work r) (Returned r))
                | Some d =>
                    follows s d (Some v) (Adopt (Work r) (Deferred r)) /\
                    follows s (returned call) (Some d) (Adopt (Deferred r) (Returned r))
                end
          end
      | _ => False
      end
  end.

(** Every subscribed [Adopt] callback is one that [run] subscribed. *)
Definition reaction_ok (s : State) (x : Reaction) : Prop :=
  match x with
  | Adopt src (Returned r) =>
      exists call, runs s !! r = Some call /\ src = source_of r call
  | Adopt src (Deferred r) => src = Work r
  | Adopt _ (Work _) => False
  | Cleanup _ _ => True
  end.

Definition run_inv (s : State) : Prop :=
  owns_inv s /\
  (forall r call, runs s !! r = Some call -> run_ok s r call) /\
  (forall x, x ∈ reactions s -> reaction_ok s x).

(** The state in which a promise settles for a completion. *)
Definition completion_state (c : Completion Value) : PromiseState :=
  match c with
  | Normal v => Fulfilled v
  | Throw e => Rejected e
  end.

(** What the [work] closure completes with, given the outcome of the
    work function and the base token [slot] released in its [finally]. *)
Definition work_completion (slot : SlotToken) (outcome : Completion Value)
  : Completion Value :=
  match release_throws slot with
  | None => outcome
  | Some e => Throw e
  end.

(** Budget 100, every request estimated at 50 + 50 tokens,
    deduplication on: one admitted request fills the budget. *)
Definition tight_dedup_bulkhead : Bulkhead :=
  demo_bulkhead 100 50 50 true None stringify_messages.

(** A first [run(hello_request)] on [tight_dedup_bulkhead] has been
    admitted and holds the whole budget. *)
Definition leader_admitted : State :=
  match exec tight_dedup_bulkhead
          [call_run hello_request no_acquire_options;
           gate_settles 0%nat (granted (slot 0))] initial_state with
  | Some s => s
  | None => initial_state
  end.

(** What the promise returned by an activation of [run] must hold once it
    has settled, by where the activation stands. *)
Definition settled_as_due (s : State) (r : RunId) (call : RunCall) : Prop :=
  match run_pc call with
  | Joined leader => promise_state s (Deferred leader) = Some (returned call)
  | Finished a =>
      exists who c,
        acquires s !! a = Some {| caller := who; acquire_pc := AcquireSettled c |} /\
        match admission_error c with
        | Some err => returned call = Rejected err
        | None =>
            work call = Some (returned call) /\
            forall w, token_of s a = Some w ->
                      released w = true /\ SlotRelease (base w) ∈ trace s
        end
  | _ => False
  end.

(** The state of promise [p] after the labels [ls] ran on a fresh
    bulkhead; [None] when they cannot run or [p] does not exist. *)
Definition promise_after (B : Bulkhead) (ls : list Label) (p : PromiseRef)
  : option PromiseState :=
  s ← exec B ls initial_state; promise_state s p.

(** On [plain_bulkhead], [run(hello_request, fn)] has been admitted and
    [fn] is running. *)
Definition fn_running : State :=
  match exec plain_bulkhead
          [call_run hello_request no_acquire_options;
           gate_settles 0%nat (granted (slot 0));
           resume_run 0%nat] initial_state with
  | Some s => s
  | None => initial_state
  end.

(** Two calls of [run(hello_request, fn)] passed the pre-check before
    either was granted a slot; the first has since been granted one and
    holds its reservation, the second still waits for the gate. *)
Definition second_waits (B : Bulkhead) : State :=
  match exec B
          [call_run hello_request no_acquire_options;
           call_run hello_request no_acquire_options;
           gate_settles 0%nat (granted (slot 0))] initial_state with
  | Some s => s
  | None => initial_state
  end.

(** Budget 150, every request estimated at 50 + 50 tokens: room for one
    request, not for two. *)
Definition one_request_bulkhead : Bulkhead :=
  demo_bulkhead 150 50 50 false None stringify_messages.

(** ** The registry of in-flight requests *)

(** The part an activation of [run] plays: it returned the promise of an
    entry it found, it installed an entry, or it ran without sharing. *)
Inductive Role :=
| follower (leader : RunId)
| leader
| direct.

Definition role_of (call : RunCall) : Role :=
  match run_pc call with
  | Joined l => follower l
  | _ => match deferred call with
         | Some _ => leader
         | None => direct
         end
  end.

(** The [cleanup] callbacks that have not run yet, as (key, leader). *)
Definition cleanups (xs : list Reaction) : list (string * RunId) :=
  omap (fun x => match x with
                 | Cleanup l k => Some (k, l)
                 | Adopt _ _ => None
                 end) xs.

(** The [dedupMap.delete] calls made so far, as (key, leader). *)
Definition deletions (evs : list Event) : list (string * RunId) :=
  omap (fun e => match e with
                 | MapDelete k l => Some (k, l)
                 | _ => None
                 end) evs.

(** The activations of [run] that invoked their work function. *)
Definition invoked (evs : list Event) : list RunId :=
  omap (fun e => match e with
                 | FnInvoke r _ => Some r
                 | _ => None
                 end) evs.

(** The registry holds exactly the entries whose [cleanup] is still
    subscribed; an entry names a leader, and so does a follower; no
    entry is deleted twice, and a deleted entry is gone; only a run that
    is not a follower invokes its work function. *)
Definition registry_inv (s : State) : Prop :=
  map_to_list (dedupMap s) ≡ₚ cleanups (reactions s) /\
  (forall k l, dedupMap s !! k = Some l -> role_of <$> runs s !! l = Some leader) /\
  (forall r l, role_of <$> runs s !! r = Some (follower l) ->
               role_of <$> runs s !! l = Some leader) /\
  NoDup (deletions (trace s)) /\
  (forall k l, (k, l) ∈ deletions (trace s) ->
               (l < length (runs s))%nat /\ dedupMap s !! k <> Some l) /\
  (forall r, r ∈ invoked (trace s) ->
             exists ro, role_of <$> runs s !! r = Some ro /\ forall l, ro <> follower l).

(** Every shared promise has settled. *)
Definition quiescent (s : State) : Prop :=
  forall r call, runs s !! r = Some call -> deferred call <> Some Pending.

(** Is this step a call of [run] that joins an entry? *)
Definition is_join (B : Bulkhead) (l : Label) (s : State) : bool :=
  match l with
  | call_run request _ =>
      match joins B request s with
      | Some _ => true
      | None => false
      end
  | _ => false
  end.

(** The number of followers among the calls of an execution. *)
Fixpoint followers (B : Bulkhead) (ls : list Label) (s : State) : nat :=
  match ls with
  | [] => 0
  | l :: ls' =>
      match step B l s with
      | Some s' => ((if is_join B l s then 1 else 0) + followers B ls' s')%nat
      | None => 0%nat
      end
  end.

(** On [dedup_bulkhead], a leading [run(hello_request, fn)] was refused
    by the gate and has rejected its shared promise; its [cleanup] has
    not run yet. *)
Definition leader_refused : State :=
  match exec dedup_bulkhead
          [call_run hello_request no_acquire_options;
           gate_settles 0%nat (refused timeout);
           resume_run 0%nat] initial_state with
  | Some s => s
  | None => initial_state
  end.

(** On [dedup_bulkhead], a leading [run(hello_request, fn)] waits for
    the gate. *)
Definition leader_waiting : State :=
  match exec dedup_bulkhead
          [call_run hello_request no_acquire_options] initial_state with
  | Some s => s
  | None => initial_state
  end.

(** Then a second call with the same messages joined it, and the gate
    refused the leader. *)
Definition shared_rejection : State :=
  match exec dedup_bulkhead
          [call_run hello_request_256 no_acquire_options;
           gate_settles 0%nat (refused timeout);
           resume_run 0%nat] leader_waiting with
  | Some s => s
  | None => initial_state
  end.

(** * The rest of the module *)

From Stdlib Require QArith.

(** ** The model-aware estimator *)

(** A character-to-token ratio.  The decimal literals of the source are
    taken as the rationals they denote; the table stores and returns
    them, and only [Math.ceil(inputChars / ratio)] computes with one. *)
Abbreviation Ratio := QArith_base.Q.

(** The literal [n.d], as [nd / 10]. *)
Definition tenths (n : Z) : Ratio := QArith_base.Qmake n 10.

Definition NAIVE_CHAR_RATIO : Ratio := QArith_base.Qmake 4 1.

Definition BUILT_IN_RATIOS : list (string * Ratio) :=
  [ ("claude-3-5-haiku", tenths 38);
    ("claude-3-5-sonnet", tenths 39);
    ("claude-3-opus", tenths 39);
    ("claude-3-sonnet", tenths 39);
    ("claude-3-haiku", tenths 38);
    ("claude-sonnet-4", tenths 39);
    ("claude-opus-4", tenths 39);
    ("gpt-4o", tenths 37);
    ("gpt-4-turbo", tenths 37);
    ("gpt-4", tenths 37);
    ("gpt-3.5", tenths 38);
    ("o1", tenths 37);
    ("o3", tenths 37);
    ("gemini-1.5", tenths 38);
    ("gemini-2", tenths 38) ].

(** [onUnknownModel] returns nothing or throws: [Some e] is a throw. *)
Record ModelAwareEstimatorOptions := mkEstimatorOptions {
  defaultModel : option string;
  mae_outputCap : option Z;
  onUnknownModel : option (string -> option JSError)
}.

(** [Array.prototype.sort((a, b) => b[0].length - a[0].length)]: a stable
    sort by descending prefix length. *)
Fixpoint insert_by_length (x : string * Ratio) (l : list (string * Ratio))
  : list (string * Ratio) :=
  match l with
  | [] => [x]
  | y :: ys =>
      if (String.length (fst y) <=? String.length (fst x))%nat
      then x :: y :: ys
      else y :: insert_by_length x ys
  end.

Definition sort_by_length (l : list (string * Ratio)) : list (string * Ratio) :=
  foldr insert_by_length [] l.

Section ModelAware.

(** [String.prototype.toLowerCase], of the host. *)
Variable toLowerCase : string -> string.

(** [Math.ceil(inputChars / ratio)] in the host's floating point. *)
Variable ceil_quotient : Z -> Ratio -> Z.

(** [overrides?: Record<string, number>], as its property lookup: [None]
    where the lookup gives [undefined] or [null]. *)
Variable overrides : option (string -> option Ratio).

Variable eopts : ModelAwareEstimatorOptions.

(** The prefix scan over a ratio table. *)
Definition prefix_scan (table : list (string * Ratio)) (normalized : string)
  : option (string * Ratio) :=
  head (sort_by_length
          (filter (fun entry => String.prefix (fst entry) normalized = true) table)).

(** [lookupRatio(model)]: the calls made to [onUnknownModel], and the
    ratio returned or the error thrown. *)
Definition lookupRatio (model : string) : list string * Completion Ratio :=
  match (ov ← overrides; nullish_opt (ov model) (ov (toLowerCase model))) with
  | Some exact => ([], Normal exact)
  | None =>
      let normalized := toLowerCase model in
      match prefix_scan BUILT_IN_RATIOS normalized with
      | Some matched => ([], Normal (snd matched))
      | None =>
          match onUnknownModel eopts with
          | Some callback =>
              ([model],
               match callback model with
               | Some e => Throw e
               | None => Normal NAIVE_CHAR_RATIO
               end)
          | None => ([], Normal NAIVE_CHAR_RATIO)
          end
      end
  end.

(** The estimator that [createModelAwareTokenEstimator(overrides, opts)]
    returns. *)
Definition createModelAwareTokenEstimator (request : LLMRequest)
  : list string * Completion TokenEstimate :=
  let outputCap := nullish (mae_outputCap eopts) DEFAULT_OUTPUT_CAP in
  let model := nullish (defaultModel eopts) EmptyString in
  match lookupRatio model with
  | (calls, Throw e) => (calls, Throw e)
  | (calls, Normal ratio) =>
      let inputChars :=
        foldl (fun sum m => sum + content_length m) 0 (messages request) in
      (calls, Normal {| input := ceil_quotient inputChars ratio;
                        maxOutput := resolveMaxOutput request outputCap |})
  end.

End ModelAware.

(** ASCII letters to lower case: [toLowerCase] on strings of code units
    below 128. *)
Definition ascii_lower (c : Ascii.ascii) : Ascii.ascii :=
  let n := Ascii.nat_of_ascii c in
  if ((65 <=? n) && (n <=? 90))%nat then Ascii.ascii_of_nat (n + 32) else c.

Fixpoint lower (s : string) : string :=
  match s with
  | EmptyString => EmptyString
  | String c s' => String (ascii_lower c) (lower s')
  end.

(** The ceiling of the exact quotient. *)
Definition exact_ceil_quotient (n : Z) (r : Ratio) : Z :=
  - ((- (n * Z.pos (QArith_base.Qden r))) / QArith_base.Qnum r).

(** The total [content.length] of a request's messages. *)
Definition input_chars (request : LLMRequest) : Z :=
  foldl (fun sum m => sum + content_length m) 0 (messages request).

(** [{}]: no default model, no output cap, no callback. *)
Definition plain_estimator_options : ModelAwareEstimatorOptions :=
  {| defaultModel := None; mae_outputCap := None; onUnknownModel := None |}.

(** [{ defaultModel, onUnknownModel: (m) => { log.push(m) } }] *)
Definition logging_estimator_options (m : string) : ModelAwareEstimatorOptions :=
  {| defaultModel := Some m; mae_outputCap := None;
     onUnknownModel := Some (fun _ => None) |}.

(** [{ "gpt-4o-mini": 3.0 }] *)
Definition mini_override (key : string) : option Ratio :=
  if String.eqb key "gpt-4o-mini" then Some (tenths 30) else None.

(** The estimator a bulkhead builds when [tokenBudget.estimator] is
    absent: [createModelAwareTokenEstimator(undefined, { defaultModel:
    opts.model, outputCap: budget?.outputCap })].  It has no callback,
    so it makes no call and does not throw. *)
Definition default_estimator (toLowerCase : string -> string)
           (ceil_quotient : Z -> Ratio -> Z) (m : string) (cap : option Z)
  : TokenEstimator := fun request =>
  match snd (createModelAwareTokenEstimator toLowerCase ceil_quotient None
               {| defaultModel := Some m; mae_outputCap := cap;
                  onUnknownModel := None |} request) with
  | Normal estimate => estimate
  | Throw _ => {| input := 0; maxOutput := 0 |}
  end.

(** [{ model: "my-gpt4-prod", maxConcurrent: 2,
       tokenBudget: { budget: 5000, outputCap: 512 } }] *)
Definition azure_options : LLMBulkheadOptions :=
  {| model := "my-gpt4-prod"; maxConcurrent := integer 2;
     opt_maxQueue := None; opt_timeoutMs := None; profile := None;
     tokenBudget := Some {| budget := 5000; budget_estimator := None;
                            outputCap := Some 512 |};
     deduplication := None |}.

(** ** Accounting *)

(** The estimated cost of a request: what a reservation takes. *)
Definition cost (B : Bulkhead) (request : LLMRequest) : Z :=
  input (estimator B request) + maxOutput (estimator B request).

(** What [tryReserveTokens] reserves when it succeeds. *)
Definition reservation (B : Bulkhead) (request : LLMRequest) : Z :=
  match budget_of B with
  | Some _ => cost B request
  | None => 0
  end.

(** [Number.MAX_SAFE_INTEGER]: the integers up to it are numbers of the
    host, and sums and differences that stay within it are computed
    exactly. *)
Definition MAX_SAFE_INTEGER : Z := 2 ^ 53 - 1.

(** The budget, when there is one, is at most [MAX_SAFE_INTEGER]. *)
Definition safe_budget (B : Bulkhead) : Prop :=
  forall b, budget_of B = Some b -> budget b <= MAX_SAFE_INTEGER.

(** The wrapped token of an activation of [_acquire], while it has not
    been released. *)
Definition held_token (call : AcquireCall) : option WrappedToken :=
  match acquire_pc call with
  | AcquireSettled (Normal (ok_true w)) => if released w then None else Some w
  | _ => None
  end.

Definition held_tokens (s : State) : list WrappedToken :=
  omap held_token (acquires s).

(** The tokens that the unreleased wrapped tokens reserve. *)
Definition reserved_total (s : State) : Z :=
  foldr Z.add 0 (reserved <$> held_tokens s).

(** The slot tokens whose [release()] the bulkhead has called. *)
Definition slot_releases (evs : list Event) : list SlotToken :=
  omap (fun e => match e with
                 | SlotRelease token => Some token
                 | _ => None
                 end) evs.

(** The slot that a step receives from the gate. *)
Definition granted_slot (l : Label) : option SlotToken :=
  match l with
  | gate_settles _ (granted token) => Some token
  | _ => None
  end.

Definition granted_slots (ls : list Label) : list SlotToken := omap granted_slot ls.

(** The calls of [bulkhead.acquire] made so far. *)
Definition gate_calls (evs : list Event) : list AcquireOptions :=
  omap (fun e => match e with
                 | GateAcquire o => Some o
                 | _ => None
                 end) evs.

Definition is_follower (ro : Role) : bool :=
  match ro with
  | follower _ => true
  | _ => false
  end.

Definition is_leader (ro : Role) : bool :=
  match ro with
  | leader => true
  | _ => false
  end.

(** The activations of [run] that joined an entry, and those that
    installed one. *)
Definition follower_count (s : State) : nat :=
  length (filter (fun ro => is_follower ro = true) (role_of <$> runs s)).

Definition leader_count (s : State) : nat :=
  length (filter (fun ro => is_leader ro = true) (role_of <$> runs s)).

(** The invocations of work functions so far: which run, with which
    signal. *)
Definition fn_calls (evs : list Event) : list (RunId * option nat) :=
  omap (fun e => match e with
                 | FnInvoke r sig => Some (r, sig)
                 | _ => None
                 end) evs.

(** [{ model, maxConcurrent }]: no token budget, no deduplication. *)
Definition bare_bulkhead : Bulkhead :=
  {| opts := {| model := "gpt-4o"; maxConcurrent := integer 2;
                opt_maxQueue := None; opt_timeoutMs := None; profile := None;
                tokenBudget := None; deduplication := None |};
     maxQueue := 0; timeoutMs := None;
     estimator := naiveTokenEstimator;
     JSON_stringify := stringify_messages |}.

(** On [bare_bulkhead], [acquire(hello_request)] was granted a slot. *)
Definition bare_admitted : State :=
  match exec bare_bulkhead
          [call_acquire hello_request no_acquire_options;
           gate_settles 0%nat (granted (slot 0))] initial_state with
  | Some s => s
  | None => initial_state
  end.

(** Budget 100, every request estimated at 50 + 50 tokens: exactly one
    request fits. *)
Definition exact_fit_bulkhead : Bulkhead :=
  demo_bulkhead 100 50 50 false None stringify_messages.

(** [acquire(hello_request)] waits for the gate. *)
Definition acquire_waiting (B : Bulkhead) : State :=
  snd (acquire B hello_request no_acquire_options initial_state).

(** [run(hello_request, fn)] waits for the gate. *)
Definition run_waiting (B : Bulkhead) : State :=
  snd (run B hello_request no_acquire_options initial_state).

(** * Properties *)

Example stringify_hello :
  stringify_messages (messages hello_request)
  = Some ("[{" +:+ dquote +:+ "role" +:+ dquote +:+ ":" +:+ dquote +:+ "user" +:+ dquote
          +:+ "," +:+ dquote +:+ "content" +:+ dquote +:+ ":" +:+ dquote
          +:+ "hello world" +:+ dquote +:+ "}]").
Proof. reflexivity. Qed.

Example demo_bulkhead_created b i o d p host create gate :
  gate 2 (nullish (preset_maxQueue (resolvePreset p)) 0) = None ->
  createLLMBulkhead create host gate (demo_options b i o d p)
  = inr (demo_bulkhead b i o d p host).
Proof. intros H. unfold createLLMBulkhead. simpl. by rewrite H. Qed.

(** ** Unfolding the embedding *)

Ltac unfold_M :=
  unfold emit, subscribe, new_run, new_acquire in *;
  unfold bind, ret, gets, throw, complete, try_catch, try_finally, modify in *.

Ltac unfold_code :=
  unfold acquire, run, run_resumed, work_resumed, settle_acquire, fire in *;
  unfold _acquire, _acquire_resumed, release, cleanup, settle_with in *;
  unfold slot_release, releaseTokens, tryReserveTokens, settle, set_run_pc in *;
  unfold_M.

(** Case analysis on an enabled step: one goal per path through the
    segment that the label runs. *)
Ltac step_cases H :=
  match type of H with
  | step _ ?l _ = Some _ =>
      destruct l; simpl in H; unfold_code; simpl in H;
      repeat (case_match; simplify_eq/=)
  end.

Section Frames.

Variables (p : PromiseRef) (st : PromiseState) (s : State).

Lemma set_promise_inFlightTokens :
  inFlightTokens (set_promise p st s) = inFlightTokens s.
Proof. by destruct p. Qed.

Lemma set_promise_dedupMap : dedupMap (set_promise p st s) = dedupMap s.
Proof. by destruct p. Qed.

Lemma set_promise_dedupHits : dedupHits (set_promise p st s) = dedupHits s.
Proof. by destruct p. Qed.

Lemma set_promise_reactions : reactions (set_promise p st s) = reactions s.
Proof. by destruct p. Qed.

Lemma set_promise_acquires : acquires (set_promise p st s) = acquires s.
Proof. by destruct p. Qed.

Lemma set_promise_trace : trace (set_promise p st s) = trace s.
Proof. by destruct p. Qed.

Lemma set_promise_length : length (runs (set_promise p st s)) = length (runs s).
Proof. destruct p; simpl; by rewrite length_alter. Qed.

End Frames.

Create Rewrite HintDb frame.
#[global] Hint Rewrite set_promise_inFlightTokens set_promise_dedupMap
  set_promise_dedupHits set_promise_reactions set_promise_acquires
  set_promise_trace set_promise_length : frame.

Lemma token_of_frame s s' a :
  acquires s' = acquires s -> token_of s' a = token_of s a.
Proof. unfold token_of. by intros ->. Qed.

(** Invariants of the event loop are proved step by step. *)
Lemma exec_invariant B (P : State -> Prop) :
  (forall l s s', P s -> step B l s = Some s' -> P s') ->
  forall ls s s', P s -> exec B ls s = Some s' -> P s'.
Proof.
  intros Hstep ls. induction ls as [|l ls IH]; simpl; intros s s' HP H.
  - by simplify_eq.
  - destruct (step B l s) as [s1|] eqn:E; [|done]. eauto.
Qed.

Lemma reachable_invariant B (P : State -> Prop) :
  P initial_state ->
  (forall l s s', P s -> step B l s = Some s' -> P s') ->
  forall s, reachable B s -> P s.
Proof. intros H0 Hstep s [ls Hls]. eapply exec_invariant; eauto. Qed.

Lemma exec_app B ls1 ls2 s s1 :
  exec B ls1 s = Some s1 -> exec B (ls1 ++ ls2) s = exec B ls2 s1.
Proof.
  revert s. induction ls1 as [|l ls1 IH]; simpl; intros s H.
  - by simplify_eq.
  - destruct (step B l s); [eauto|done].
Qed.

Lemma reachable_exec B ls s s' :
  reachable B s -> exec B ls s = Some s' -> reachable B s'.
Proof.
  intros [ls0 H0] H. exists (ls0 ++ ls). by rewrite (exec_app _ _ _ _ _ H0).
Qed.

Lemma reachable_step B l s s' :
  reachable B s -> step B l s = Some s' -> reachable B s'.
Proof.
  intros Hr H. apply (reachable_exec B [l] s s' Hr). simpl. by rewrite H.
Qed.

(** ** Option and preset resolution *)

Lemma resolvePreset_as_stated p :
  preset_maxQueue (resolvePreset p) = stated_preset_maxQueue p /\
  preset_timeoutMs (resolvePreset p) = stated_preset_timeoutMs p.
Proof. by destruct p as [[[|]|preset]|]. Qed.

Lemma created_fields create host gate o B :
  createLLMBulkhead create host gate o = inr B ->
  opts B = o /\ maxQueue B = effective_maxQueue o /\
  (forall ao, ao_timeoutMs (mergedOptions B ao) = effective_timeout o ao) /\
  exists n, maxConcurrent o = integer n /\ 0 < n /\
            gate n (effective_maxQueue o) = None.
Proof.
  unfold createLLMBulkhead, effective_maxQueue, effective_timeout. intros H.
  destruct (resolvePreset_as_stated (profile o)) as [<- <-].
  destruct (String.eqb _ _); [discriminate|].
  destruct (maxConcurrent o) as [n|]; [|discriminate].
  destruct (n <=? 0) eqn:Hn; [discriminate|]. apply Z.leb_gt in Hn.
  destruct (gate n _) eqn:Hg; [discriminate|].
  injection H as <-. simpl. split; [done|]. split; [done|]. split; [done|].
  exists n. done.
Qed.

Lemma step_trace B l s s' :
  step B l s = Some s' ->
  exists evs, trace s' = evs ++ trace s /\
    forall o', GateAcquire o' ∈ evs ->
      exists request ao, (l = call_acquire request ao \/ l = call_run request ao) /\
        o' = mergedOptions B ao.
Proof.
  intros H. step_cases H; autorewrite with frame; simpl;
  first [ exists []; split; [reflexivity|]; intros o' Hin; by inversion Hin
        | eexists [_]; split; [reflexivity|]; intros o' Hin;
          apply list_elem_of_singleton in Hin; simplify_eq; eauto ].
Qed.

(** C9: every call to the gate made for [acquire] or [run] carries the
    caller's signal and the effective wait-timeout: the per-call
    [timeoutMs] when given, otherwise the constructor's, otherwise the
    preset's; the gate is built with the explicit [maxQueue] when given,
    otherwise the preset's, otherwise 0; the named presets are
    [interactive = {maxQueue: 0}] and [batch = {maxQueue: 20, timeoutMs:
    30000}], a plain preset object stands for itself and an absent
    profile gives no defaults; an explicit value, 0 included, overrides
    the preset.  The effective values are written from these words, and
    the code's [resolvePreset] and [PROFILES] are shown to agree with
    them. *)
Theorem option_resolution create host gate o B :
  createLLMBulkhead create host gate o = inr B ->
  (forall l s s', step B l s = Some s' ->
     exists evs, trace s' = evs ++ trace s /\
       forall o', GateAcquire o' ∈ evs ->
         exists request ao,
           (l = call_acquire request ao \/ l = call_run request ao) /\
           o' = {| signal := signal ao; ao_timeoutMs := effective_timeout o ao |}) /\
  (forall request ao s, over_budget B request s = false ->
     trace (snd (acquire B request ao s))
     = GateAcquire {| signal := signal ao; ao_timeoutMs := effective_timeout o ao |}
       :: trace s) /\
  maxQueue B = effective_maxQueue o /\
  (exists n, maxConcurrent o = integer n /\
             gate n (effective_maxQueue o) = None) /\
  (forall q, opt_maxQueue o = Some q -> maxQueue B = q) /\
  (forall t, opt_timeoutMs o = Some t -> timeoutMs B = Some t) /\
  (forall ao t, ao_timeoutMs ao = Some t -> effective_timeout o ao = Some t) /\
  (opt_maxQueue o = None -> profile o = None -> maxQueue B = 0) /\
  (opt_timeoutMs o = None -> profile o = None -> timeoutMs B = None) /\
  (forall preset, profile o = Some (custom preset) ->
     maxQueue B = nullish (opt_maxQueue o) (nullish (preset_maxQueue preset) 0) /\
     timeoutMs B = nullish_opt (opt_timeoutMs o) (preset_timeoutMs preset)) /\
  resolvePreset (Some (named interactive))
    = {| preset_maxQueue := Some 0; preset_timeoutMs := None |} /\
  resolvePreset (Some (named batch))
    = {| preset_maxQueue := Some 20; preset_timeoutMs := Some 30000 |}.
Proof.
  intros Hc. destruct (created_fields _ _ _ _ _ Hc) as (Ho & Hq & Ht & n & Hn & _ & Hg).
  assert (Hm : forall ao, mergedOptions B ao
    = {| signal := signal ao; ao_timeoutMs := effective_timeout o ao |}).
  { intros ao. rewrite <- Ht. reflexivity. }
  assert (Hto : timeoutMs B
    = effective_timeout o {| signal := None; ao_timeoutMs := None |}).
  { rewrite <- Ht. unfold mergedOptions. simpl. by destruct (timeoutMs B). }
  split; [|split; [|split; [|split; [|split; [|split; [|split; [|split;
    [|split; [|split; [|split]]]]]]]]]].
  - intros l s s' H. destruct (step_trace B l s s' H) as (evs & He & Hg').
    exists evs. split; [done|]. intros o' Hin.
    destruct (Hg' o' Hin) as (request & ao & Hl & ->). exists request, ao.
    by rewrite <- Hm.
  - intros request ao s Hob. unfold acquire, _acquire. unfold_M.
    rewrite Hob. simpl. by rewrite Hm.
  - done.
  - by exists n.
  - intros q Hq'. rewrite Hq. unfold effective_maxQueue. by rewrite Hq'.
  - intros t Ht'. rewrite Hto. unfold effective_timeout. simpl. by rewrite Ht'.
  - intros ao t Ht'. unfold effective_timeout. by rewrite Ht'.
  - intros Hq' Hp. rewrite Hq. unfold effective_maxQueue. by rewrite Hq', Hp.
  - intros Ht' Hp. rewrite Hto. unfold effective_timeout. simpl. by rewrite Ht', Hp.
  - intros preset Hp. split.
    + rewrite Hq. unfold effective_maxQueue. rewrite Hp. simpl.
      by destruct (opt_maxQueue o).
    + rewrite Hto. unfold effective_timeout. simpl. rewrite Hp. simpl.
      by destruct (opt_timeoutMs o).
  - done.
  - done.
Qed.

Lemma option_resolution_witness :
  createLLMBulkhead (fun _ _ => naiveTokenEstimator) stringify_messages
    checking_createBulkhead (demo_options 200 50 50 false (Some (named batch)))
  = inr (demo_bulkhead 200 50 50 false (Some (named batch)) stringify_messages) /\
  maxQueue (demo_bulkhead 200 50 50 false (Some (named batch)) stringify_messages) = 20 /\
  trace (snd (acquire (demo_bulkhead 200 50 50 false (Some (named batch)) stringify_messages)
                hello_request no_acquire_options initial_state))
  = [GateAcquire {| signal := None; ao_timeoutMs := Some 30000 |}].
Proof.
  pose proof (option_resolution (fun _ _ => naiveTokenEstimator) stringify_messages
    checking_createBulkhead
    (demo_options 200 50 50 false (Some (named batch)))
    (demo_bulkhead 200 50 50 false (Some (named batch)) stringify_messages)
    eq_refl) as (_ & Hacq & Hq & _).
  split; [reflexivity|]. split; [exact Hq|].
  exact (Hacq hello_request no_acquire_options initial_state eq_refl).
Defined.

(** ** The token ledger *)

Lemma token_of_app s s' x a w :
  acquires s' = acquires s ++ [x] -> token_of s' a = Some w ->
  token_of s a = Some w \/ acquire_pc x = AcquireSettled (Normal (ok_true w)).
Proof.
  unfold token_of. intros ->. destruct ((acquires s ++ [x]) !! a) as [c|] eqn:E; [|done].
  apply lookup_snoc_Some in E as [[_ E] | [_ E]]; [rewrite E; by left|subst c].
  intros H. right. by repeat (case_match; simplify_eq/=).
Qed.

Lemma token_of_alter s s' f i a w :
  acquires s' = alter f i (acquires s) -> token_of s' a = Some w ->
  (a <> i /\ token_of s a = Some w) \/
  (a = i /\ exists c, acquires s !! i = Some c /\
                      acquire_pc (f c) = AcquireSettled (Normal (ok_true w))).
Proof.
  unfold token_of. intros ->. destruct (decide (a = i)) as [->|Hne].
  - rewrite list_lookup_alter_eq. destruct (acquires s !! i) as [c|]; simpl; [|done].
    intros H. right. split; [done|]. exists c. split; [done|].
    by repeat (case_match; simplify_eq/=).
  - rewrite list_lookup_alter_ne by done. by left.
Qed.

Lemma ledger_step B b l s s' :
  budget_of B = Some b -> estimator_non_negative B ->
  ledger_inv (budget b) s -> step B l s = Some s' -> ledger_inv (budget b) s'.
Proof.
  intros Hb Hest [Hift Htok] H. unfold ledger_inv.
  step_cases H; autorewrite with frame; simpl;
  (split; [ try lia | intros a' w' Ht ]).
  all: try (erewrite token_of_frame in Ht by (autorewrite with frame; reflexivity); by eauto).
  all: try (eapply token_of_app in Ht; [|simpl; reflexivity]; destruct Ht as [Ht|Ht]; [by eauto|by simplify_eq/=]).
  all: try match goal with
       | Hw : token_of _ _ = Some ?w |- context [reserved ?w] =>
           pose proof (Htok _ _ Hw); lia
       end.
  all: try (destruct (Hest request); lia).
  all: eapply token_of_alter in Ht; [|autorewrite with frame; simpl; reflexivity];
       destruct Ht as [[_ Ht]|(_ & c & Hc & Ht)]; [by eauto| ].
  all: repeat (case_match; simplify_eq/=).
  all: try (destruct (Hest request); lia).
  all: try congruence.
  all: try (eapply Htok; unfold token_of; rewrite Hc; destruct c; simpl in *; subst; reflexivity).
  all: simpl in *; simplify_eq; simpl; try (destruct (Hest request); lia).
Qed.

Lemma ledger_initial bud : 0 <= bud -> ledger_inv bud initial_state.
Proof.
  intros Hb. split; [simpl; lia|]. intros a w. unfold token_of. simpl.
  by destruct a.
Qed.

Lemma constant_estimator_non_negative b i o d p host :
  0 <= i -> 0 <= o -> estimator_non_negative (demo_bulkhead b i o d p host).
Proof. intros Hi Ho request. simpl. lia. Qed.

(** C1, as stated, fails: nothing validates [tokenBudget.budget], and a
    bulkhead created with budget -1 starts with [inFlightTokens = 0],
    which is above its budget. *)
Lemma budget_invariant_fails_for_negative_budget :
  createLLMBulkhead (fun _ _ => naiveTokenEstimator) stringify_messages
    checking_createBulkhead
    (demo_options (-1) 50 50 false None) = inr negative_budget_bulkhead /\
  reachable negative_budget_bulkhead initial_state /\
  stats_tokenBudget (stats negative_budget_bulkhead initial_state)
    = Some {| stats_budget := -1; stats_inFlightTokens := 0; stats_available := 0 |} /\
  ~ budget_invariant_as_stated.
Proof.
  assert (Hr : reachable negative_budget_bulkhead initial_state) by (by exists []).
  repeat split; [done|].
  intros Hclaim.
  specialize (Hclaim negative_budget_bulkhead _ eq_refl
                (constant_estimator_non_negative (-1) 50 50 false None
                   stringify_messages ltac:(lia) ltac:(lia))
                initial_state Hr).
  simpl in Hclaim. lia.
Qed.

(** C1, amended: for a bulkhead with a non-negative token budget whose
    estimator returns non-negative integers, every reachable state has
    [0 <= inFlightTokens <= budget], which is what [stats()] reports;
    [releaseTokens] never leaves the counter below zero, whatever amount
    it is given and however often it is called. *)
Theorem budget_invariant B b :
  budget_of B = Some b -> 0 <= budget b -> estimator_non_negative B ->
  (forall s, reachable B s ->
     0 <= inFlightTokens s <= budget b /\
     stats_tokenBudget (stats B s)
     = Some {| stats_budget := budget b;
               stats_inFlightTokens := inFlightTokens s;
               stats_available := budget b - inFlightTokens s |}) /\
  (forall s amount, 0 <= inFlightTokens (snd (releaseTokens amount s))) /\
  (forall s amount,
     0 <= inFlightTokens (snd (releaseTokens amount (snd (releaseTokens amount s))))).
Proof.
  intros Hb Hbud Hest. split; [|split].
  - intros s Hs.
    assert (Hinv : ledger_inv (budget b) s).
    { revert s Hs. apply reachable_invariant; [by apply ledger_initial|].
      intros l s s' Hinv Hstep. by eapply ledger_step. }
    destruct Hinv as [Hift _]. split; [done|].
    unfold stats. rewrite Hb. by rewrite Z.max_r by lia.
  - intros s amount. simpl. lia.
  - intros s amount. simpl. lia.
Qed.

Lemma budget_invariant_witness :
  0 <= inFlightTokens
         (snd (release 0%nat
            (settle_acquire 0%nat
               (_acquire_resumed (demo_bulkhead 200 50 50 false None stringify_messages)
                  hello_request (granted (slot 0)))
               (snd (acquire (demo_bulkhead 200 50 50 false None stringify_messages)
                       hello_request no_acquire_options initial_state)))))
  <= 200.
Proof.
  refine (proj1 (proj1 (budget_invariant
    (demo_bulkhead 200 50 50 false None stringify_messages) _ eq_refl
    ltac:(simpl; lia)
    (constant_estimator_non_negative 200 50 50 false None stringify_messages
       ltac:(lia) ltac:(lia))) _ _)).
  exists [call_acquire hello_request no_acquire_options;
          gate_settles 0%nat (granted (slot 0)); call_release 0%nat].
  reflexivity.
Defined.


(** ** The composite token *)

Lemma token_of_set_released s a w :
  token_of s a = Some w ->
  token_of (set_released a s) a
  = Some {| base := base w; reserved := reserved w; released := true |}.
Proof.
  unfold token_of, set_released. simpl. rewrite list_lookup_alter_eq.
  destruct (acquires s !! a) as [c|]; [|done]. simpl.
  intros H. by repeat (case_match; simplify_eq/=).
Qed.

(** What a call of [release()] on a token that is not yet released does. *)
Lemma release_first a s w :
  token_of s a = Some w -> released w = false ->
  release a s
  = (match release_throws (base w) with
     | None => Normal tt
     | Some e => Throw e
     end,
     with_inFlightTokens (Z.max 0 (inFlightTokens s - reserved w))
       (with_trace (SlotRelease (base w) :: trace s) (set_released a s))).
Proof.
  intros Hw Hr. unfold release, slot_release, releaseTokens. unfold_M.
  rewrite Hw, Hr. simpl. by destruct (release_throws (base w)).
Qed.

(** ... and on a token that is released. *)
Lemma release_again a s w :
  token_of s a = Some w -> released w = true -> release a s = (Normal tt, s).
Proof.
  intros Hw Hr. unfold release. unfold_M. by rewrite Hw, Hr.
Qed.

(** The flag [released] is never reset. *)
Lemma released_stable B l s s' a w :
  step B l s = Some s' ->
  token_of s a = Some w -> released w = true -> token_of s' a = Some w.
Proof.
  intros H Hw Hr.
  assert (Ha : exists c, acquires s !! a = Some c /\
             acquire_pc c = AcquireSettled (Normal (ok_true w))).
  { unfold token_of in Hw. destruct (acquires s !! a) as [c|]; [|done].
    exists c. split; [done|]. by repeat (case_match; simplify_eq/=). }
  destruct Ha as (c & Hc & Hpc).
  assert (Happ : forall x, (acquires s ++ [x]) !! a = Some c).
  { intros x. rewrite lookup_app_l; [done|]. by eapply lookup_lt_Some. }
  step_cases H; unfold token_of in *; autorewrite with frame; simpl;
    rewrite ?Happ, ?Hc; try done.
  all: try match goal with
       | |- context [alter ?f ?i _ !! ?j] =>
           destruct (decide (i = j)) as [->|Hne];
           [rewrite list_lookup_alter_eq, Hc; simpl
           |rewrite list_lookup_alter_ne, Hc by done]
       end.
  all: destruct c as [who pc]; simpl in *; subst pc; try done.
  all: repeat (case_match; simplify_eq/=); try done.
  all: try (destruct w; simpl in *; by subst).
  all: try match goal with t : WrappedToken |- _ => destruct t; simpl in *; by subst end.
Qed.

Lemma released_stable_exec B ls s s' a w :
  exec B ls s = Some s' ->
  token_of s a = Some w -> released w = true -> token_of s' a = Some w.
Proof.
  revert s. induction ls as [|l ls IH]; simpl; intros s H Hw Hr.
  - by simplify_eq.
  - destruct (step B l s) as [s1|] eqn:E; [|done].
    eapply IH; eauto using released_stable.
Qed.

(** C4: [release()] of a composite token is idempotent.  The first call
    releases the slot (one call to the base token's [release()]) and the
    reservation ([inFlightTokens] goes down by [reserved], floored at 0);
    a second call, at once or after anything else the bulkhead does,
    changes nothing at all and returns normally. *)
Theorem release_idempotent B a s w :
  token_of s a = Some w ->
  (released w = false ->
     trace (snd (release a s)) = SlotRelease (base w) :: trace s /\
     inFlightTokens (snd (release a s))
       = Z.max 0 (inFlightTokens s - reserved w) /\
     token_of (snd (release a s)) a
       = Some {| base := base w; reserved := reserved w; released := true |}) /\
  release a (snd (release a s)) = (Normal tt, snd (release a s)) /\
  (forall ls s2, exec B ls (snd (release a s)) = Some s2 ->
     release a s2 = (Normal tt, s2)).
Proof.
  intros Hw.
  assert (Hafter : exists w', token_of (snd (release a s)) a = Some w' /\
                              released w' = true).
  { destruct (released w) eqn:Hr.
    - rewrite (release_again a s w Hw Hr). by exists w.
    - rewrite (release_first a s w Hw Hr). simpl.
      eexists. split;
        [erewrite token_of_frame by reflexivity; by apply token_of_set_released
        |reflexivity]. }
  destruct Hafter as (w' & Hw' & Hr'). split; [|split].
  - intros Hr. rewrite (release_first a s w Hw Hr). simpl.
    split; [done|]. split; [done|].
    erewrite token_of_frame by reflexivity. by apply token_of_set_released.
  - by eapply release_again.
  - intros ls s2 Hex. eapply release_again; [|exact Hr'].
    eapply released_stable_exec; eauto.
Qed.

Lemma release_idempotent_witness :
  token_of (after_one_admission plain_bulkhead (slot 0)) 0%nat
    = Some {| base := slot 0; reserved := 100; released := false |} /\
  inFlightTokens (after_one_admission plain_bulkhead (slot 0)) = 100 /\
  inFlightTokens (snd (release 0%nat (after_one_admission plain_bulkhead (slot 0)))) = 0 /\
  release 0%nat (snd (release 0%nat (after_one_admission plain_bulkhead (slot 0))))
  = (Normal tt, snd (release 0%nat (after_one_admission plain_bulkhead (slot 0)))).
Proof.
  destruct (release_idempotent plain_bulkhead 0%nat
              (after_one_admission plain_bulkhead (slot 0))
              {| base := slot 0; reserved := 100; released := false |} eq_refl)
    as (Hfirst & Hsecond & _).
  destruct (Hfirst eq_refl) as (_ & Hift & _).
  exact (conj eq_refl (conj eq_refl (conj Hift Hsecond))).
Defined.

(** C10: the first [release()] sets [released] before it calls the base
    token's [release()], and returns the reservation in a [finally]: the
    base call runs in a state where the token is already marked; whether
    it returns or throws, [inFlightTokens] goes down once by [reserved];
    what it throws reaches the caller; and a further [release()] does
    nothing, so the reservation is returned exactly once. *)
Theorem release_finally a s w :
  token_of s a = Some w -> released w = false ->
  (exists s0,
     token_of s0 a = Some {| base := base w; reserved := reserved w; released := true |} /\
     inFlightTokens s0 = inFlightTokens s /\ trace s0 = trace s /\
     release a s
     = try_finally (slot_release (base w)) (releaseTokens (reserved w)) s0) /\
  fst (release a s)
    = match release_throws (base w) with
      | None => Normal tt
      | Some e => Throw e
      end /\
  inFlightTokens (snd (release a s)) = Z.max 0 (inFlightTokens s - reserved w) /\
  trace (snd (release a s)) = SlotRelease (base w) :: trace s /\
  release a (snd (release a s)) = (Normal tt, snd (release a s)) /\
  inFlightTokens (snd (release a (snd (release a s))))
    = Z.max 0 (inFlightTokens s - reserved w).
Proof.
  intros Hw Hr.
  assert (Hw1 : token_of (set_released a s) a
                = Some {| base := base w; reserved := reserved w; released := true |})
    by (by apply token_of_set_released).
  assert (Hagain : release a (snd (release a s)) = (Normal tt, snd (release a s))).
  { rewrite (release_first a s w Hw Hr). simpl.
    eapply release_again;
      [erewrite token_of_frame by reflexivity; exact Hw1|reflexivity]. }
  split; [|split; [|split; [|split; [|split]]]].
  - exists (set_released a s). split; [done|]. split; [done|]. split; [done|].
    unfold release. unfold_M. by rewrite Hw, Hr.
  - by rewrite (release_first a s w Hw Hr).
  - by rewrite (release_first a s w Hw Hr).
  - by rewrite (release_first a s w Hw Hr).
  - exact Hagain.
  - rewrite Hagain. simpl. by rewrite (release_first a s w Hw Hr).
Qed.

Lemma release_finally_witness :
  token_of (after_one_admission plain_bulkhead (faulty_slot 0 (OtherError 1))) 0%nat
    = Some {| base := faulty_slot 0 (OtherError 1); reserved := 100; released := false |} /\
  fst (release 0%nat (after_one_admission plain_bulkhead (faulty_slot 0 (OtherError 1))))
    = Throw (OtherError 1) /\
  inFlightTokens
    (snd (release 0%nat (after_one_admission plain_bulkhead (faulty_slot 0 (OtherError 1)))))
    = 0 /\
  inFlightTokens
    (snd (release 0%nat
       (snd (release 0%nat
          (after_one_admission plain_bulkhead (faulty_slot 0 (OtherError 1)))))))
    = 0.
Proof.
  destruct (release_finally 0%nat
              (after_one_admission plain_bulkhead (faulty_slot 0 (OtherError 1)))
              {| base := faulty_slot 0 (OtherError 1); reserved := 100; released := false |}
              eq_refl eq_refl)
    as (_ & Hthrow & Hift & _ & _ & Honce).
  exact (conj eq_refl (conj Hthrow (conj Hift Honce))).
Defined.

(** ** The deduplication key *)

(** What [run] does up to its first [await], by cases. *)
Lemma run_joins B request ao s leader :
  joins B request s = Some leader ->
  run B request ao s
  = (Normal (length (runs s)),
     with_runs (runs s ++ [ {| run_ao := ao; returned := Pending; deferred := None;
                               work := None; run_pc := Joined leader |} ])
       (with_reactions (reactions s ++ [Adopt (Deferred leader) (Returned (length (runs s)))])
          (with_dedupHits (S (dedupHits s)) s))).
Proof.
  unfold joins, run. unfold_M. simpl.
  destruct (_ && _); [|done]. by intros ->.
Qed.

Lemma run_leads B request ao s :
  leads B request s = true ->
  run B request ao s
  = (Normal (length (runs s)),
     with_runs (runs s ++ [ {| run_ao := ao; returned := Pending;
                               deferred := Some Pending; work := None;
                               run_pc := AwaitingAcquire (length (acquires s)) |} ])
       (snd (_acquire B request ao (Some (length (runs s)))
          (with_reactions (reactions s ++ [Cleanup (length (runs s)) (dedupKey_of B request)])
             (with_dedupMap (<[dedupKey_of B request := length (runs s)]> (dedupMap s)) s))))).
Proof.
  unfold leads, run. unfold_M. simpl.
  destruct (_ && negb _); [|done]. simpl. intros Hn%bool_decide_eq_true.
  rewrite Hn. unfold _acquire. unfold_M. simpl.
  by destruct (over_budget _ _ _).
Qed.

Lemma run_direct B request ao s :
  joins B request s = None -> leads B request s = false ->
  run B request ao s
  = (Normal (length (runs s)),
     with_runs (runs s ++ [ {| run_ao := ao; returned := Pending; deferred := None;
                               work := None;
                               run_pc := AwaitingAcquire (length (acquires s)) |} ])
       (snd (_acquire B request ao (Some (length (runs s))) s))).
Proof.
  unfold joins, leads, run. unfold_M. simpl.
  destruct (_ && negb _); simpl.
  - intros ->. by rewrite bool_decide_eq_true_2.
  - intros _ _. unfold _acquire. unfold_M. by destruct (over_budget _ _ _).
Qed.

Lemma no_key_no_dedup B request s :
  JSON_stringify B (messages request) = None ->
  joins B request s = None /\ leads B request s = false.
Proof.
  unfold joins, leads, dedupKey_of. intros ->. simpl.
  destruct (truthy _); simpl; done.
Qed.

(** C8: the deduplication key is computed from [request.messages] alone:
    two requests with the same messages have the same key whatever their
    [max_tokens], and [run] on the second while the first leads joins the
    first; when serializing the messages throws, [run] does exactly what
    it does with deduplication switched off. *)
Theorem dedup_key_from_messages B :
  (forall r1 r2, messages r1 = messages r2 ->
     dedupKey_of B r1 = dedupKey_of B r2 /\
     forall ao1 ao2 s, leads B r1 s = true ->
       joins B r2 (snd (run B r1 ao1 s)) = Some (length (runs s)) /\
       run_pc <$> runs (snd (run B r2 ao2 (snd (run B r1 ao1 s)))) !! S (length (runs s))
         = Some (Joined (length (runs s)))) /\
  (forall r ao s, JSON_stringify B (messages r) = None ->
     run B r ao s = run (without_deduplication B) r ao s /\
     dedupMap (snd (run B r ao s)) = dedupMap s /\
     dedupHits (snd (run B r ao s)) = dedupHits s /\
     runs (snd (run B r ao s))
     = runs s ++ [ {| run_ao := ao; returned := Pending; deferred := None; work := None;
                      run_pc := AwaitingAcquire (length (acquires s)) |} ]).
Proof.
  split.
  - intros r1 r2 Hm.
    assert (Hk : dedupKey_of B r1 = dedupKey_of B r2)
      by (unfold dedupKey_of; by rewrite Hm).
    split; [done|]. intros ao1 ao2 s Hl.
    assert (Hj : joins B r2 (snd (run B r1 ao1 s)) = Some (length (runs s))).
    { rewrite (run_leads _ _ _ _ Hl). unfold joins, leads in *. rewrite <- Hk.
      destruct (_ && negb _); [|done]. simpl.
      unfold _acquire. unfold_M. simpl.
      destruct (over_budget _ _ _); simpl; by rewrite lookup_insert_eq. }
    split; [done|].
    rewrite (run_joins _ _ _ _ _ Hj). simpl.
    rewrite (run_leads _ _ _ _ Hl). simpl.
    rewrite list_lookup_middle; [done|]. rewrite length_app. simpl. lia.
  - intros r ao s Hthrow.
    destruct (no_key_no_dedup B r s Hthrow) as [Hj Hl].
    assert (Hdirect := run_direct B r ao s Hj Hl).
    split; [|rewrite Hdirect; unfold _acquire; unfold_M; simpl;
             by destruct (over_budget _ _ _)].
    rewrite Hdirect. unfold run, dedupKey_of, without_deduplication. simpl.
    unfold _acquire, over_budget, budget_of, mergedOptions. unfold_M. simpl.
    by destruct (tokenBudget (opts B)) as [b|]; [destruct (_ >? _)|].
Qed.

Lemma dedup_key_from_messages_witness :
  messages hello_request = messages hello_request_256 /\
  max_tokens hello_request <> max_tokens hello_request_256 /\
  dedupKey_of dedup_bulkhead hello_request = dedupKey_of dedup_bulkhead hello_request_256 /\
  run_pc <$> runs (snd (run dedup_bulkhead hello_request_256 no_acquire_options
                     (snd (run dedup_bulkhead hello_request no_acquire_options
                             initial_state)))) !! 1%nat
    = Some (Joined 0%nat) /\
  JSON_stringify unserializable_bulkhead (messages hello_request) = None /\
  run unserializable_bulkhead hello_request no_acquire_options initial_state
  = run (without_deduplication unserializable_bulkhead) hello_request
      no_acquire_options initial_state.
Proof.
  destruct (dedup_key_from_messages dedup_bulkhead) as [Hsame _].
  destruct (Hsame hello_request hello_request_256 eq_refl) as [Hk Hjoin].
  destruct (Hjoin no_acquire_options no_acquire_options initial_state
              ltac:(vm_compute; reflexivity)) as [_ Hpc].
  destruct (dedup_key_from_messages unserializable_bulkhead) as [_ Hthrow].
  destruct (Hthrow hello_request no_acquire_options initial_state eq_refl)
    as [Hoff _].
  split; [reflexivity|]. split; [discriminate|]. split; [exact Hk|].
  split; [exact Hpc|]. split; [reflexivity|exact Hoff].
Defined.

(** ** Invariants of the run wrapper *)

Lemma caller_alter (f : AcquireCall -> AcquireCall) (i : nat) (l : list AcquireCall) (a : nat) :
  (forall c, caller (f c) = caller c) ->
  caller <$> alter f i l !! a = caller <$> l !! a.
Proof.
  intros Hf. rewrite list_lookup_alter. case_decide; [subst|done].
  destruct (l !! a); simpl; [by rewrite Hf|done].
Qed.

Lemma caller_snoc (l : list AcquireCall) (y : AcquireCall) (a : nat) x :
  caller <$> l !! a = Some x -> caller <$> (l ++ [y]) !! a = Some x.
Proof.
  destruct (l !! a) as [c|] eqn:E; [|done]. intros H.
  by rewrite (lookup_app_l_Some _ _ _ _ E).
Qed.

Lemma set_released_caller c :
  caller (match acquire_pc c with
          | AcquireSettled (Normal (ok_true w)) =>
              {| caller := caller c;
                 acquire_pc := AcquireSettled (Normal (ok_true
                   {| base := base w; reserved := reserved w; released := true |})) |}
          | _ => c
          end) = caller c.
Proof. by repeat case_match. Qed.

Lemma lookup_alter_inv {A} (f : A -> A) (i j : nat) (l : list A) (y : A) :
  alter f i l !! j = Some y ->
  (i = j /\ exists x, l !! j = Some x /\ y = f x) \/ (i <> j /\ l !! j = Some y).
Proof.
  rewrite list_lookup_alter. case_decide; [subst|by right].
  intros (x & Hx & ->)%fmap_Some. left. eauto.
Qed.

(** Destructing a lookup in an extended or updated list. *)
Ltac lookup_inv H :=
  lazymatch type of H with
  | (_ ++ [_]) !! _ = Some _ =>
      apply lookup_snoc_Some in H as [[? H]|[? H]]
  | alter _ _ _ !! _ = Some _ =>
      let x := fresh "x" in
      apply lookup_alter_inv in H as [(? & x & H & ?)|[? H]]
  end; simplify_eq/=.

Lemma owns_step B l s s' : owns_inv s -> step B l s = Some s' -> owns_inv s'.
Proof.
  intros Hinv H. unfold owns_inv in *.
  step_cases H; autorewrite with frame; simpl; intros r' call' a' Hr' Ha'.
  all: try (destruct dst; simpl in Hr').
  all: repeat lookup_inv Hr'.
  all: rewrite ?caller_alter by (intros; simpl; by repeat case_match).
  all: try (by eapply Hinv).
  all: try (apply caller_snoc; by eapply Hinv).
  all: try (by rewrite list_lookup_middle).
  all: match goal with
       | Hrun : runs _ !! ?r = Some ?c, Hpc : run_pc ?c = _ |- _ =>
           eapply (Hinv r c); [exact Hrun|by rewrite Hpc]
       end.
Qed.


Lemma follows_frame s s' dst src src' x :
  follows s dst src x ->
  (x ∈ reactions s -> x ∈ reactions s') ->
  (forall st, src = Some st -> st <> Pending -> src' = Some st) ->
  follows s' dst src' x.
Proof.
  intros [[-> Hx]|[Hd Hs]] Hr Hst; [left; auto|right].
  split; [done|]. by apply Hst.
Qed.

(** [run_ok] of an activation that a step leaves alone. *)
Lemma run_ok_frame s s' r call :
  run_ok s r call ->
  (forall x, x ∈ reactions s -> owner x = Some r -> x ∈ reactions s') ->
  (forall e, e ∈ trace s -> e ∈ trace s') ->
  (forall a, run_pc call = AwaitingFn a \/ run_pc call = Finished a ->
             acquires s' !! a = acquires s !! a) ->
  (forall a w, run_pc call = AwaitingAcquire a -> token_of s' a = Some w ->
               token_of s a = Some w \/ released w = false) ->
  (forall l st, run_pc call = Joined l -> promise_state s (Deferred l) = Some st ->
                st <> Pending -> promise_state s' (Deferred l) = Some st) ->
  run_ok s' r call.
Proof.
  unfold run_ok. intros Hok Hrx Htr Hacq Hnew Hdef.
  destruct (run_pc call) as [l|a|a|a] eqn:Hpc.
  - destruct Hok as (Hd & Hw & Hf). split; [done|]. split; [done|].
    eapply follows_frame; [exact Hf|intros; by apply Hrx|]. intros st. by apply Hdef.
  - destruct Hok as (Hret & Hw & Hd & Htok).
    split; [done|]. split; [done|]. split; [done|].
    intros w Hw'. destruct (Hnew a w eq_refl Hw'); auto.
  - destruct Hok as (Hret & Hw & (w & Htok & Hrel) & Hrs).
    split; [done|]. split; [done|]. split.
    + exists w. split; [|done]. unfold token_of in *. rewrite Hacq; auto.
    + destruct (deferred call).
      * destruct Hrs as (Hp & H1 & H2).
        split; [done|]. split; apply Hrx; done.
      * apply Hrx; done.
  - rewrite Hacq by auto. destruct (acquires s !! a) as [[who [?|c]]|] eqn:Ha; try done.
    destruct (admission_error c) as [err|].
    + destruct Hok as [Hw Hd]. split; [done|].
      destruct (deferred call) as [d|]; [|done]. destruct Hd as [-> Hf].
      split; [done|]. eapply follows_frame; [exact Hf|intros; by apply Hrx|done].
    + destruct Hok as [Htok (v & Hw & Hv & Hd)]. split.
      * intros w Hw'. unfold token_of in Hw'. rewrite Hacq in Hw' by auto.
        destruct (Htok w Hw') as [? ?]. auto.
      * exists v. split; [done|]. split; [done|].
        destruct (deferred call) as [d|].
        -- destruct Hd as [H1 H2]. split;
             (eapply follows_frame; [eassumption|intros; by apply Hrx|done]).
        -- eapply follows_frame; [eassumption|intros; by apply Hrx|done].
Qed.

Lemma reaction_ok_frame s s' x :
  reaction_ok s x ->
  (forall r call, runs s !! r = Some call ->
     exists call', runs s' !! r = Some call' /\ source_of r call' = source_of r call) ->
  reaction_ok s' x.
Proof.
  destruct x as [src [r|r|r]|]; simpl; try done.
  intros (call & Hr & ->) H. destruct (H r call Hr) as (call' & Hr' & Hs). eauto.
Qed.

(** The acquire of a run that got past [await _acquire] has settled. *)
Lemma run_ok_settled s r call a :
  run_ok s r call -> run_pc call = AwaitingFn a \/ run_pc call = Finished a ->
  exists who c, acquires s !! a = Some {| caller := who; acquire_pc := AcquireSettled c |}.
Proof.
  unfold run_ok. intros Hok [Hpc|Hpc]; rewrite Hpc in Hok.
  - destruct Hok as (_ & _ & (w & Hw & _) & _). unfold token_of in Hw.
    destruct (acquires s !! a) as [[who [?|c]]|]; try done. eauto.
  - destruct (acquires s !! a) as [[who [?|c]]|]; try done. eauto.
Qed.

(** A step that leaves the activations of [run] alone, subscribes and
    logs at most, and changes no activation of [_acquire] that a [run]
    awaits other than by settling it with an unreleased token. *)
Lemma run_inv_frame s s' :
  run_inv s -> owns_inv s' ->
  runs s' = runs s ->
  (forall x, x ∈ reactions s' -> x ∈ reactions s) ->
  (forall x, x ∈ reactions s -> is_Some (owner x) -> x ∈ reactions s') ->
  (forall e, e ∈ trace s -> e ∈ trace s') ->
  (forall a c, acquires s !! a = Some c -> is_Some (caller c) ->
     acquires s' !! a = Some c \/
     (exists request, acquire_pc c = AwaitingGate request /\
                      forall w, token_of s' a = Some w -> released w = false)) ->
  run_inv s'.
Proof.
  intros (Hown & Hruns & Hrx) Hown' Hr Hx' Hx Htr Hacq. split; [done|]. split.
  - rewrite Hr. intros r call Hcall.
    assert (Hstay : forall a, acquire_of (run_pc call) = Some a ->
      acquires s' !! a = acquires s !! a \/
      (exists request who, acquires s !! a
         = Some {| caller := who; acquire_pc := AwaitingGate request |} /\
         forall w, token_of s' a = Some w -> released w = false)).
    { intros a Ha. specialize (Hown r call a Hcall Ha).
      destruct (acquires s !! a) as [c|] eqn:Hc; [|done].
      destruct (Hacq a c Hc) as [->|(request & Hpc & Hw)]; [simpl in *; by simplify_eq|by left|].
      right. destruct c as [who pc]. simpl in *. subst pc. eauto. }
    eapply run_ok_frame; [by apply Hruns|..].
    + intros x Hin Ho. apply Hx; [done|]. by rewrite Ho.
    + done.
    + intros a Hpc.
      destruct (run_ok_settled s r call a (Hruns r call Hcall) Hpc) as (who & c & Hc).
      destruct (Hstay a) as [?|(request & who' & Hc' & _)]; [|done|congruence].
      by destruct Hpc as [-> | ->].
    + intros a w Hpc Hw. destruct (Hstay a) as [Heq|(request & who' & Hc' & Hnew)].
      * by rewrite Hpc.
      * left. unfold token_of in *. by rewrite <- Heq.
      * right. by apply Hnew.
    + intros l st _. unfold promise_state. by rewrite Hr.
  - intros x Hin%Hx'. eapply reaction_ok_frame; [by apply Hrx|].
    intros r call Hcall. rewrite Hr. eauto.
Qed.

(** A step that starts an activation of [run]. *)
Lemma run_inv_extend s s' new news :
  run_inv s -> owns_inv s' ->
  runs s' = runs s ++ [new] ->
  reactions s' = reactions s ++ news ->
  (forall e, e ∈ trace s -> e ∈ trace s') ->
  (forall a c, acquires s !! a = Some c -> acquires s' !! a = Some c) ->
  run_ok s' (length (runs s)) new ->
  (forall x, x ∈ news -> reaction_ok s' x) ->
  run_inv s'.
Proof.
  intros (Hown & Hruns & Hrx) Hown' Hr Hx Htr Hacq Hnew Hnews.
  assert (Hold : forall r call, runs s !! r = Some call -> runs s' !! r = Some call).
  { intros r call Hcall. rewrite Hr. by apply lookup_app_l_Some. }
  split; [done|]. split.
  - intros r call. rewrite Hr. intros Hcall.
    apply lookup_snoc_Some in Hcall as [[_ Hcall]|[-> <-]]; [|done].
    eapply run_ok_frame; [by apply Hruns|..].
    + intros x Hin _. rewrite Hx. apply elem_of_app. by left.
    + done.
    + intros a Hpc.
      destruct (run_ok_settled s r call a (Hruns r call Hcall) Hpc) as (who & c & Hc).
      rewrite Hc. by apply Hacq.
    + intros a w Hpc Hw. left.
      assert (Ha := Hown r call a Hcall ltac:(by rewrite Hpc)).
      destruct (acquires s !! a) as [c|] eqn:Hc; [|done].
      unfold token_of in *. by rewrite (Hacq a c Hc) in Hw; rewrite Hc.
    + intros l st _ Hst _. unfold promise_state in *.
      destruct (runs s !! l) as [lc|] eqn:Hl; [|done]. by rewrite (Hold l lc Hl).
  - intros x. rewrite Hx. intros [Hin|Hin]%elem_of_app; [|by apply Hnews].
    eapply reaction_ok_frame; [by apply Hrx|]. intros r call Hcall. eauto.
Qed.

(** A step that moves one activation [r] of [run] on. *)
Lemma run_inv_update s s' r call call' :
  run_inv s -> owns_inv s' ->
  runs s !! r = Some call -> runs s' !! r = Some call' ->
  (forall r', r' <> r -> runs s' !! r' = runs s !! r') ->
  source_of r call' = source_of r call ->
  (forall st, deferred call = Some st -> st <> Pending -> deferred call' = Some st) ->
  (forall x, x ∈ reactions s -> owner x <> Some r -> x ∈ reactions s') ->
  (forall x, x ∈ reactions s' -> x ∈ reactions s \/ reaction_ok s' x) ->
  (forall e, e ∈ trace s -> e ∈ trace s') ->
  (forall a c, acquires s !! a = Some c -> caller c <> Some r ->
               acquires s' !! a = Some c) ->
  run_ok s' r call' ->
  run_inv s'.
Proof.
  intros (Hown & Hruns & Hrx) Hown' Hcall Hcall' Hother Hsrc Hdef Hx Hx' Htr Hacq Hnew.
  split; [done|]. split.
  - intros r' c'. destruct (decide (r' = r)) as [->|Hne].
    { rewrite Hcall'. intros ?. by simplify_eq. }
    rewrite Hother by done. intros Hc'.
    assert (Howned : forall a, acquire_of (run_pc c') = Some a ->
              acquires s' !! a = acquires s !! a).
    { intros a Ha. specialize (Hown r' c' a Hc' Ha).
      destruct (acquires s !! a) as [c|] eqn:Hc; [|done]. simpl in Hown.
      apply Hacq; [done|]. intros Heq. rewrite Heq in Hown. by simplify_eq. }
    eapply run_ok_frame; [by apply Hruns|..].
    + intros x Hin Ho. apply Hx; [done|]. rewrite Ho. intros ?. by simplify_eq.
    + done.
    + intros a [Hpc|Hpc]; apply Howned; by rewrite Hpc.
    + intros a w Hpc Hw. left. unfold token_of in *.
      by rewrite <- (Howned a ltac:(by rewrite Hpc)).
    + intros l st _ Hst Hp. unfold promise_state in *.
      destruct (decide (l = r)) as [->|Hl]; [|by rewrite Hother].
      rewrite Hcall in Hst. rewrite Hcall'. simpl in *. by apply Hdef.
  - intros x Hin. destruct (Hx' x Hin) as [Hold|?]; [|done].
    eapply reaction_ok_frame; [by apply Hrx|]. intros r' c' Hc'.
    destruct (decide (r' = r)) as [->|Hne].
    + exists call'. split; [done|]. rewrite Hcall in Hc'. by simplify_eq.
    + exists c'. by rewrite Hother.
Qed.

Lemma run_inv_call_acquire B request ao s s' :
  run_inv s -> step B (call_acquire request ao) s = Some s' -> run_inv s'.
Proof.
  intros Hinv H. assert (Hown' := owns_step B _ s s' (proj1 Hinv) H).
  simpl in H. simplify_eq. revert Hown'. unfold acquire, _acquire. unfold_M.
  destruct (over_budget B request s); simpl; intros Hown';
    (eapply run_inv_frame; [exact Hinv|exact Hown'|reflexivity|by intros|by intros| |]);
    simpl; try done; try (intros ? ?; by right);
    intros a c Hc _; left; by apply lookup_app_l_Some.
Qed.

Lemma handed_out_inv s a :
  handed_out s a = true ->
  exists w, acquires s !! a
            = Some {| caller := None; acquire_pc := AcquireSettled (Normal (ok_true w)) |}.
Proof.
  unfold handed_out. intros H. repeat (case_match; simplify_eq/=). eauto.
Qed.

Lemma run_inv_call_release B a0 s s' :
  run_inv s -> step B (call_release a0) s = Some s' -> run_inv s'.
Proof.
  intros Hinv H. assert (Hown' := owns_step B _ s s' (proj1 Hinv) H).
  simpl in H. destruct (handed_out s a0) eqn:Hh; [|done]. simplify_eq.
  destruct (handed_out_inv s a0 Hh) as (w & Hw).
  assert (Htok : token_of s a0 = Some w) by (unfold token_of; by rewrite Hw).
  revert Hown'. destruct (released w) eqn:Hr.
  - by rewrite (release_again a0 s w Htok Hr).
  - rewrite (release_first a0 s w Htok Hr). simpl. intros Hown'.
    eapply run_inv_frame; [exact Hinv|exact Hown'|reflexivity|by intros|by intros| |]; simpl.
    + intros ? ?. by right.
    + intros a c Hc Hsome. left. rewrite list_lookup_alter_ne; [done|].
      intros ->. rewrite Hw in Hc. simplify_eq. by destruct Hsome.
Qed.

Lemma run_inv_gate_settles B a0 r s s' :
  run_inv s -> step B (gate_settles a0 r) s = Some s' -> run_inv s'.
Proof.
  intros Hinv H. assert (Hown' := owns_step B _ s s' (proj1 Hinv) H).
  simpl in H. destruct (acquires s !! a0) as [[who [request|?]]|] eqn:Ha0; [|done..].
  simplify_eq. revert Hown'.
  unfold settle_acquire, _acquire_resumed, tryReserveTokens, slot_release. unfold_M.
  intros Hown'.
  eapply run_inv_frame; [exact Hinv|exact Hown'|..];
    repeat (case_match; simplify_eq/=); try done.
  all: try (intros ? ?; by right).
  all: intros a c Hc Hsome; destruct (decide (a = a0)) as [->|Hne];
    [right; rewrite Ha0 in Hc; simplify_eq; exists request; split; [done|];
     unfold token_of; simpl; rewrite list_lookup_alter_eq, Ha0; simpl;
     intros w ?; by simplify_eq
    |left; by rewrite list_lookup_alter_ne].
Qed.

Lemma elem_of_delete_ne {A} (l : list A) (i : nat) (x y : A) :
  x ∈ l -> l !! i = Some y -> x <> y -> x ∈ delete i l.
Proof.
  revert i. induction l as [|z l IH]; intros i Hin Hi Hne; [by inversion Hin|].
  destruct i as [|i]; simpl in *.
  - simplify_eq. apply elem_of_cons in Hin as [?|?]; done.
  - apply elem_of_cons in Hin as [->|Hin]; [by left|]. right. by eapply IH.
Qed.

Lemma token_of_new s s' x w :
  acquires s' = acquires s ++ [x] ->
  token_of s' (length (acquires s)) = Some w ->
  acquire_pc x = AcquireSettled (Normal (ok_true w)).
Proof.
  unfold token_of. intros ->. rewrite list_lookup_middle by done.
  intros H. by repeat (case_match; simplify_eq/=).
Qed.

Lemma run_inv_call_run B request ao s s' :
  run_inv s -> step B (call_run request ao) s = Some s' -> run_inv s'.
Proof.
  intros Hinv H. assert (Hown' := owns_step B _ s s' (proj1 Hinv) H).
  simpl in H. simplify_eq. revert Hown'.
  destruct (joins B request s) as [leader|] eqn:Hj.
  - rewrite (run_joins _ _ _ _ _ Hj). simpl. intros Hown'.
    eapply run_inv_extend with (news := [Adopt (Deferred leader) (Returned (length (runs s)))]);
      [exact Hinv|exact Hown'|reflexivity|reflexivity|done|done| |]; simpl.
    + unfold run_ok. simpl. split; [done|]. split; [done|]. left. split; [done|].
      simpl. apply elem_of_app. right. by left.
    + intros x ->%list_elem_of_singleton. simpl. eexists. split.
      * by apply list_lookup_middle.
      * done.
  - destruct (leads B request s) eqn:Hl.
    + rewrite (run_leads _ _ _ _ Hl). unfold _acquire. unfold_M. simpl.
      destruct (over_budget B request _); simpl; intros Hown';
      (eapply run_inv_extend with (news := [Cleanup (length (runs s)) (dedupKey_of B request)]);
        [exact Hinv|exact Hown'|reflexivity|reflexivity| | | |]); simpl;
      try done; try (intros ? ?; by right);
      try (intros ? ? ?; by apply lookup_app_l_Some);
      try (by intros x ->%list_elem_of_singleton).
      all: unfold run_ok; simpl; split; [done|]; split; [done|]; split; [by right|];
        intros w Hw; eapply token_of_new in Hw; [|simpl; reflexivity]; done.
    + rewrite (run_direct _ _ _ _ Hj Hl). unfold _acquire. unfold_M. simpl.
      destruct (over_budget B request _); simpl; intros Hown';
      (eapply run_inv_extend with (news := []);
        [exact Hinv|exact Hown'|reflexivity|by rewrite app_nil_r| | | |]); simpl;
      try done; try (intros ? ?; by right);
      try (intros ? ? ?; by apply lookup_app_l_Some);
      try (intros x Hx; by inversion Hx).
      all: unfold run_ok; simpl; split; [done|]; split; [done|]; split; [by left|];
        intros w Hw; eapply token_of_new in Hw; [|simpl; reflexivity]; done.
Qed.

(** The side conditions of [run_inv_update] that hold by computation. *)
Ltac update_side Hcall :=
  simpl;
  first
    [ (* the updated record *)
      progress (rewrite ?list_lookup_alter_eq, ?Hcall); simpl; reflexivity
    | (* the other records *)
      let Hne := fresh in
      intros ? Hne; rewrite ?list_lookup_alter_ne by (intros ?; by apply Hne); reflexivity
    | (* the trace grows *)
      intros ? ?; repeat (apply elem_of_cons; right); assumption
    | (* the subscriptions grow *)
      intros ? ? ?; repeat (apply elem_of_app; left); assumption
    | intros ? ? ?; assumption
    | intros ? ? ? ?; assumption
    | idtac ].

(** Callbacks subscribed by the step are the ones [reaction_ok] allows. *)
Ltac new_reactions Hcall :=
  let x := fresh "x" in
  let Hx := fresh "Hx" in
  intros x Hx; simpl in Hx;
  repeat (apply elem_of_app in Hx as [Hx|Hx]); [by left|..];
  right; apply list_elem_of_singleton in Hx as ->; simpl; try done;
  eexists; (split; [rewrite ?list_lookup_alter_eq, ?Hcall; simpl; reflexivity|]).

Lemma run_inv_resume_run B r s s' :
  run_inv s -> step B (resume_run r) s = Some s' -> run_inv s'.
Proof.
  intros Hinv H. assert (Hown' := owns_step B _ s s' (proj1 Hinv) H).
  simpl in H. destruct (runs s !! r) as [call|] eqn:Hcall; [|done].
  destruct (run_pc call) as [|a| |] eqn:Hpc; try done.
  destruct (acquires s !! a) as [[who [?|c]]|] eqn:Ha; try done. simplify_eq.
  pose proof (proj1 (proj2 Hinv) r call Hcall) as Hok.
  unfold run_ok in Hok. rewrite Hpc in Hok. destruct Hok as (Hret & Hwork & Hdef & Htok).
  assert (Hsrc : forall w pc, source_of r {| run_ao := run_ao call; returned := returned call;
             deferred := deferred call; work := w; run_pc := pc |} = source_of r call
             \/ exists l, pc = Joined l).
  { intros w pc. unfold source_of. simpl. rewrite Hpc. destruct pc; eauto. }
  revert Hown'. unfold run_resumed, settle, set_run_pc. unfold_M.
  destruct c as [[w|reason]|e]; simpl.
  - (* admitted: the work function is invoked *)
    assert (Hw : token_of s a = Some w) by (unfold token_of; by rewrite Ha).
    destruct (deferred call) as [d|] eqn:Hd; simpl; intros Hown';
      (eapply run_inv_update with (r := r) (call := call);
        [exact Hinv|exact Hown'|exact Hcall|..]); update_side Hcall.
    all: try (unfold source_of; simpl; rewrite ?Hpc; simpl; by rewrite ?Hd).
    all: try (new_reactions Hcall; unfold source_of; simpl; by rewrite Hd).
    all: unfold run_ok; simpl; rewrite ?Hd; split; [done|]; split; [done|];
      (split; [exists w; split; [exact Hw|by apply Htok]|]).
    + destruct Hdef as [?|[= ->]]; [done|]. split; [done|].
      split; apply elem_of_app; [left; apply elem_of_app|]; right; by left.
    + apply elem_of_app. right. by left.
  - (* rejected: the [catch] *)
    destruct (deferred call) as [d|] eqn:Hd; simpl;
      rewrite ?list_lookup_alter_eq, ?Hcall; simpl; rewrite ?Hd, ?Hret;
      [destruct Hdef as [?|[= ->]]; [done|]; simpl|]; intros Hown';
      (eapply run_inv_update with (r := r) (call := call);
        [exact Hinv|exact Hown'|exact Hcall|..]); update_side Hcall.
    all: try (unfold source_of; simpl; rewrite ?Hpc; simpl; by rewrite ?Hd).
    all: try (intros st; rewrite Hd; by intros [= <-]).
    all: try (intros x Hx; by left).
    all: try (new_reactions Hcall; unfold source_of; by simpl).
    all: unfold run_ok; simpl; rewrite Ha; simpl; rewrite ?Hd; try done.
    all: split; [done|]; split; [done|]; left; split; [done|]; simpl;
      apply elem_of_app; right; by left.
  - (* [_acquire] threw: the [catch] *)
    destruct (deferred call) as [d|] eqn:Hd; simpl;
      rewrite ?list_lookup_alter_eq, ?Hcall; simpl; rewrite ?Hd, ?Hret;
      [destruct Hdef as [?|[= ->]]; [done|]; simpl|]; intros Hown';
      (eapply run_inv_update with (r := r) (call := call);
        [exact Hinv|exact Hown'|exact Hcall|..]); update_side Hcall.
    all: try (unfold source_of; simpl; rewrite ?Hpc; simpl; by rewrite ?Hd).
    all: try (intros st; rewrite Hd; by intros [= <-]).
    all: try (intros x Hx; by left).
    all: try (new_reactions Hcall; unfold source_of; by simpl).
    all: unfold run_ok; simpl; rewrite Ha; simpl; rewrite ?Hd; try done.
    all: split; [done|]; split; [done|]; left; split; [done|]; simpl;
      apply elem_of_app; right; by left.
Qed.

Lemma settle_with_state p c : settle_with p c = settle p (completion_state c).
Proof. by destruct c. Qed.

Lemma completion_state_settled c : completion_state c <> Pending.
Proof. by destruct c. Qed.

(** What the step [fn_settles] does to an activation at [await fn]. *)
Lemma work_resumed_eq r a outcome s call w :
  runs s !! r = Some call -> work call = Some Pending ->
  token_of s a = Some w -> released w = false ->
  work_resumed r a outcome s
  = with_runs
      (alter (fun call => {| run_ao := run_ao call; returned := returned call;
                             deferred := deferred call; work := work call;
                             run_pc := Finished a |}) r
         (alter (fun call => {| run_ao := run_ao call; returned := returned call;
                                deferred := deferred call;
                                work := Some (completion_state
                                                (work_completion (base w) outcome));
                                run_pc := run_pc call |}) r (runs s)))
      (with_inFlightTokens (Z.max 0 (inFlightTokens s - reserved w))
         (with_trace (SlotRelease (base w) :: trace s) (set_released a s))).
Proof.
  intros Hcall Hwork Hw Hr. unfold work_resumed, try_finally, complete.
  rewrite (release_first a s w Hw Hr). unfold work_completion.
  destruct (release_throws (base w)) as [e|], outcome as [v|e']; simpl;
    unfold settle_with, settle, set_run_pc; unfold_M; simpl;
    by rewrite Hcall; simpl; rewrite Hwork.
Qed.

Lemma run_inv_fn_settles B r outcome s s' :
  run_inv s -> step B (fn_settles r outcome) s = Some s' -> run_inv s'.
Proof.
  intros Hinv H. assert (Hown' := owns_step B _ s s' (proj1 Hinv) H).
  simpl in H. destruct (runs s !! r) as [call|] eqn:Hcall; [|done].
  destruct call as [ao ret def wk pc]. destruct pc as [| |a|]; try done. simplify_eq.
  pose proof (proj1 (proj2 Hinv) r _ Hcall) as Hok.
  unfold run_ok in Hok. simpl in Hok.
  destruct Hok as (-> & -> & (w & Hw & Hr) & Hrx).
  pose proof (proj1 Hinv r _ a Hcall eq_refl) as Howner.
  revert Hown'. rewrite (work_resumed_eq r a outcome s _ w Hcall eq_refl Hw Hr).
  intros Hown'.
  eapply run_inv_update with (r := r);
    [exact Hinv|exact Hown'|exact Hcall|..]; update_side Hcall.
  - done.
  - intros x Hx. by left.
  - intros a0 c0 Hc0 Hne. rewrite list_lookup_alter_ne; [done|].
    intros ->. rewrite Hc0 in Howner. simpl in Howner. by simplify_eq.
  - unfold run_ok. simpl. rewrite list_lookup_alter_eq.
    unfold token_of in Hw. destruct (acquires s !! a) as [[who [?|[[w0|?]|?]]]|] eqn:Ha;
      try done. simplify_eq. simpl. split.
    + intros w'. unfold token_of. simpl. rewrite list_lookup_alter_eq, Ha. simpl.
      intros [= <-]. split; [done|]. by left.
    + eexists. split; [done|]. split; [apply completion_state_settled|].
      destruct def as [d|].
      * destruct Hrx as (-> & H1 & H2). split; by left.
      * by left.
Qed.

Lemma follows_settled s s1 dst src src' x x' :
  follows s dst src x -> dst <> Pending -> src' = src -> follows s1 dst src' x'.
Proof. intros [[? _]|[? ?]] Hd ->; [done|by right]. Qed.

Lemma follows_now s dst x : dst <> Pending -> follows s dst (Some dst) x.
Proof. by right. Qed.

Lemma follows_keep s s1 dst src src' x :
  follows s dst src x -> (x ∈ reactions s -> x ∈ reactions s1) ->
  (dst <> Pending -> src' = src) -> follows s1 dst src' x.
Proof.
  intros [[-> Hx]|[Hd Hs]] Hk He; [left; auto|right]. split; [done|]. by rewrite He.
Qed.

(** Settling the promise that [run] returned with the state of its
    source. *)
Lemma run_ok_settle_returned s s1 r call st x :
  run_ok s r call -> runs s !! r = Some call ->
  x = Adopt (source_of r call) (Returned r) ->
  promise_state s (source_of r call) = Some st -> st <> Pending ->
  (forall x', x' ∈ reactions s -> x' <> x -> x' ∈ reactions s1) ->
  acquires s1 = acquires s -> trace s1 = trace s ->
  (forall l, promise_state s1 (Deferred l) = promise_state s (Deferred l)) ->
  run_ok s1 r
    match returned call with
    | Pending => {| run_ao := run_ao call; returned := st; deferred := deferred call;
                    work := work call; run_pc := run_pc call |}
    | _ => call
    end.
Proof.
  intros Hok Hcall -> Hsrc Hst Hkeep Hacq Htr Hdef.
  unfold run_ok, source_of, token_of in *. rewrite ?Hacq, ?Htr, ?Hdef in *.
  destruct (run_pc call) as [l|a|a|a] eqn:Hpc.
  - destruct Hok as (Hd & Hw & Hf).
    destruct (returned call) eqn:Hret; cbn [run_pc returned deferred work]; rewrite ?Hpc, ?Hret, ?Hdef.
    + split; [done|]. split; [done|]. rewrite Hsrc. by apply follows_now.
    + split; [done|]. split; [done|]. eapply follows_settled; [exact Hf|done..].
    + split; [done|]. split; [done|]. eapply follows_settled; [exact Hf|done..].
  - exfalso. destruct Hok as (_ & Hw & Hd & _).
    destruct (deferred call) eqn:Hdc; simpl in Hsrc; rewrite Hcall in Hsrc;
      simpl in Hsrc; [destruct Hd as [?|?]|]; congruence.
  - exfalso. destruct Hok as (_ & Hw & _ & Hd).
    destruct (deferred call) eqn:Hdc; simpl in Hsrc; rewrite Hcall in Hsrc;
      simpl in Hsrc; [destruct Hd as (? & _)|]; congruence.
  - destruct (acquires s !! a) as [[who [?|c]]|] eqn:Ha; try done.
    destruct (admission_error c) as [err|] eqn:Herr.
    + destruct Hok as [Hw Hd].
      destruct (deferred call) as [d|] eqn:Hdc; simpl in Hsrc; rewrite Hcall in Hsrc;
        simpl in Hsrc; rewrite ?Hdc in Hsrc; [|congruence].
      destruct Hd as [-> Hf]. simplify_eq.
      destruct (returned call) eqn:Hret; cbn [run_pc returned deferred work]; rewrite ?Hpc, ?Ha, ?Herr, ?Hdc, ?Hret; cbn [run_pc returned deferred work];
        (split; [done|]; split; [done|]).
      * by apply follows_now.
      * eapply follows_settled; [exact Hf|done..].
      * eapply follows_settled; [exact Hf|done..].
    + destruct Hok as [Htok (v & Hw & Hv & Hd)].
      destruct (deferred call) as [d|] eqn:Hdc; simpl in Hsrc; rewrite Hcall in Hsrc;
        simpl in Hsrc; rewrite ?Hdc in Hsrc; simplify_eq.
      * destruct Hd as [H1 H2].
        assert (H1' : follows s1 st (Some v) (Adopt (Work r) (Deferred r)))
          by (eapply follows_settled; [exact H1|done..]).
        destruct (returned call) eqn:Hret; cbn [run_pc returned deferred work]; rewrite ?Hpc, ?Ha, ?Herr, ?Hdc, ?Hret; cbn [run_pc returned deferred work];
          (split; [done|]; eexists; split; [done|]; split; [done|]; split; [done|]).
        -- by apply follows_now.
        -- eapply follows_settled; [exact H2|done..].
        -- eapply follows_settled; [exact H2|done..].
      * destruct (returned call) eqn:Hret; cbn [run_pc returned deferred work]; rewrite ?Hpc, ?Ha, ?Herr, ?Hdc, ?Hret; cbn [run_pc returned deferred work];
          (split; [done|]; eexists; split; [done|]; split; [done|]).
        -- by apply follows_now.
        -- eapply follows_settled; [exact Hd|done..].
        -- eapply follows_settled; [exact Hd|done..].
Qed.

(** Settling [deferred.promise] with the state of [work]. *)
Lemma run_ok_settle_deferred s s1 r call st :
  run_ok s r call -> runs s !! r = Some call ->
  promise_state s (Work r) = Some st -> st <> Pending ->
  (forall x', x' ∈ reactions s -> x' <> Adopt (Work r) (Deferred r) ->
              x' ∈ reactions s1) ->
  acquires s1 = acquires s -> trace s1 = trace s ->
  run_ok s1 r
    match deferred call with
    | Some Pending => {| run_ao := run_ao call; returned := returned call;
                         deferred := Some st; work := work call;
                         run_pc := run_pc call |}
    | _ => call
    end.
Proof.
  intros Hok Hcall Hsrc Hst Hkeep Hacq Htr.
  simpl in Hsrc. rewrite Hcall in Hsrc. simpl in Hsrc.
  unfold run_ok, token_of in *. rewrite ?Hacq, ?Htr in *.
  destruct (run_pc call) as [l|a|a|a] eqn:Hpc.
  - destruct Hok as (_ & Hw & _). congruence.
  - destruct Hok as (_ & Hw & _). congruence.
  - destruct Hok as (_ & Hw & _). congruence.
  - destruct (acquires s !! a) as [[who [?|c]]|] eqn:Ha; try done.
    destruct (admission_error c) as [err|] eqn:Herr.
    { destruct Hok as [Hw _]. congruence. }
    destruct Hok as [Htok (v & Hw & Hv & Hd)]. simplify_eq.
    destruct (deferred call) as [[|v'|e']|] eqn:Hdc;
      cbn [run_pc returned deferred work]; rewrite ?Hpc, ?Ha, ?Herr, ?Hdc;
      cbn [run_pc returned deferred work];
      (split; [done|]; eexists; split; [done|]; split; [done|]).
    + destruct Hd as [H1 H2]. split; [by apply follows_now|].
      destruct H2 as [[Hret Hx2]|[? ?]]; [|congruence].
      left. split; [done|]. by apply Hkeep.
    + destruct Hd as [H1 H2]. split.
      * eapply follows_settled; [exact H1|done..].
      * eapply follows_keep; [exact H2| |done]. intros ?. by apply Hkeep.
    + destruct Hd as [H1 H2]. split.
      * eapply follows_settled; [exact H1|done..].
      * eapply follows_keep; [exact H2| |done]. intros ?. by apply Hkeep.
    + eapply follows_keep; [exact Hd| |done]. intros ?. by apply Hkeep.
Qed.

Lemma promise_state_set_returned (l r : nat) f (rs : list RunCall) :
  (forall c, deferred (f c) = deferred c) ->
  alter f r rs !! l ≫= deferred = rs !! l ≫= deferred.
Proof.
  intros Hf. rewrite list_lookup_alter. case_decide; [subst|done].
  destruct (rs !! l); simpl; [apply Hf|done].
Qed.

Lemma run_inv_react B i s s' :
  run_inv s -> step B (react i) s = Some s' -> run_inv s'.
Proof.
  intros Hinv H. assert (Hown' := owns_step B _ s s' (proj1 Hinv) H).
  simpl in H. destruct (reactions s !! i) as [x|] eqn:Hx; [|done].
  assert (Hin : x ∈ reactions s) by (eapply list_elem_of_lookup_2; eauto).
  assert (Hkeep : forall x', x' ∈ reactions s -> x' <> x ->
                             x' ∈ delete i (reactions s))
    by (intros x' ? ?; by eapply elem_of_delete_ne).
  assert (Hsub : forall x', x' ∈ delete i (reactions s) -> x' ∈ reactions s)
    by (intros x'; apply list_elem_of_delete_inv).
  pose proof (proj2 (proj2 Hinv) x Hin) as Hrx.
  destruct x as [src dst|leader key]; simpl in H.
  - (* a promise adopts the state of another *)
    assert (Hst : exists st, promise_state s src = Some st /\ st <> Pending /\
              s' = snd (settle dst st (with_reactions (delete i (reactions s)) s))).
    { destruct src; simpl in H |- *; repeat (case_match; simplify_eq/=); eauto. }
    clear H. destruct Hst as (st & Hsrc & Hst & ->). revert Hown'.
    destruct dst as [r|r|r]; simpl in Hrx; [| |done].
    + (* the promise [run] returned *)
      destruct Hrx as (call & Hcall & ->).
      pose proof (proj1 (proj2 Hinv) r call Hcall) as Hok.
      pose proof (run_ok_settle_returned s
        (snd (settle (Returned r) st (with_reactions (delete i (reactions s)) s)))
        r call st _ Hok Hcall eq_refl Hsrc Hst) as Hnew.
      revert Hnew. unfold settle. unfold_M. simpl. rewrite Hcall. simpl.
      destruct (returned call) eqn:Hret; intros Hnew Hown';
        (eapply run_inv_update with (r := r) (call := call);
          [exact Hinv|exact Hown'|exact Hcall|..]); update_side Hcall.
      all: try (unfold source_of; by simpl).
      all: try (intros x' Hx' Ho; apply Hkeep; [done|]; intros ->; by simpl in Ho).
      all: try (intros x' Hx'; left; by apply Hsub).
      all: try exact Hcall.
      all: apply Hnew; simpl; try done.
      all: intros l; unfold promise_state; simpl;
        by apply promise_state_set_returned.
    + (* [deferred.promise] *)
      subst src.
      assert (Hcall : exists call, runs s !! r = Some call).
      { simpl in Hsrc. destruct (runs s !! r); [eauto|done]. }
      destruct Hcall as (call & Hcall).
      pose proof (proj1 (proj2 Hinv) r call Hcall) as Hok.
      pose proof (run_ok_settle_deferred s
        (snd (settle (Deferred r) st (with_reactions (delete i (reactions s)) s)))
        r call st Hok Hcall Hsrc Hst) as Hnew.
      revert Hnew. unfold settle. unfold_M. simpl. rewrite Hcall. simpl.
      destruct (deferred call) as [[|v'|e']|] eqn:Hdc; simpl; intros Hnew Hown';
        (eapply run_inv_update with (r := r) (call := call);
          [exact Hinv|exact Hown'|exact Hcall|..]); update_side Hcall.
      all: try (unfold source_of; simpl; by rewrite Hdc).
      all: try (intros st0; rewrite Hdc; by intros [= <-]).
      all: try (intros x' Hx' Ho; apply Hkeep; [done|]; intros ->; by simpl in Ho).
      all: try (intros x' Hx'; left; by apply Hsub).
      all: try exact Hcall.
      all: apply Hnew; simpl; done.
  - (* the registry entry is cleaned up *)
    destruct (is_settled _); [|done]. simplify_eq. revert Hown'.
    unfold cleanup. unfold_M. simpl.
    destruct (decide _); simpl; intros Hown';
      (eapply run_inv_frame; [exact Hinv|exact Hown'|reflexivity|..]); simpl;
      try done; try (intros ? ?; by right);
      try (intros x' Hx' [r' Ho]; apply Hkeep; [done|]; by intros ->);
      intros a c Hc _; by left.
Qed.

(** The invariants of the run wrapper hold in every reachable state. *)
Lemma run_inv_step B l s s' : run_inv s -> step B l s = Some s' -> run_inv s'.
Proof.
  destruct l; eauto using run_inv_call_acquire, run_inv_call_run,
    run_inv_call_release, run_inv_gate_settles, run_inv_resume_run,
    run_inv_fn_settles, run_inv_react.
Qed.

Lemma run_inv_initial : run_inv initial_state.
Proof.
  split; [|split].
  - intros r call a Hr. by destruct r.
  - intros r call Hr. by destruct r.
  - intros x Hx. by inversion Hx.
Qed.

Lemma run_inv_reachable B s : reachable B s -> run_inv s.
Proof.
  apply reachable_invariant; [apply run_inv_initial|].
  intros l s0 s1. apply run_inv_step.
Qed.

(** ** Delivery of results through the promises *)

Lemma promise_state_set_same s p st :
  promise_state s p = Some Pending ->
  promise_state (set_promise p st s) p = Some st.
Proof.
  destruct p as [r|r|r]; simpl; rewrite list_lookup_alter_eq;
    destruct (runs s !! r); simpl; done.
Qed.

Lemma promise_state_set_other s p q st :
  p <> q -> promise_state (set_promise p st s) q = promise_state s q.
Proof.
  intros Hne.
  destruct p as [r|r|r], q as [r'|r'|r']; simpl;
    (destruct (decide (r = r')) as [->|Hr];
     [rewrite list_lookup_alter_eq; destruct (runs s !! r'); simpl; congruence
     |by rewrite list_lookup_alter_ne]).
Qed.

(** A subscribed [Adopt] whose source has settled and whose target is
    pending can run, and hands the state over. *)
Lemma adopt_delivers B s src dst st :
  Adopt src dst ∈ reactions s ->
  promise_state s src = Some st -> st <> Pending ->
  promise_state s dst = Some Pending ->
  exists i s',
    step B (react i) s = Some s' /\
    promise_state s' dst = Some st /\
    (forall p, p <> dst -> promise_state s' p = promise_state s p) /\
    (forall x, x ∈ reactions s -> x <> Adopt src dst -> x ∈ reactions s') /\
    inFlightTokens s' = inFlightTokens s /\ trace s' = trace s /\
    acquires s' = acquires s /\ dedupMap s' = dedupMap s /\
    dedupHits s' = dedupHits s.
Proof.
  intros Hin Hsrc Hst Hdst.
  apply list_elem_of_lookup in Hin as (i & Hi).
  exists i, (set_promise dst st (with_reactions (delete i (reactions s)) s)).
  assert (Hsrc' : promise_state (with_reactions (delete i (reactions s)) s) src = Some st)
    by (by destruct src).
  assert (Hdst' : promise_state (with_reactions (delete i (reactions s)) s) dst
                  = Some Pending) by (by destruct dst).
  split.
  - simpl. rewrite Hi. simpl. rewrite Hsrc'. unfold settle. unfold_M. simpl.
    rewrite Hdst'. by destruct st.
  - split; [by apply promise_state_set_same|].
    split. { intros p Hp. rewrite promise_state_set_other by done. by destruct p. }
    autorewrite with frame. simpl. split; [|done].
    intros x Hx Hne. by eapply elem_of_delete_ne.
Qed.

Lemma exec_cons B l ls s s1 s2 :
  step B l s = Some s1 -> exec B ls s1 = Some s2 -> exec B (l :: ls) s = Some s2.
Proof. intros H1 H2. simpl. by rewrite H1. Qed.

Lemma exec_one B l s s1 : step B l s = Some s1 -> exec B [l] s = Some s1.
Proof. intros H1. simpl. by rewrite H1. Qed.

(** When admission fails, the continuation of [run] rejects the promise
    it returned with the error of the [catch], calls neither the gate nor
    the work function and leaves the ledger alone. *)
Lemma rejection_delivered B s r call a who c err :
  run_inv s -> runs s !! r = Some call -> run_pc call = AwaitingAcquire a ->
  acquires s !! a = Some {| caller := who; acquire_pc := AcquireSettled c |} ->
  admission_error c = Some err ->
  exists ls s',
    exec B (resume_run r :: ls) s = Some s' /\
    promise_state s' (Returned r) = Some (Rejected err) /\
    inFlightTokens s' = inFlightTokens s /\ trace s' = trace s /\
    acquires s' = acquires s /\ dedupMap s' = dedupMap s.
Proof.
  intros Hinv Hcall Hpc Ha Herr.
  pose proof (proj1 (proj2 Hinv) r call Hcall) as Hok.
  unfold run_ok in Hok. rewrite Hpc in Hok. destruct Hok as (Hret & Hwork & Hdef & _).
  assert (Hstep : step B (resume_run r) s = Some (snd (run_resumed r call a c s))).
  { simpl. by rewrite Hcall, Hpc, Ha. }
  assert (Hbody : run_resumed r call a c s
    = (Normal tt,
       match deferred call with
       | Some _ =>
           with_reactions (reactions s ++ [Adopt (Deferred r) (Returned r)])
             (set_promise (Deferred r) (Rejected err)
                (snd (set_run_pc r (Finished a) s)))
       | None => set_promise (Returned r) (Rejected err)
                   (snd (set_run_pc r (Finished a) s))
       end)).
  { unfold run_resumed, settle, set_run_pc. unfold_M.
    destruct c as [[w|reason]|e]; simpl in Herr; simplify_eq; simpl;
      (destruct Hdef as [Hd|Hd]; rewrite Hd; simpl;
       rewrite list_lookup_alter_eq, Hcall; simpl; rewrite ?Hd, ?Hret; done). }
  rewrite Hbody in Hstep. simpl in Hstep.
  destruct Hdef as [Hd|Hd]; rewrite Hd in Hstep.
  - exists [], (set_promise (Returned r) (Rejected err)
                  (snd (set_run_pc r (Finished a) s))).
    split; [by apply exec_one|]. split.
    + simpl. rewrite !list_lookup_alter_eq, Hcall. done.
    + by autorewrite with frame.
  - set (s1 := with_reactions (reactions s ++ [Adopt (Deferred r) (Returned r)])
                 (set_promise (Deferred r) (Rejected err)
                    (snd (set_run_pc r (Finished a) s)))) in *.
    destruct (adopt_delivers B s1 (Deferred r) (Returned r) (Rejected err))
      as (i & s2 & Hreact & Hres & _ & _ & Hift & Htr & Hacq & Hmap & _).
    + simpl. apply elem_of_app. right. by left.
    + simpl. rewrite !list_lookup_alter_eq, Hcall. done.
    + done.
    + simpl. rewrite !list_lookup_alter_eq, Hcall. simpl. by rewrite Hret.
    + exists [react i], s2. split; [eapply exec_cons; [exact Hstep|by apply exec_one]|].
      split; [done|]. rewrite Hift, Htr, Hacq, Hmap. unfold s1.
      by autorewrite with frame.
Qed.

(** When the work function settles, the [finally] of [work] releases the
    slot and the reservation first; the promise [run] returned is still
    pending then, and takes what [work] completed with afterwards. *)
Lemma work_delivered B s r call a :
  run_inv s -> runs s !! r = Some call -> run_pc call = AwaitingFn a ->
  exists w,
    token_of s a = Some w /\ released w = false /\ returned call = Pending /\
    forall outcome, exists s1,
      step B (fn_settles r outcome) s = Some s1 /\
      trace s1 = SlotRelease (base w) :: trace s /\
      inFlightTokens s1 = Z.max 0 (inFlightTokens s - reserved w) /\
      token_of s1 a
        = Some {| base := base w; reserved := reserved w; released := true |} /\
      promise_state s1 (Returned r) = Some Pending /\
      exists ls s2,
        exec B ls s1 = Some s2 /\
        promise_state s2 (Returned r)
          = Some (completion_state (work_completion (base w) outcome)) /\
        trace s2 = trace s1 /\ inFlightTokens s2 = inFlightTokens s1.
Proof.
  intros Hinv Hcall Hpc.
  pose proof (proj1 (proj2 Hinv) r call Hcall) as Hok.
  unfold run_ok in Hok. rewrite Hpc in Hok.
  destruct Hok as (Hret & Hwork & (w & Hw & Hr) & Hrx).
  exists w. split; [done|]. split; [done|]. split; [done|]. intros outcome.
  set (v := completion_state (work_completion (base w) outcome)).
  assert (Hv : v <> Pending) by apply completion_state_settled.
  pose proof (work_resumed_eq r a outcome s call w Hcall Hwork Hw Hr) as Heq.
  fold v in Heq. set (s1 := work_resumed r a outcome s) in *.
  assert (Hstep : step B (fn_settles r outcome) s = Some s1).
  { simpl. rewrite Hcall. destruct call. simpl in Hpc. by subst. }
  assert (Hrs : reactions s1 = reactions s) by (by rewrite Heq).
  assert (Hp1 : promise_state s1 (Returned r) = Some Pending).
  { rewrite Heq. simpl. rewrite !list_lookup_alter_eq, Hcall. simpl. by rewrite Hret. }
  assert (Hp2 : promise_state s1 (Work r) = Some v).
  { rewrite Heq. simpl. rewrite !list_lookup_alter_eq, Hcall. done. }
  assert (Hp3 : promise_state s1 (Deferred r) = deferred call).
  { rewrite Heq. simpl. rewrite !list_lookup_alter_eq, Hcall. done. }
  exists s1. split; [done|]. split; [by rewrite Heq|]. split; [by rewrite Heq|].
  split.
  { rewrite Heq. erewrite token_of_frame by reflexivity. by apply token_of_set_released. }
  split; [done|].
  destruct (deferred call) as [d|] eqn:Hd.
  - destruct Hrx as (-> & Hx1 & Hx2).
    destruct (adopt_delivers B s1 (Work r) (Deferred r) v)
      as (i & s2 & Hreact & Hres & Hothers & Hkeep & Hift & Htr & _);
      [by rewrite Hrs|done..|].
    destruct (adopt_delivers B s2 (Deferred r) (Returned r) v)
      as (j & s3 & Hreact' & Hres' & _ & _ & Hift' & Htr' & _).
    + apply Hkeep; [by rewrite Hrs|done].
    + done.
    + done.
    + by rewrite Hothers.
    + exists [react i; react j], s3.
      split; [eapply exec_cons; [exact Hreact|by apply exec_one]|].
      split; [done|]. by rewrite Hift', Htr', Hift, Htr.
  - destruct (adopt_delivers B s1 (Work r) (Returned r) v)
      as (i & s2 & Hreact & Hres & _ & _ & Hift & Htr & _);
      [by rewrite Hrs|done..|].
    exists [react i], s2. split; [by apply exec_one|]. by rewrite Hift, Htr.
Qed.

(** A promise returned by [run] that has settled holds the error of the
    failed admission, or what [work] completed with after the release, or
    what the leader's [deferred.promise] holds. *)
Lemma settled_is_due s r call :
  run_inv s -> runs s !! r = Some call -> returned call <> Pending ->
  settled_as_due s r call.
Proof.
  intros Hinv Hcall Hret.
  pose proof (proj1 (proj2 Hinv) r call Hcall) as Hok.
  unfold run_ok, settled_as_due in *.
  destruct (run_pc call) as [l|a|a|a].
  - destruct Hok as (_ & _ & [[? _]|[_ ?]]); done.
  - by destruct Hok as (? & _).
  - by destruct Hok as (? & _).
  - destruct (acquires s !! a) as [[who [?|c]]|] eqn:Ha; try done.
    exists who, c. split; [done|].
    destruct (admission_error c) as [err|].
    + destruct Hok as [_ Hd]. destruct (deferred call) as [d|]; [|done].
      destruct Hd as [-> [[? _]|[_ ?]]]; [done|congruence].
    + destruct Hok as [Htok (v & Hw & Hv & Hd)]. split; [|done].
      destruct (deferred call) as [d|].
      * destruct Hd as [H1 [[? _]|[_ H2]]]; [done|]. simplify_eq.
        destruct H1 as [[? _]|[_ ?]]; [done|congruence].
      * destruct Hd as [[? _]|[_ ?]]; [done|congruence].
Qed.

(** C5, as stated, fails where it calls an admission rejection
    distinguishable by its code from any error of the work function: the
    work function may itself throw an [LLMBulkheadRejectedError] (the
    class is exported, and a nested bulkhead produces one); [run] hands
    it on unchanged, and its caller sees the same rejection, code and
    reason, as after a timeout at the gate. *)
Lemma fn_error_may_carry_the_rejection_code :
  promise_after plain_bulkhead
    [call_run hello_request no_acquire_options;
     gate_settles 0%nat (granted (slot 0));
     resume_run 0%nat;
     fn_settles 0%nat (Throw (LLMBulkheadRejectedError timeout));
     react 0%nat] (Returned 0%nat)
  = Some (Rejected (LLMBulkheadRejectedError timeout)) /\
  promise_after plain_bulkhead
    [call_run hello_request no_acquire_options;
     gate_settles 0%nat (refused timeout);
     resume_run 0%nat] (Returned 0%nat)
  = Some (Rejected (LLMBulkheadRejectedError timeout)) /\
  error_code (LLMBulkheadRejectedError timeout) = Some LLM_BULKHEAD_REJECTED.
Proof. repeat split; vm_compute; reflexivity. Qed.

(** C5, amended: for an activation of [run] in a reachable state.
    - If admission was rejected with a reason, the continuation rejects
      the returned promise with an [LLMBulkheadRejectedError] whose
      [code] is [LLM_BULKHEAD_REJECTED] and whose [reason] is that
      reason, without calling the gate or the work function again; it
      differs from every error of the work function that does not carry
      that code.
    - If admission succeeded, the promise is pending until the work
      function settles; the step that takes its outcome first calls the
      base token's [release()] and takes [reserved] off [inFlightTokens],
      leaves the returned promise pending, and the promise then takes
      the outcome of the work function, value or error, unchanged (the
      base token's [release()] returning normally, as the gate's does).
    - A returned promise that has settled is that of an activation whose
      token, if it acquired one, is released. *)
Theorem run_outcomes B s r call :
  reachable B s -> runs s !! r = Some call ->
  (forall a who reason, run_pc call = AwaitingAcquire a ->
     acquires s !! a
       = Some {| caller := who;
                 acquire_pc := AcquireSettled (Normal (ok_false reason)) |} ->
     exists ls s',
       exec B (resume_run r :: ls) s = Some s' /\
       promise_state s' (Returned r)
         = Some (Rejected (LLMBulkheadRejectedError reason)) /\
       error_code (LLMBulkheadRejectedError reason) = Some LLM_BULKHEAD_REJECTED /\
       error_reason (LLMBulkheadRejectedError reason) = Some reason /\
       trace s' = trace s /\ inFlightTokens s' = inFlightTokens s) /\
  (forall e reason, error_code e <> Some LLM_BULKHEAD_REJECTED ->
     e <> LLMBulkheadRejectedError reason) /\
  (forall a, run_pc call = AwaitingFn a ->
     exists w,
       token_of s a = Some w /\ released w = false /\ returned call = Pending /\
       forall outcome, exists s1,
         step B (fn_settles r outcome) s = Some s1 /\
         trace s1 = SlotRelease (base w) :: trace s /\
         inFlightTokens s1 = Z.max 0 (inFlightTokens s - reserved w) /\
         token_of s1 a
           = Some {| base := base w; reserved := reserved w; released := true |} /\
         promise_state s1 (Returned r) = Some Pending /\
         exists ls s2,
           exec B ls s1 = Some s2 /\
           promise_state s2 (Returned r)
             = Some (completion_state (work_completion (base w) outcome)) /\
           (release_throws (base w) = None ->
              promise_state s2 (Returned r) = Some (completion_state outcome)) /\
           trace s2 = trace s1 /\ inFlightTokens s2 = inFlightTokens s1) /\
  (returned call <> Pending -> settled_as_due s r call).
Proof.
  intros Hs Hcall. pose proof (run_inv_reachable B s Hs) as Hinv.
  split; [|split; [|split]].
  - intros a who reason Hpc Ha.
    destruct (rejection_delivered B s r call a who _ _ Hinv Hcall Hpc Ha eq_refl)
      as (ls & s' & Hex & Hres & Hift & Htr & _).
    exists ls, s'. by repeat split.
  - intros e reason He ->. by apply He.
  - intros a Hpc.
    destruct (work_delivered B s r call a Hinv Hcall Hpc) as (w & Hw & Hr & Hret & Hall).
    exists w. split; [done|]. split; [done|]. split; [done|]. intros outcome.
    destruct (Hall outcome) as (s1 & Hstep & Htr & Hift & Htok & Hp & ls & s2 & Hex & Hres & Htr' & Hift').
    exists s1. split; [done|]. split; [done|]. split; [done|]. split; [done|].
    split; [done|]. exists ls, s2. split; [done|]. split; [done|].
    split; [|done]. intros Hnormal. rewrite Hres. unfold work_completion.
    by rewrite Hnormal.
  - by apply settled_is_due.
Qed.

Lemma reachable_by B ls s :
  exec B ls initial_state = Some s -> reachable B s.
Proof. intros H. by exists ls. Qed.

Lemma run_outcomes_witness :
  reachable plain_bulkhead fn_running /\
  exists w,
    token_of fn_running 0%nat = Some w /\ released w = false /\
    returned {| run_ao := no_acquire_options; returned := Pending; deferred := None;
                work := Some Pending; run_pc := AwaitingFn 0%nat |} = Pending /\
    forall outcome, exists s1,
      step plain_bulkhead (fn_settles 0%nat outcome) fn_running = Some s1 /\
      trace s1 = SlotRelease (base w) :: trace fn_running /\
      inFlightTokens s1 = Z.max 0 (inFlightTokens fn_running - reserved w) /\
      token_of s1 0%nat
        = Some {| base := base w; reserved := reserved w; released := true |} /\
      promise_state s1 (Returned 0%nat) = Some Pending /\
      exists ls s2,
        exec plain_bulkhead ls s1 = Some s2 /\
        promise_state s2 (Returned 0%nat)
          = Some (completion_state (work_completion (base w) outcome)) /\
        (release_throws (base w) = None ->
           promise_state s2 (Returned 0%nat) = Some (completion_state outcome)) /\
        trace s2 = trace s1 /\ inFlightTokens s2 = inFlightTokens s1.
Proof.
  assert (Hr : reachable plain_bulkhead fn_running).
  { apply (reachable_by plain_bulkhead
             [call_run hello_request no_acquire_options;
              gate_settles 0%nat (granted (slot 0)); resume_run 0%nat]).
    vm_compute. reflexivity. }
  split; [exact Hr|].
  exact (proj1 (proj2 (proj2 (run_outcomes plain_bulkhead fn_running 0%nat
    {| run_ao := no_acquire_options; returned := Pending; deferred := None;
       work := Some Pending; run_pc := AwaitingFn 0%nat |}
    Hr ltac:(vm_compute; reflexivity)))) 0%nat eq_refl).
Defined.

(** ** The check-and-reserve after the grant *)

(** The segment of [_acquire] after the [await] when the gate granted a
    slot and the reservation fails. *)
Lemma acquire_resumed_over_budget B b request token s :
  budget_of B = Some b ->
  inFlightTokens s + (input (estimator B request) + maxOutput (estimator B request))
    > budget b ->
  _acquire_resumed B request (granted token) s
  = (match release_throws token with
     | None => Normal (ok_false budget_limit)
     | Some e => Throw e
     end,
     with_trace (SlotRelease token :: trace s) s).
Proof.
  intros Hb Hover. unfold _acquire_resumed, tryReserveTokens, slot_release.
  rewrite Hb. unfold_M.
  replace (_ >? _) with true by (symmetry; apply Z.gtb_lt; lia).
  by destruct (release_throws token).
Qed.

(** The error that reaches the caller of [_acquire] when the
    reservation after the grant fails: the budget rejection, unless the
    slot token's own [release()] threw. *)
Lemma acquire_resumed_error token :
  admission_error
    (match release_throws token with
     | None => Normal (ok_false budget_limit)
     | Some e => Throw e
     end)
  = Some (match release_throws token with
          | None => LLMBulkheadRejectedError budget_limit
          | Some e => e
          end).
Proof. by destruct (release_throws token). Qed.

(** C3: a call of [acquire] or [run] waits for the gate; the gate grants
    a slot, but by now the in-flight tokens plus the estimated cost of
    the request exceed the budget.  Then the code calls [release()] on
    the slot token it was just granted, exactly once and as the only
    call it makes, leaves [inFlightTokens] as it was and keeps no
    wrapped token for the call; the slot release having returned, the
    call completes with [{ ok: false, reason: 'budget_limit' }] (what a
    throwing slot release throws would reach the caller instead).  If
    the call was made by [run], the promise that [run] returned is then
    rejected with an [LLMBulkheadRejectedError] of reason
    ['budget_limit'], the work function is not invoked, and the ledger
    is still unchanged. *)
Theorem post_grant_budget_rejection B s a who request b token :
  reachable B s ->
  budget_of B = Some b ->
  acquires s !! a = Some {| caller := who; acquire_pc := AwaitingGate request |} ->
  inFlightTokens s + (input (estimator B request) + maxOutput (estimator B request))
    > budget b ->
  exists s1,
    step B (gate_settles a (granted token)) s = Some s1 /\
    acquires s1 !! a
      = Some {| caller := who;
                acquire_pc := AcquireSettled
                  (match release_throws token with
                   | None => Normal (ok_false budget_limit)
                   | Some e => Throw e
                   end) |} /\
    trace s1 = SlotRelease token :: trace s /\
    inFlightTokens s1 = inFlightTokens s /\
    token_of s1 a = None /\
    handed_out s1 a = false /\
    forall r call,
      runs s1 !! r = Some call -> run_pc call = AwaitingAcquire a ->
      exists ls s2,
        exec B (resume_run r :: ls) s1 = Some s2 /\
        promise_state s2 (Returned r)
          = Some (Rejected (match release_throws token with
                            | None => LLMBulkheadRejectedError budget_limit
                            | Some e => e
                            end)) /\
        inFlightTokens s2 = inFlightTokens s /\
        trace s2 = SlotRelease token :: trace s.
Proof.
  intros Hr Hb Ha Hover.
  set (c := match release_throws token with
            | None => Normal (ok_false budget_limit)
            | Some e => Throw e
            end).
  assert (Hstep : step B (gate_settles a (granted token)) s
    = Some (with_acquires (alter (fun call =>
        {| caller := caller call; acquire_pc := AcquireSettled c |}) a (acquires s))
        (with_trace (SlotRelease token :: trace s) s))).
  { unfold step. rewrite Ha. unfold settle_acquire.
    by rewrite (acquire_resumed_over_budget B b request token s Hb Hover). }
  eexists. split; [exact Hstep|].
  assert (Hlook : alter (fun call =>
        {| caller := caller call; acquire_pc := AcquireSettled c |}) a (acquires s) !! a
      = Some {| caller := who; acquire_pc := AcquireSettled c |}).
  { by rewrite list_lookup_alter_eq, Ha. }
  split; [exact Hlook|]. split; [done|]. split; [done|].
  split; [unfold token_of; simpl; rewrite Hlook; subst c;
          by destruct (release_throws token)|].
  split; [unfold handed_out; simpl; rewrite Hlook; subst c;
          by destruct who, (release_throws token)|].
  intros r call Hcall Hpc.
  pose proof (run_inv_reachable B _ (reachable_step B _ _ _ Hr Hstep)) as Hinv.
  destruct (rejection_delivered B _ r call a who c _ Hinv Hcall Hpc Hlook
              (acquire_resumed_error token))
    as (ls & s2 & Hexec & Hres & Hift & Htr & _).
  exists ls, s2. split; [exact Hexec|]. split; [exact Hres|]. split; [exact Hift|exact Htr].
Qed.

Lemma post_grant_budget_rejection_witness :
  inFlightTokens (second_waits one_request_bulkhead) = 100 /\
  exists s1,
    step one_request_bulkhead (gate_settles 1%nat (granted (slot 1)))
      (second_waits one_request_bulkhead) = Some s1 /\
    acquires s1 !! 1%nat
      = Some {| caller := Some 1%nat;
                acquire_pc := AcquireSettled (Normal (ok_false budget_limit)) |} /\
    trace s1 = SlotRelease (slot 1) :: trace (second_waits one_request_bulkhead) /\
    inFlightTokens s1 = inFlightTokens (second_waits one_request_bulkhead) /\
    token_of s1 1%nat = None /\
    handed_out s1 1%nat = false /\
    forall r call,
      runs s1 !! r = Some call -> run_pc call = AwaitingAcquire 1%nat ->
      exists ls s2,
        exec one_request_bulkhead (resume_run r :: ls) s1 = Some s2 /\
        promise_state s2 (Returned r)
          = Some (Rejected (LLMBulkheadRejectedError budget_limit)) /\
        inFlightTokens s2 = inFlightTokens (second_waits one_request_bulkhead) /\
        trace s2 = SlotRelease (slot 1) :: trace (second_waits one_request_bulkhead).
Proof.
  split; [vm_compute; reflexivity|].
  apply (post_grant_budget_rejection one_request_bulkhead
           (second_waits one_request_bulkhead) 1%nat (Some 1%nat) hello_request
           {| budget := 150; budget_estimator := Some (constant_estimator 50 50);
              outputCap := None |} (slot 1)).
  - apply (reachable_by one_request_bulkhead
             [call_run hello_request no_acquire_options;
              call_run hello_request no_acquire_options;
              gate_settles 0%nat (granted (slot 0))]).
    vm_compute. reflexivity.
  - reflexivity.
  - vm_compute. reflexivity.
  - vm_compute. reflexivity.
Defined.

(** ** The budget pre-check *)

Lemma over_budget_true B b request s :
  budget_of B = Some b ->
  inFlightTokens s + (input (estimator B request) + maxOutput (estimator B request))
    > budget b ->
  over_budget B request s = true.
Proof. unfold over_budget. intros -> H. apply Z.gtb_lt. lia. Qed.

(** [_acquire] when the pre-check fails: it returns at once. *)
Lemma acquire_over_budget B request ao who s :
  over_budget B request s = true ->
  _acquire B request ao who s
  = (Normal (length (acquires s)),
     with_acquires (acquires s ++
       [ {| caller := who;
            acquire_pc := AcquireSettled (Normal (ok_false budget_limit)) |} ]) s).
Proof. unfold _acquire. unfold_M. by intros ->. Qed.

(** C2, as stated, fails for a follower: with deduplication on, a call
    of [run] whose key has an entry in the registry returns the entry's
    promise before the budget is looked at.  Here the leader holds the
    whole budget, the estimate of the second request exceeds what is
    left, and the second call is not rejected: its promise is pending
    when [run] returns and is later fulfilled with the leader's result. *)
Lemma follower_skips_the_budget_pre_check :
  budget <$> budget_of tight_dedup_bulkhead = Some 100 /\
  inFlightTokens leader_admitted = 100 /\
  input (estimator tight_dedup_bulkhead hello_request)
    + maxOutput (estimator tight_dedup_bulkhead hello_request) = 100 /\
  over_budget tight_dedup_bulkhead hello_request leader_admitted = true /\
  promise_after tight_dedup_bulkhead
    [call_run hello_request no_acquire_options;
     gate_settles 0%nat (granted (slot 0));
     call_run hello_request no_acquire_options] (Returned 1%nat) = Some Pending /\
  promise_after tight_dedup_bulkhead
    [call_run hello_request no_acquire_options;
     gate_settles 0%nat (granted (slot 0));
     call_run hello_request no_acquire_options;
     resume_run 0%nat;
     fn_settles 0%nat (Normal 7%nat);
     react 2%nat; react 1%nat] (Returned 1%nat) = Some (Fulfilled 7%nat).
Proof. repeat split; vm_compute; reflexivity. Qed.

(** C2, amended: when the estimated cost of the request plus the tokens
    in flight exceeds the budget at the moment of the call, [acquire]
    returns [{ ok: false, reason: 'budget_limit' }] in the same
    synchronous segment, having called nothing and changed nothing but
    its own record; and a call of [run] that does not join an entry of
    the registry has its promise rejected with an
    [LLMBulkheadRejectedError] of reason ['budget_limit'], with no call
    to the gate or to the work function and [inFlightTokens] as before. *)
Theorem budget_pre_check_rejects B b s request ao :
  reachable B s ->
  budget_of B = Some b ->
  inFlightTokens s + (input (estimator B request) + maxOutput (estimator B request))
    > budget b ->
  acquire B request ao s
  = (Normal (length (acquires s)),
     with_acquires (acquires s ++
       [ {| caller := None;
            acquire_pc := AcquireSettled (Normal (ok_false budget_limit)) |} ]) s) /\
  (joins B request s = None ->
   exists s1,
     step B (call_run request ao) s = Some s1 /\
     trace s1 = trace s /\ inFlightTokens s1 = inFlightTokens s /\
     acquires s1 = acquires s ++
       [ {| caller := Some (length (runs s));
            acquire_pc := AcquireSettled (Normal (ok_false budget_limit)) |} ] /\
     exists ls s2,
       exec B (resume_run (length (runs s)) :: ls) s1 = Some s2 /\
       promise_state s2 (Returned (length (runs s)))
         = Some (Rejected (LLMBulkheadRejectedError budget_limit)) /\
       trace s2 = trace s /\ inFlightTokens s2 = inFlightTokens s).
Proof.
  intros Hr Hb Hover.
  pose proof (over_budget_true B b request s Hb Hover) as Hpre.
  split; [by apply acquire_over_budget|].
  intros Hjoin.
  assert (Hrun : exists call s1,
    run B request ao s = (Normal (length (runs s)), s1) /\
    runs s1 = runs s ++ [call] /\
    run_pc call = AwaitingAcquire (length (acquires s)) /\
    trace s1 = trace s /\ inFlightTokens s1 = inFlightTokens s /\
    acquires s1 = acquires s ++
       [ {| caller := Some (length (runs s));
            acquire_pc := AcquireSettled (Normal (ok_false budget_limit)) |} ]).
  { destruct (leads B request s) eqn:Hlead.
    - rewrite (run_leads B request ao s Hlead).
      rewrite acquire_over_budget by exact Hpre. simpl.
      eexists _, _. split; [reflexivity|]. simpl. done.
    - rewrite (run_direct B request ao s Hjoin Hlead).
      rewrite acquire_over_budget by exact Hpre. simpl.
      eexists _, _. split; [reflexivity|]. simpl. done. }
  destruct Hrun as (call & s1 & Hrun & Hruns & Hpc & Htr & Hift & Hacq).
  assert (Hstep : step B (call_run request ao) s = Some s1).
  { simpl. by rewrite Hrun. }
  exists s1. split; [exact Hstep|]. split; [exact Htr|]. split; [exact Hift|].
  split; [exact Hacq|].
  pose proof (run_inv_reachable B _ (reachable_step B _ _ _ Hr Hstep)) as Hinv.
  destruct (rejection_delivered B s1 (length (runs s)) call (length (acquires s))
              (Some (length (runs s))) (Normal (ok_false budget_limit))
              (LLMBulkheadRejectedError budget_limit) Hinv)
    as (ls & s2 & Hexec & Hres & Hift2 & Htr2 & _).
  - rewrite Hruns. by apply list_lookup_middle.
  - exact Hpc.
  - rewrite Hacq. by apply list_lookup_middle.
  - reflexivity.
  - exists ls, s2. split; [exact Hexec|]. split; [exact Hres|].
    split; congruence.
Qed.

Lemma budget_pre_check_rejects_witness :
  inFlightTokens (after_one_admission one_request_bulkhead (slot 0)) = 100 /\
  fst (acquire one_request_bulkhead hello_request no_acquire_options
         (after_one_admission one_request_bulkhead (slot 0))) = Normal 1%nat /\
  acquire_pc <$> acquires (snd (acquire one_request_bulkhead hello_request
      no_acquire_options (after_one_admission one_request_bulkhead (slot 0)))) !! 1%nat
    = Some (AcquireSettled (Normal (ok_false budget_limit))) /\
  trace (snd (acquire one_request_bulkhead hello_request
      no_acquire_options (after_one_admission one_request_bulkhead (slot 0))))
    = trace (after_one_admission one_request_bulkhead (slot 0)) /\
  exists ls s2,
    exec one_request_bulkhead (call_run hello_request no_acquire_options ::
        resume_run 0%nat :: ls) (after_one_admission one_request_bulkhead (slot 0))
      = Some s2 /\
    promise_state s2 (Returned 0%nat)
      = Some (Rejected (LLMBulkheadRejectedError budget_limit)) /\
    trace s2 = trace (after_one_admission one_request_bulkhead (slot 0)) /\
    inFlightTokens s2 = 100.
Proof.
  destruct (budget_pre_check_rejects one_request_bulkhead
    {| budget := 150; budget_estimator := Some (constant_estimator 50 50);
       outputCap := None |}
    (after_one_admission one_request_bulkhead (slot 0)) hello_request no_acquire_options
    (reachable_by one_request_bulkhead
       [call_acquire hello_request no_acquire_options;
        gate_settles 0%nat (granted (slot 0))] _ eq_refl)
    eq_refl eq_refl) as [Hacq Hrun].
  destruct (Hrun eq_refl) as (s1 & Hstep & _ & _ & _ & ls & s2 & Hexec & Hres & Htr & Hift).
  split; [reflexivity|]. rewrite Hacq.
  split; [reflexivity|]. split; [reflexivity|]. split; [reflexivity|].
  exists ls, s2. split; [exact (exec_cons _ _ _ _ _ _ Hstep Hexec)|].
  split; [exact Hres|]. split; [exact Htr|exact Hift].
Defined.

Lemma role_alter (f : RunCall -> RunCall) (r : nat) (l : list RunCall) :
  (forall x, l !! r = Some x -> role_of (f x) = role_of x) ->
  role_of <$> alter f r l = role_of <$> l.
Proof.
  intros Hf. apply list_eq. intros i. rewrite !list_lookup_fmap, list_lookup_alter.
  case_decide; [subst|done]. destruct (l !! i) eqn:E; simpl; [|done].
  by rewrite Hf.
Qed.

(** An update of a run record in place keeps its role_of. *)
Ltac same_role :=
  let x := fresh "x" in
  let Hx := fresh "Hx" in
  intros x Hx; repeat (lookup_inv Hx; try done); unfold role_of; simpl;
  repeat match goal with
         | H : context [alter _ ?r _ !! ?r] |- _ => rewrite list_lookup_alter_eq in H
         end;
  repeat match goal with
         | H : context [runs _ !! _] |- _ =>
             lazymatch H with
             | Hx => fail
             | _ => rewrite Hx in H; simpl in H
             end
         end;
  simplify_eq/=;
  repeat match goal with
         | H : deferred _ = _ |- _ => rewrite H
         | H : run_pc _ = _ |- _ => rewrite H
         end;
  try done.

Lemma step_roles B l s s' :
  step B l s = Some s' ->
  role_of <$> runs s' = role_of <$> runs s \/
  exists request ao,
    l = call_run request ao /\
    role_of <$> runs s'
    = (role_of <$> runs s) ++
        [ match joins B request s with
          | Some ld => follower ld
          | None => if leads B request s then leader else direct
          end ].
Proof.
  intros H. destruct l.
  2: { right. exists request, ao. split; [done|]. simpl in H. simplify_eq.
       destruct (joins B request s) as [ld|] eqn:Hj.
       - rewrite (run_joins _ _ _ _ _ Hj). simpl. by rewrite fmap_app.
       - destruct (leads B request s) eqn:Hl.
         + rewrite (run_leads _ _ _ _ Hl). simpl. rewrite fmap_app. simpl.
           unfold _acquire. unfold_M. simpl. repeat case_match; done.
         + rewrite (run_direct _ _ _ _ Hj Hl). simpl. rewrite fmap_app. simpl.
           unfold _acquire. unfold_M. simpl. repeat case_match; done. }
  all: left; simpl in H; unfold_code; simpl in H.
  all: repeat (case_match; simplify_eq/=); try done.
  all: autorewrite with frame; simpl; try done.
  all: rewrite ?role_alter; try done; try same_role.
  all: destruct dst; simpl in *; apply role_alter; same_role.
Qed.

Lemma step_role B l s s' r ro :
  step B l s = Some s' ->
  role_of <$> runs s !! r = Some ro -> role_of <$> runs s' !! r = Some ro.
Proof.
  intros H Hr. rewrite <- list_lookup_fmap in *.
  destruct (step_roles B l s s' H) as [->|(request & ao & _ & ->)]; [done|].
  by apply lookup_app_l_Some.
Qed.

Lemma exec_role B ls s s' r ro :
  exec B ls s = Some s' ->
  role_of <$> runs s !! r = Some ro -> role_of <$> runs s' !! r = Some ro.
Proof.
  revert s. induction ls as [|l ls IH]; simpl; intros s H Hr; [by simplify_eq|].
  destruct (step B l s) as [s1|] eqn:Hs; [|done].
  eapply IH; [exact H|]. by eapply step_role.
Qed.


Lemma omap_delete_None {A C} (f : A -> option C) (xs : list A) (i : nat) (x : A) :
  xs !! i = Some x -> f x = None -> omap f (delete i xs) = omap f xs.
Proof.
  revert i. induction xs as [|y xs IH]; intros [|i] Hi Hf; simplify_eq/=.
  - by rewrite Hf.
  - by rewrite (IH i Hi Hf).
Qed.

Lemma omap_delete_Some {A C} (f : A -> option C) (xs : list A) (i : nat) (x : A) (y : C) :
  xs !! i = Some x -> f x = Some y -> omap f xs ≡ₚ y :: omap f (delete i xs).
Proof.
  revert i. induction xs as [|z xs IH]; intros [|i] Hi Hf; simplify_eq/=.
  - by rewrite Hf.
  - destruct (f z) as [c|]; simpl.
    + rewrite (IH i Hi Hf). apply Permutation_swap.
    + by apply IH.
Qed.

Lemma cleanups_snoc_adopt xs src dst :
  cleanups (xs ++ [Adopt src dst]) = cleanups xs.
Proof. unfold cleanups. rewrite omap_app. simpl. by rewrite app_nil_r. Qed.

Lemma cleanups_snoc_cleanup xs l k :
  cleanups (xs ++ [Cleanup l k]) = cleanups xs ++ [(k, l)].
Proof. unfold cleanups. by rewrite omap_app. Qed.

Lemma elem_of_cleanups xs k l : (k, l) ∈ cleanups xs <-> Cleanup l k ∈ xs.
Proof.
  unfold cleanups. rewrite list_elem_of_omap. split.
  - intros ([src dst|l' k'] & Hin & Hx); simplify_eq/=. done.
  - intros Hin. exists (Cleanup l k). done.
Qed.

(** What a step does to the registry, to the subscribed [cleanup]
    callbacks and to the deletions. *)
Lemma step_registry B l s s' :
  step B l s = Some s' ->
  (dedupMap s' = dedupMap s /\
   cleanups (reactions s') = cleanups (reactions s) /\
   deletions (trace s') = deletions (trace s)) \/
  (exists request ao,
     l = call_run request ao /\ leads B request s = true /\
     dedupMap s' = <[dedupKey_of B request := length (runs s)]> (dedupMap s) /\
     cleanups (reactions s')
       = cleanups (reactions s) ++ [(dedupKey_of B request, length (runs s))] /\
     deletions (trace s') = deletions (trace s)) \/
  (exists i ld k,
     l = react i /\ reactions s !! i = Some (Cleanup ld k) /\
     reactions s' = delete i (reactions s) /\
     is_settled (promise_state s (Deferred ld)) = true /\
     runs s' = runs s /\ dedupHits s' = dedupHits s /\
     inFlightTokens s' = inFlightTokens s /\ acquires s' = acquires s /\
     ((dedupMap s !! k = Some ld /\ dedupMap s' = delete k (dedupMap s) /\
       trace s' = MapDelete k ld :: trace s) \/
      (dedupMap s !! k <> Some ld /\ dedupMap s' = dedupMap s /\ trace s' = trace s))).
Proof.
  intros H. destruct l.
  2: { simpl in H. simplify_eq.
       destruct (joins B request s) as [ld|] eqn:Hj.
       - left. rewrite (run_joins _ _ _ _ _ Hj). simpl.
         by rewrite cleanups_snoc_adopt.
       - destruct (leads B request s) eqn:Hl.
         + right. left. exists request, ao. split; [done|]. split; [done|].
           rewrite (run_leads _ _ _ _ Hl). simpl.
           unfold _acquire. unfold_M. simpl.
           repeat case_match; simpl; by rewrite cleanups_snoc_cleanup.
         + left. rewrite (run_direct _ _ _ _ Hj Hl). simpl.
           unfold _acquire. unfold_M. simpl. repeat case_match; done. }
  6: { simpl in H. destruct (reactions s !! i) as [[src dst|ld k]|] eqn:Hi; [| |done].
       - left. simpl in H. unfold settle in H. unfold_M.
         repeat (case_match; simplify_eq/=); autorewrite with frame; simpl;
           unfold cleanups; by rewrite (omap_delete_None _ _ _ _ Hi).
       - right. right. exists i, ld, k. simpl in H.
         destruct (is_settled _) eqn:Hs; [|done]. simplify_eq.
         unfold cleanup. unfold_M. simpl.
         destruct (decide _) as [Hd|Hd]; simpl; naive_solver. }
  all: left; simpl in H; unfold_code; simpl in H.
  all: repeat (case_match; simplify_eq/=); try done.
  all: autorewrite with frame; simpl; rewrite ?cleanups_snoc_adopt; try done.
Qed.

(** Only the continuation of [run] after a successful admission invokes
    the work function. *)
Lemma step_invoked B l s s' :
  step B l s = Some s' ->
  invoked (trace s') = invoked (trace s) \/
  exists r call a,
    l = resume_run r /\ runs s !! r = Some call /\ run_pc call = AwaitingAcquire a /\
    invoked (trace s') = r :: invoked (trace s).
Proof.
  intros H. destruct l.
  5: { simpl in H. destruct (runs s !! r) as [call|] eqn:Hcall; [|done].
       destruct (run_pc call) as [|a| |] eqn:Hpc; try done.
       unfold_code. simpl in H.
       repeat (case_match; simplify_eq/=); autorewrite with frame; simpl;
         first [by left | right; by exists r, call, a]. }
  all: left; simpl in H; unfold_code; simpl in H.
  all: repeat (case_match; simplify_eq/=); try done.
  all: autorewrite with frame; simpl; try done.
Qed.

Lemma joins_lookup B request s ld :
  joins B request s = Some ld -> dedupMap s !! dedupKey_of B request = Some ld.
Proof. unfold joins. by destruct (_ && _). Qed.

Lemma leads_lookup B request s :
  leads B request s = true ->
  dedupMap s !! dedupKey_of B request = None /\ joins B request s = None.
Proof.
  unfold leads, joins. destruct (_ && negb _); [|done]. simpl.
  by intros Hn%bool_decide_eq_true.
Qed.

Lemma step_runs_length B l s s' :
  step B l s = Some s' -> (length (runs s) <= length (runs s'))%nat.
Proof.
  intros H. rewrite <- (length_fmap role_of (runs s)), <- (length_fmap role_of (runs s')).
  destruct (step_roles B l s s' H) as [->|(request & ao & _ & ->)]; [done|].
  rewrite length_app. lia.
Qed.

Lemma role_lookup_lt (s : State) r ro :
  role_of <$> runs s !! r = Some ro -> (r < length (runs s))%nat.
Proof.
  intros (call & Hr & _)%fmap_Some. by eapply lookup_lt_Some.
Qed.

Lemma registry_step B l s s' :
  registry_inv s -> step B l s = Some s' -> registry_inv s'.
Proof.
  intros (Hperm & Hent & Hfol & Hnd & Hdel & Hinv) H.
  pose proof (step_runs_length B l s s' H) as Hlen.
  assert (Hkeep : forall r ro, role_of <$> runs s !! r = Some ro ->
                               role_of <$> runs s' !! r = Some ro)
    by (intros r ro; by apply (step_role B l)).
  assert (Hfol' : forall r ld, role_of <$> runs s' !! r = Some (follower ld) ->
                               role_of <$> runs s' !! ld = Some leader).
  { intros r ld Hr. rewrite <- list_lookup_fmap in Hr.
    destruct (step_roles B l s s' H) as [Heq|(request & ao & _ & Heq)];
      rewrite Heq in Hr.
    - rewrite list_lookup_fmap in Hr. eauto.
    - apply lookup_snoc_Some in Hr as [[_ Hr]|[_ Hr]].
      + rewrite list_lookup_fmap in Hr. eauto.
      + destruct (joins B request s) as [ld'|] eqn:Hj.
        * simplify_eq. apply Hkeep. eapply Hent. by apply joins_lookup.
        * by destruct (leads B request s). }
  assert (Hinv' : forall r, r ∈ invoked (trace s) ->
            exists ro, role_of <$> runs s' !! r = Some ro /\ forall ld, ro <> follower ld).
  { intros r Hr. destruct (Hinv r Hr) as (ro & Hro & Hnf). eauto. }
  unfold registry_inv.
  destruct (step_registry B l s s' H)
    as [(Hmap & Hcl & Hdl)
       |[(request & ao & -> & Hlead & Hmap & Hcl & Hdl)
        |(i & ld & k & -> & Hi & Hrs & Hset & Hruns & _ & _ & _ & Hguard)]].
  - (* the registry is left alone *)
    rewrite Hmap, Hcl, Hdl. split; [done|]. split; [by eauto|]. split; [done|].
    split; [done|]. split.
    + intros k ld Hin. destruct (Hdel k ld Hin). split; [lia|done].
    + destruct (step_invoked B l s s' H) as [->|(r & call & a & _ & Hr & Hpc & ->)];
        [done|].
      intros r' [->|Hin]%elem_of_cons; [|by auto].
      exists (role_of call). split.
      * apply Hkeep. by rewrite Hr.
      * intros ld'. unfold role_of. rewrite Hpc. by destruct (deferred call).
  - (* a leader installs its entry *)
    destruct (leads_lookup B request s Hlead) as [Hnone Hj].
    rewrite Hmap, Hcl, Hdl. split.
    { rewrite map_to_list_insert by done. rewrite Hperm.
      apply Permutation_cons_append. }
    split.
    { intros k ld [[<- <-]|[_ Hk]]%lookup_insert_Some; [|by eauto].
      rewrite <- list_lookup_fmap.
      destruct (step_roles B _ s s' H) as [Heq|(request' & ao' & Hl & Heq)].
      - apply (f_equal length) in Heq. rewrite !length_fmap in Heq.
        revert H. simpl. rewrite (run_leads _ _ _ _ Hlead). intros [= <-].
        simpl in Heq. rewrite length_app in Heq. simpl in Heq. lia.
      - simplify_eq. rewrite Heq, Hj, Hlead.
        rewrite <- (length_fmap role_of (runs s)). by apply list_lookup_middle. }
    split; [done|]. split; [done|]. split.
    + intros k ld Hin. destruct (Hdel k ld Hin) as [Hlt Hne]. split; [lia|].
      intros [[<- <-]|[_ Hk]]%lookup_insert_Some; [lia|done].
    + destruct (step_invoked B _ s s' H) as [->|(r & call & a & ? & _)]; done.
  - (* a [cleanup] callback runs *)
    assert (Hin : (k, ld) ∈ map_to_list (dedupMap s)).
    { rewrite Hperm. apply elem_of_cleanups. by eapply list_elem_of_lookup_2. }
    apply elem_of_map_to_list in Hin.
    destruct Hguard as [(_ & Hmap & Htr)|(Hne & _)]; [|done].
    rewrite Hmap, Hrs, Htr, Hruns. simpl. split.
    { apply (Permutation_cons_inv (a := (k, ld))).
      rewrite (map_to_list_delete _ _ _ Hin), Hperm.
      by apply (omap_delete_Some _ _ i (Cleanup ld k)). }
    split.
    { intros k' ld' [_ Hk]%lookup_delete_Some. eauto. }
    split; [by rewrite <- Hruns|].
    split.
    { apply NoDup_cons. split; [|done]. intros Hd. by destruct (Hdel k ld Hd). }
    split.
    + intros k' ld' [[= -> ->]|Hd]%elem_of_cons.
      * split; [eapply role_lookup_lt; eauto|]. by rewrite lookup_delete_eq.
      * destruct (Hdel k' ld' Hd) as [Hlt Hne]. split; [done|].
        by intros [_ Hk]%lookup_delete_Some.
    + by rewrite <- Hruns.
Qed.

Lemma registry_initial : registry_inv initial_state.
Proof.
  split; [simpl; by rewrite map_to_list_empty|].
  split; [intros k l Hk; simpl in Hk; by rewrite lookup_empty in Hk|].
  split; [by intros [|r] l|].
  split; [simpl; constructor|].
  split; [intros k l Hin; by inversion Hin|intros r Hin; by inversion Hin].
Qed.

Lemma registry_reachable B s : reachable B s -> registry_inv s.
Proof.
  apply reachable_invariant; [apply registry_initial|].
  intros l s0 s1. apply registry_step.
Qed.

(** ** Removal of registry entries *)

(** The [cleanup] closure: it never throws, and it deletes the entry
    exactly when the registry holds its own promise under the key. *)
Lemma cleanup_eq k l s :
  cleanup k l s
  = (Normal tt,
     if decide (dedupMap s !! k = Some l)
     then with_trace (MapDelete k l :: trace s)
            (with_dedupMap (delete k (dedupMap s)) s)
     else s).
Proof. unfold cleanup. unfold_M. by destruct (decide _). Qed.

Lemma role_leader_deferred (s : State) l :
  role_of <$> runs s !! l = Some leader ->
  exists call d, runs s !! l = Some call /\ deferred call = Some d.
Proof.
  intros (call & Hl & Hro)%fmap_Some. exists call. unfold role_of in Hro.
  destruct (run_pc call); try done; destruct (deferred call) as [d|]; try done; eauto.
Qed.

(** The callback of a settled entry is ready to run, and running it
    removes the entry. *)
Lemma cleanup_fires B s k l st :
  registry_inv s -> dedupMap s !! k = Some l ->
  promise_state s (Deferred l) = Some st -> st <> Pending ->
  exists i s',
    step B (react i) s = Some s' /\
    dedupMap s' = delete k (dedupMap s) /\
    trace s' = MapDelete k l :: trace s /\
    runs s' = runs s /\ dedupHits s' = dedupHits s /\
    inFlightTokens s' = inFlightTokens s /\ acquires s' = acquires s.
Proof.
  intros (Hperm & _) Hk Hst Hne.
  assert (Hin : Cleanup l k ∈ reactions s).
  { apply elem_of_cleanups. rewrite <- Hperm. by apply elem_of_map_to_list. }
  apply list_elem_of_lookup in Hin as (i & Hi).
  assert (Hstep : step B (react i) s
    = Some (snd (cleanup k l (with_reactions (delete i (reactions s)) s)))).
  { simpl. rewrite Hi. simpl. simpl in Hst. rewrite Hst. by destruct st. }
  exists i, (snd (cleanup k l (with_reactions (delete i (reactions s)) s))).
  split; [exact Hstep|]. rewrite cleanup_eq. simpl.
  by rewrite decide_True by done.
Qed.

(** Once every shared promise has settled, running the callbacks that
    are ready empties the registry. *)
Lemma registry_drains B n s :
  size (dedupMap s) = n -> registry_inv s -> quiescent s ->
  exists ls s',
    exec B ls s = Some s' /\ dedupMap s' = ∅ /\
    runs s' = runs s /\ dedupHits s' = dedupHits s /\
    inFlightTokens s' = inFlightTokens s /\ acquires s' = acquires s /\
    deletions (trace s') ≡ₚ map_to_list (dedupMap s) ++ deletions (trace s).
Proof.
  revert s. induction n as [|n IH]; intros s Hn Hinv Hq.
  - apply map_size_empty_inv in Hn. exists [], s. rewrite Hn.
    by rewrite map_to_list_empty.
  - destruct (map_choose (dedupMap s)) as (k & l & Hk).
    { intros He. rewrite He, map_size_empty in Hn. lia. }
    destruct (role_leader_deferred s l (proj1 (proj2 Hinv) k l Hk))
      as (call & d & Hl & Hd).
    destruct (cleanup_fires B s k l d Hinv Hk) as (i & s1 & Hstep & Hmap & Htr & Hruns & Hh & Hi & Ha).
    { simpl. by rewrite Hl. }
    { intros ->. by apply (Hq l call). }
    destruct (IH s1) as (ls & s' & Hexec & He & Hruns' & Hh' & Hi' & Ha' & Hdel).
    + rewrite Hmap, map_size_delete, Hk, Hn. done.
    + by eapply registry_step.
    + intros r c. rewrite Hruns. apply Hq.
    + exists (react i :: ls), s'. split; [by eapply exec_cons|].
      split; [done|]. split; [congruence|]. split; [congruence|].
      split; [congruence|]. split; [congruence|].
      rewrite Hdel, Htr, Hmap. simpl.
      rewrite <- (map_to_list_delete _ _ _ Hk).
      simpl. by rewrite Permutation_middle.
Qed.

(** C7: the registry entry of a shared promise is removed by the
    [cleanup] callback subscribed to that promise.  [cleanup] never
    throws; it deletes the entry when the registry holds its own promise
    under the key and otherwise changes nothing, so it does not remove
    the entry of another leader.  In every reachable state no entry has
    been deleted twice; an entry whose promise has settled (fulfilled or
    rejected) has its callback ready, and running it removes the entry,
    after which a request with the same key leads and installs a new
    entry; and once all shared promises have settled, running the ready
    callbacks leaves the registry empty, [stats().deduplication.active]
    being 0. *)
Theorem registry_cleanup B s :
  reachable B s ->
  (forall k l s0,
     fst (cleanup k l s0) = Normal tt /\
     (dedupMap s0 !! k = Some l ->
        dedupMap (snd (cleanup k l s0)) = delete k (dedupMap s0)) /\
     (dedupMap s0 !! k <> Some l -> snd (cleanup k l s0) = s0)) /\
  NoDup (deletions (trace s)) /\
  (forall k l, (k, l) ∈ deletions (trace s) -> dedupMap s !! k <> Some l) /\
  (forall request l st,
     joins B request s = Some l ->
     promise_state s (Deferred l) = Some st -> st <> Pending ->
     exists i s',
       step B (react i) s = Some s' /\
       dedupMap s' = delete (dedupKey_of B request) (dedupMap s) /\
       size (dedupMap s') = pred (size (dedupMap s)) /\
       trace s' = MapDelete (dedupKey_of B request) l :: trace s /\
       leads B request s' = true /\
       forall ao,
         dedupMap (snd (run B request ao s')) !! dedupKey_of B request
         = Some (length (runs s'))) /\
  (quiescent s ->
   exists ls s',
     exec B ls s = Some s' /\ dedupMap s' = ∅ /\
     stats_deduplication (stats B s')
     = if truthy (deduplication (opts B))
       then Some {| stats_active := 0; stats_hits := dedupHits s |}
       else None).
Proof.
  intros Hr. pose proof (registry_reachable B s Hr) as Hinv.
  split.
  { intros k l s0. rewrite cleanup_eq. simpl. split; [done|].
    split; intros Hk; [by rewrite decide_True|by rewrite decide_False]. }
  split; [apply Hinv|].
  split; [intros k l Hin; by apply (proj1 (proj2 (proj2 (proj2 (proj2 Hinv)))) k l)|].
  split.
  - intros request l st Hj Hst Hne.
    pose proof (joins_lookup B request s l Hj) as Hk.
    destruct (cleanup_fires B s _ l st Hinv Hk Hst Hne)
      as (i & s' & Hstep & Hmap & Htr & _).
    exists i, s'. split; [done|]. split; [done|].
    split; [by rewrite Hmap, map_size_delete, Hk|]. split; [done|].
    assert (Hlead : leads B request s' = true).
    { unfold leads, joins in *. destruct (_ && negb _); [|done]. simpl.
      apply bool_decide_eq_true. by rewrite Hmap, lookup_delete_eq. }
    split; [done|]. intros ao. rewrite (run_leads B request ao s' Hlead). simpl.
    unfold _acquire. unfold_M. simpl.
    repeat case_match; simpl; by rewrite lookup_insert_eq.
  - intros Hq.
    destruct (registry_drains B _ s eq_refl Hinv Hq)
      as (ls & s' & Hexec & He & _ & Hh & _).
    exists ls, s'. split; [done|]. split; [done|].
    unfold stats. simpl. rewrite He, Hh, map_size_empty. done.
Qed.

Lemma registry_cleanup_witness :
  joins dedup_bulkhead hello_request leader_refused = Some 0%nat /\
  promise_state leader_refused (Deferred 0%nat)
    = Some (Rejected (LLMBulkheadRejectedError timeout)) /\
  (exists i s',
     step dedup_bulkhead (react i) leader_refused = Some s' /\
     size (dedupMap s') = 0%nat /\
     leads dedup_bulkhead hello_request s' = true) /\
  (exists ls s',
     exec dedup_bulkhead ls leader_refused = Some s' /\ dedupMap s' = ∅ /\
     stats_deduplication (stats dedup_bulkhead s')
     = Some {| stats_active := 0; stats_hits := 0 |}).
Proof.
  assert (Hr : reachable dedup_bulkhead leader_refused).
  { apply (reachable_by dedup_bulkhead
             [call_run hello_request no_acquire_options;
              gate_settles 0%nat (refused timeout); resume_run 0%nat]).
    vm_compute. reflexivity. }
  assert (Hj : joins dedup_bulkhead hello_request leader_refused = Some 0%nat)
    by (vm_compute; reflexivity).
  assert (Hd : promise_state leader_refused (Deferred 0%nat)
               = Some (Rejected (LLMBulkheadRejectedError timeout)))
    by (vm_compute; reflexivity).
  assert (Hq : quiescent leader_refused).
  { intros [|r] call Hcall; vm_compute in Hcall; [|discriminate].
    injection Hcall as <-. discriminate. }
  destruct (registry_cleanup dedup_bulkhead leader_refused Hr)
    as (_ & _ & _ & Hone & Hall).
  destruct (Hone hello_request 0%nat _ Hj Hd ltac:(discriminate))
    as (i & s' & Hstep & _ & Hsize & _ & Hlead & _).
  destruct (Hall Hq) as (ls & s2 & Hexec & He & Hstats).
  split; [exact Hj|]. split; [exact Hd|]. split.
  - exists i, s'. split; [exact Hstep|]. split; [|exact Hlead].
    rewrite Hsize. vm_compute. reflexivity.
  - exists ls, s2. split; [exact Hexec|]. split; [exact He|]. exact Hstats.
Defined.

(** ** Followers *)

Lemma hits_step B l s s' :
  step B l s = Some s' ->
  dedupHits s' = ((if is_join B l s then 1 else 0) + dedupHits s)%nat.
Proof.
  intros H. destruct l.
  2: { simpl in *. simplify_eq. destruct (joins B request s) as [ld|] eqn:Hj.
       - by rewrite (run_joins _ _ _ _ _ Hj).
       - destruct (leads B request s) eqn:Hl.
         + rewrite (run_leads _ _ _ _ Hl). simpl.
           unfold _acquire. unfold_M. simpl. repeat case_match; done.
         + rewrite (run_direct _ _ _ _ Hj Hl). simpl.
           unfold _acquire. unfold_M. simpl. repeat case_match; done. }
  all: simpl in H; unfold_code; simpl in H.
  all: repeat (case_match; simplify_eq/=); try done.
  all: autorewrite with frame; simpl; try done.
Qed.

(** The hit counter counts the followers. *)
Lemma hits_exec B ls s s' :
  exec B ls s = Some s' -> dedupHits s' = (dedupHits s + followers B ls s)%nat.
Proof.
  revert s. induction ls as [|l ls IH]; simpl; intros s H; [simplify_eq; lia|].
  destruct (step B l s) as [s1|] eqn:Hs; [|done].
  rewrite (IH s1 H), (hits_step B l s s1 Hs). lia.
Qed.

Lemma role_follower (s : State) r ld :
  role_of <$> runs s !! r = Some (follower ld) ->
  exists call, runs s !! r = Some call /\ run_pc call = Joined ld.
Proof.
  intros (call & Hr & Hro)%fmap_Some. exists call. split; [done|].
  unfold role_of in Hro.
  destruct (run_pc call); [by simplify_eq|..]; by destruct (deferred call).
Qed.

(** The promise that a leader returned follows its shared promise. *)
Lemma leader_follows s ld lcall d :
  run_inv s -> runs s !! ld = Some lcall -> role_of lcall = leader ->
  deferred lcall = Some d ->
  (d = Pending /\ returned lcall = Pending) \/
  (d <> Pending /\
   follows s (returned lcall) (Some d) (Adopt (Deferred ld) (Returned ld))).
Proof.
  intros Hinv Hl Hro Hd.
  pose proof (proj1 (proj2 Hinv) ld lcall Hl) as Hok.
  unfold run_ok, role_of in *. rewrite Hd in *.
  destruct (run_pc lcall) as [l|a|a|a]; [done|..].
  - destruct Hok as (Hret & _ & [?|Hp] & _); [done|]. left. by simplify_eq.
  - destruct Hok as (Hret & _ & _ & -> & _). by left.
  - destruct (acquires s !! a) as [[who [?|c]]|]; try done.
    destruct (admission_error c) as [err|].
    + destruct Hok as (_ & -> & Hf). by right.
    + destruct Hok as (_ & v & _ & _ & _ & Hf).
      destruct d; [left|right; by split|right; by split].
      split; [done|]. by destruct Hf as [[? _]|[_ [= <-]]].
Qed.

(** The state of the shared promise after the leader left through its
    [catch]: the admission rejection. *)
Lemma leader_rejection s ld lcall d a who c err :
  run_inv s -> runs s !! ld = Some lcall -> deferred lcall = Some d ->
  run_pc lcall = Finished a ->
  acquires s !! a = Some {| caller := who; acquire_pc := AcquireSettled c |} ->
  admission_error c = Some err -> d = Rejected err.
Proof.
  intros Hinv Hl Hd Hpc Ha Herr.
  pose proof (proj1 (proj2 Hinv) ld lcall Hl) as Hok.
  unfold run_ok in Hok. rewrite Hpc, Ha, Herr, Hd in Hok. by destruct Hok as (_ & -> & _).
Qed.

(** A promise resolved with a settled promise takes over its state. *)
Lemma follows_delivers B s src dst cur d :
  promise_state s dst = Some cur ->
  follows s cur (Some d) (Adopt src dst) ->
  promise_state s src = Some d -> d <> Pending ->
  exists ls s',
    exec B ls s = Some s' /\
    promise_state s' dst = Some d /\
    (forall p, p <> dst -> promise_state s' p = promise_state s p) /\
    (forall x, x ∈ reactions s -> x <> Adopt src dst -> x ∈ reactions s') /\
    inFlightTokens s' = inFlightTokens s /\ trace s' = trace s /\
    dedupMap s' = dedupMap s /\ dedupHits s' = dedupHits s.
Proof.
  intros Hdst [[-> Hin]|[Hne [= ->]]] Hsrc Hd.
  - destruct (adopt_delivers B s src dst d Hin Hsrc Hd Hdst)
      as (i & s' & Hstep & Hres & Hoth & Hrs & Hift & Htr & _ & Hmap & Hh).
    exists [react i], s'. split; [by apply exec_one|]. done.
  - exists [], s. done.
Qed.

(** C6: a call of [run] whose key has an entry in the registry is a
    follower.  The call itself adds one to the hit counter, calls
    neither the gate nor the work function, reserves nothing, and
    returns a promise resolved with the entry's promise, the
    [deferred.promise] of a leader.  In every later state the follower
    has not invoked its work function; the hit counter is the counter at
    the call plus the number of followers since, so it never decreases;
    the promises returned to the follower and to the leader are each
    pending or in the state of the shared promise; once the shared
    promise has settled, both take its state without any further call;
    and if the leader's admission was rejected, the shared state is that
    rejection. *)
Theorem follower_shares_leader B s request ao ld :
  reachable B s -> joins B request s = Some ld ->
  exists s1,
    step B (call_run request ao) s = Some s1 /\
    runs s1 = runs s ++
      [ {| run_ao := ao; returned := Pending; deferred := None; work := None;
           run_pc := Joined ld |} ] /\
    dedupHits s1 = S (dedupHits s) /\
    trace s1 = trace s /\ inFlightTokens s1 = inFlightTokens s /\
    acquires s1 = acquires s /\ dedupMap s1 = dedupMap s /\
    role_of <$> runs s !! ld = Some leader /\
    forall ls s2,
      exec B ls s1 = Some s2 ->
      (length (runs s) ∉ invoked (trace s2)) /\
      dedupHits s2 = (dedupHits s1 + followers B ls s1)%nat /\
      exists call lcall d,
        runs s2 !! length (runs s) = Some call /\ run_pc call = Joined ld /\
        runs s2 !! ld = Some lcall /\ deferred lcall = Some d /\
        (returned call = Pending \/ returned call = d) /\
        (returned lcall = Pending \/ returned lcall = d) /\
        (forall a who c err,
           run_pc lcall = Finished a ->
           acquires s2 !! a = Some {| caller := who; acquire_pc := AcquireSettled c |} ->
           admission_error c = Some err -> d = Rejected err) /\
        (d <> Pending ->
         exists ls' s3,
           exec B ls' s2 = Some s3 /\
           promise_state s3 (Returned (length (runs s))) = Some d /\
           promise_state s3 (Returned ld) = Some d /\
           trace s3 = trace s2 /\ inFlightTokens s3 = inFlightTokens s2 /\
           dedupHits s3 = dedupHits s2).
Proof.
  intros Hr Hj.
  pose proof (registry_reachable B s Hr) as Hreg.
  pose proof (proj1 (proj2 Hreg) _ ld (joins_lookup B request s ld Hj)) as Hld.
  assert (Hstep : step B (call_run request ao) s = Some (snd (run B request ao s)))
    by done.
  eexists. split; [exact Hstep|].
  pose proof (reachable_step B _ _ _ Hr Hstep) as Hr1. revert Hstep Hr1.
  rewrite (run_joins B request ao s ld Hj). cbn [snd].
  set (s1 := with_runs _ _). intros Hstep Hr1.
  split; [done|]. split; [done|]. split; [done|]. split; [done|].
  split; [done|]. split; [done|]. split; [done|].
  intros ls s2 Hexec.
  pose proof (reachable_exec B ls s1 s2 Hr1 Hexec) as Hr2.
  pose proof (run_inv_reachable B s2 Hr2) as Hinv.
  pose proof (registry_reachable B s2 Hr2) as Hreg2.
  assert (Hrole : role_of <$> runs s2 !! length (runs s) = Some (follower ld)).
  { apply (exec_role B ls s1 s2 _ _ Hexec). subst s1. simpl.
    by rewrite list_lookup_middle. }
  assert (Hlrole : role_of <$> runs s2 !! ld = Some leader).
  { apply (exec_role B ls s1 s2 _ _ Hexec). subst s1. simpl.
    destruct (runs s !! ld) as [c|] eqn:E; [|done].
    by rewrite (lookup_app_l_Some _ _ _ _ E). }
  split.
  { intros Hin.
    destruct (proj2 (proj2 (proj2 (proj2 (proj2 Hreg2)))) _ Hin) as (ro & Hro & Hnf).
    rewrite Hrole in Hro. simplify_eq. by apply (Hnf ld). }
  split; [exact (hits_exec B ls s1 s2 Hexec)|].
  destruct (role_follower s2 _ ld Hrole) as (call & Hcall & Hpc).
  destruct (role_leader_deferred s2 ld Hlrole) as (lcall & d & Hl & Hd).
  assert (Hlro : role_of lcall = leader) by (rewrite Hl in Hlrole; by simplify_eq/=).
  assert (Hsrc : promise_state s2 (Deferred ld) = Some d)
    by (simpl; by rewrite Hl).
  pose proof (proj1 (proj2 Hinv) _ call Hcall) as Hok.
  unfold run_ok in Hok. rewrite Hpc, Hsrc in Hok. destruct Hok as (_ & _ & Hf).
  pose proof (leader_follows s2 ld lcall d Hinv Hl Hlro Hd) as Hlf.
  exists call, lcall, d.
  split; [done|]. split; [done|]. split; [done|]. split; [done|].
  split; [destruct Hf as [[? _]|[_ [= ?]]]; auto|].
  split; [destruct Hlf as [[_ ?]|[_ [[? _]|[_ [= ?]]]]]; auto|].
  split; [intros a who c err; by apply (leader_rejection s2 ld lcall)|].
  intros Hne. destruct Hlf as [[? _]|[_ Hlf]]; [done|].
  assert (Hlt : (ld < length (runs s))%nat) by (by eapply role_lookup_lt).
  destruct (follows_delivers B s2 (Deferred ld) (Returned (length (runs s)))
              (returned call) d) as (l1 & s3 & He1 & Hres1 & Hoth1 & Hrs1 & Hi1 & Ht1 & _ & Hh1);
    [simpl; by rewrite Hcall|done|done|done|].
  destruct (follows_delivers B s3 (Deferred ld) (Returned ld) (returned lcall) d)
    as (l2 & s4 & He2 & Hres2 & Hoth2 & _ & Hi2 & Ht2 & _ & Hh2).
  - rewrite Hoth1 by (intros [= ?]; lia). simpl. by rewrite Hl.
  - eapply follows_keep; [exact Hlf| |done].
    intros Hin. apply Hrs1; [done|]. intros [= ?]. lia.
  - by rewrite Hoth1.
  - done.
  - exists (l1 ++ l2), s4. split; [by rewrite (exec_app _ _ _ _ _ He1)|].
    split; [rewrite Hoth2 by (intros [= ?]; lia); done|].
    split; [done|]. split; [congruence|]. split; congruence.
Qed.

Lemma exec_step B l ls s s1 :
  step B l s = Some s1 -> exec B (l :: ls) s = exec B ls s1.
Proof. intros H. simpl. by rewrite H. Qed.

Lemma follower_shares_leader_witness :
  joins dedup_bulkhead hello_request_256 leader_waiting = Some 0%nat /\
  dedupHits leader_waiting = 0%nat /\
  (exists s1,
     step dedup_bulkhead (call_run hello_request_256 no_acquire_options) leader_waiting
       = Some s1 /\
     dedupHits s1 = 1%nat /\ trace s1 = trace leader_waiting) /\
  exists ls' s3,
    exec dedup_bulkhead
      ([call_run hello_request_256 no_acquire_options;
        gate_settles 0%nat (refused timeout); resume_run 0%nat] ++ ls')
      leader_waiting = Some s3 /\
    promise_state s3 (Returned 1%nat)
      = Some (Rejected (LLMBulkheadRejectedError timeout)) /\
    promise_state s3 (Returned 0%nat)
      = Some (Rejected (LLMBulkheadRejectedError timeout)) /\
    invoked (trace s3) = [].
Proof.
  assert (Hr : reachable dedup_bulkhead leader_waiting).
  { apply (reachable_by dedup_bulkhead [call_run hello_request no_acquire_options]).
    vm_compute. reflexivity. }
  assert (Hj : joins dedup_bulkhead hello_request_256 leader_waiting = Some 0%nat)
    by (vm_compute; reflexivity).
  assert (H3 : exec dedup_bulkhead
                 [call_run hello_request_256 no_acquire_options;
                  gate_settles 0%nat (refused timeout); resume_run 0%nat]
                 leader_waiting = Some shared_rejection)
    by (vm_compute; reflexivity).
  destruct (follower_shares_leader dedup_bulkhead leader_waiting hello_request_256
              no_acquire_options 0%nat Hr Hj)
    as (s1 & Hstep & _ & Hhits & Htr & _ & _ & _ & _ & Hlater).
  split; [exact Hj|]. split; [vm_compute; reflexivity|].
  split.
  { exists s1. split; [exact Hstep|]. split; [|exact Htr].
    rewrite Hhits. vm_compute. reflexivity. }
  assert (H2 : exec dedup_bulkhead
                 [gate_settles 0%nat (refused timeout); resume_run 0%nat] s1
               = Some shared_rejection)
    by (rewrite <- (exec_step _ _ _ _ _ Hstep); exact H3).
  assert (Hlen : length (runs leader_waiting) = 1%nat) by (vm_compute; reflexivity).
  rewrite Hlen in Hlater.
  destruct (Hlater _ _ H2)
    as (_ & _ & call & lcall & d & _ & _ & Hl & Hd & _ & _ & _ & Hgo).
  vm_compute in Hl. injection Hl as <-. simpl in Hd. injection Hd as <-.
  destruct (Hgo ltac:(discriminate)) as (ls' & s3 & Hexec & H1 & H0 & Htr3 & _).
  exists ls', s3. split.
  - rewrite (exec_app _ _ ls' _ _ H3). exact Hexec.
  - split; [exact H1|]. split; [exact H0|]. rewrite Htr3. vm_compute. reflexivity.
Defined.

(** * Properties beyond the stated ones *)

(** ** The estimators *)

Lemma foldl_chars (a : Z) (l : list LLMMessage) :
  foldl (fun sum m => sum + content_length m) a l
  = a + foldl (fun sum m => sum + content_length m) 0 l.
Proof.
  revert a. induction l as [|m l IH]; intros a; simpl; [lia|].
  rewrite (IH (a + content_length m)), (IH (0 + content_length m)). lia.
Qed.

Lemma input_chars_cons m l mt :
  input_chars {| messages := m :: l; max_tokens := mt |}
  = content_length m + input_chars {| messages := l; max_tokens := mt |}.
Proof. unfold input_chars. simpl. rewrite foldl_chars. lia. Qed.

Lemma input_chars_non_negative request : 0 <= input_chars request.
Proof.
  destruct request as [l mt]. induction l as [|m l IH]; [done|].
  rewrite input_chars_cons. unfold content_length. lia.
Qed.

Lemma input_chars_app l1 l2 mt :
  input_chars {| messages := l1 ++ l2; max_tokens := mt |}
  = input_chars {| messages := l1; max_tokens := mt |}
    + input_chars {| messages := l2; max_tokens := mt |}.
Proof.
  induction l1 as [|m l1 IH]; simpl.
  - unfold input_chars at 2. simpl. lia.
  - rewrite !input_chars_cons, IH. lia.
Qed.

Lemma input_chars_perm l1 l2 mt1 mt2 :
  l1 ≡ₚ l2 ->
  input_chars {| messages := l1; max_tokens := mt1 |}
  = input_chars {| messages := l2; max_tokens := mt2 |}.
Proof.
  induction 1 as [|m l1 l2 _ IH|m1 m2 l|l1 l2 l3 _ IH1 _ IH2].
  - done.
  - rewrite !input_chars_cons. unfold input_chars in *. simpl in *. lia.
  - rewrite !input_chars_cons. unfold input_chars. simpl. lia.
  - unfold input_chars in *. simpl in *. lia.
Qed.

(** X1: [naiveTokenEstimator] charges one token per four characters of
    content, rounded up: with [n] the total [content.length] of the
    messages, [input] is the least integer with [n <= 4 * input]; it is
    0 exactly when there is no content (an empty [messages] array
    included), and it is never negative. *)
Theorem naive_input_is_ceiling request :
  let n := input_chars request in
  let i := input (naiveTokenEstimator request) in
  n <= 4 * i /\ 4 * (i - 1) < n /\ 0 <= i /\
  (i = 0 <-> n = 0) /\
  (messages request = [] -> i = 0).
Proof.
  intros n i. pose proof (input_chars_non_negative request) as Hn.
  assert (Hi : i = (n + 3) / 4) by done.
  pose proof (Z.div_mod (n + 3) 4 ltac:(lia)) as Hd.
  pose proof (Z.mod_pos_bound (n + 3) 4 ltac:(lia)) as Hm.
  repeat split; try lia.
  intros He. subst n. unfold input_chars in Hn, Hd, Hm, Hi. rewrite He in *. simpl in *.
  rewrite Hi. reflexivity.
Qed.

(** X2: the naive estimate depends on the total content length alone:
    roles and the order of the messages do not change it, and the input
    estimate of a conversation is at most the sum of the estimates of
    its parts and at least each of them. *)
Theorem naive_estimate_of_total_length r1 r2 :
  (input_chars r1 = input_chars r2 -> max_tokens r1 = max_tokens r2 ->
   naiveTokenEstimator r1 = naiveTokenEstimator r2) /\
  (messages r1 ≡ₚ messages r2 -> input_chars r1 = input_chars r2) /\
  (forall mt,
     let both := {| messages := messages r1 ++ messages r2; max_tokens := mt |} in
     input (naiveTokenEstimator both)
       <= input (naiveTokenEstimator r1) + input (naiveTokenEstimator r2) /\
     input (naiveTokenEstimator r1) <= input (naiveTokenEstimator both) /\
     input (naiveTokenEstimator r2) <= input (naiveTokenEstimator both)).
Proof.
  assert (Hin : forall r, input (naiveTokenEstimator r) = (input_chars r + 3) / 4)
    by done.
  split; [|split].
  - intros He Hmt. unfold naiveTokenEstimator, resolveMaxOutput. rewrite Hmt. f_equal.
    change ((input_chars r1 + 3) / 4 = (input_chars r2 + 3) / 4). by rewrite He.
  - destruct r1 as [l1 mt1], r2 as [l2 mt2]. simpl. apply input_chars_perm.
  - intros mt both. rewrite !Hin. subst both. rewrite input_chars_app.
    pose proof (input_chars_non_negative r1) as H1.
    pose proof (input_chars_non_negative r2) as H2.
    assert (E1 : input_chars {| messages := messages r1; max_tokens := mt |}
                 = input_chars r1) by done.
    assert (E2 : input_chars {| messages := messages r2; max_tokens := mt |}
                 = input_chars r2) by done.
    rewrite E1, E2.
    set (a := input_chars r1) in *. set (b := input_chars r2) in *.
    pose proof (Z.div_mod (a + 3) 4 ltac:(lia)).
    pose proof (Z.mod_pos_bound (a + 3) 4 ltac:(lia)).
    pose proof (Z.div_mod (b + 3) 4 ltac:(lia)).
    pose proof (Z.mod_pos_bound (b + 3) 4 ltac:(lia)).
    pose proof (Z.div_mod (a + b + 3) 4 ltac:(lia)).
    pose proof (Z.mod_pos_bound (a + b + 3) 4 ltac:(lia)).
    lia.
Qed.

Lemma naive_estimate_of_total_length_witness :
  naiveTokenEstimator
    {| messages := [ {| role := "system"; content := "be brief" |};
                     {| role := "user"; content := "hello world" |} ];
       max_tokens := Some 64 |}
  = naiveTokenEstimator
    {| messages := [ {| role := "user"; content := "hello world" |};
                     {| role := "assistant"; content := "be brief" |} ];
       max_tokens := Some 64 |}.
Proof.
  refine (proj1 (naive_estimate_of_total_length _ _) _ _).
  - vm_compute. reflexivity.
  - reflexivity.
Defined.

Lemma naive_input_non_negative request : 0 <= input (naiveTokenEstimator request).
Proof.
  pose proof (input_chars_non_negative request).
  change (0 <= (input_chars request + 3) / 4). apply Z.div_pos; lia.
Qed.

(** X3: the output reservation of the naive estimator is
    [request.max_tokens] whenever it is given, an explicit 0 and a
    negative number included, and 2048 otherwise; so the estimate meets
    the contract of non-negative components exactly when [max_tokens] is
    absent or non-negative. *)
Theorem naive_output_reservation request :
  maxOutput (naiveTokenEstimator request)
    = match max_tokens request with
      | Some n => n
      | None => 2048
      end /\
  (0 <= input (naiveTokenEstimator request)
   /\ 0 <= maxOutput (naiveTokenEstimator request)
   <-> match max_tokens request with
       | Some n => 0 <= n
       | None => True
       end).
Proof.
  pose proof (naive_input_non_negative request) as Hi.
  split; [done|]. unfold naiveTokenEstimator, resolveMaxOutput in *. simpl in *.
  destruct (max_tokens request) as [n|]; simpl; unfold DEFAULT_OUTPUT_CAP; intuition lia.
Qed.

Lemma insert_by_length_elem x l y : y ∈ insert_by_length x l <-> y = x \/ y ∈ l.
Proof.
  induction l as [|z l IH]; simpl.
  - rewrite !elem_of_cons, elem_of_nil. tauto.
  - destruct (_ <=? _)%nat; rewrite !elem_of_cons, ?IH; tauto.
Qed.

Lemma sort_by_length_elem l y : y ∈ sort_by_length l <-> y ∈ l.
Proof.
  induction l as [|x l IH]; simpl; [done|].
  rewrite insert_by_length_elem, IH, elem_of_cons. tauto.
Qed.

(** The first element after sorting is a longest one. *)
Lemma sort_by_length_head l h :
  head (sort_by_length l) = Some h ->
  h ∈ l /\
  forall y, y ∈ l -> (String.length (fst y) <= String.length (fst h))%nat.
Proof.
  revert h. induction l as [|x l IH]; intros h; simpl; [done|].
  destruct (sort_by_length l) as [|y ys] eqn:Hs; simpl.
  - intros [= <-]. assert (Hl : l = []).
    { destruct l as [|z l']; [done|].
      assert (Hz : z ∈ sort_by_length (z :: l')) by (apply sort_by_length_elem; left).
      rewrite Hs in Hz. by inversion Hz. }
    subst l. split; [left|]. intros y' [->|Hy]%elem_of_cons; [lia|by inversion Hy].
  - destruct (IH y eq_refl) as [Hy Hmax].
    destruct (_ <=? _)%nat eqn:Hle; simpl; intros [= <-].
    + apply Nat.leb_le in Hle. split; [left|].
      intros z [->|Hz]%elem_of_cons; [lia|]. specialize (Hmax z Hz). lia.
    + apply Nat.leb_gt in Hle. split; [by right|].
      intros z [->|Hz]%elem_of_cons; [lia|]. by apply Hmax.
Qed.

Lemma sort_by_length_nil l : sort_by_length l = [] -> l = [].
Proof.
  destruct l as [|z l']; [done|]. intros Hs.
  assert (Hz : z ∈ sort_by_length (z :: l')) by (apply sort_by_length_elem; left).
  rewrite Hs in Hz. by inversion Hz.
Qed.

Lemma prefix_scan_Some table normalized matched :
  prefix_scan table normalized = Some matched ->
  matched ∈ table /\ String.prefix (fst matched) normalized = true.
Proof.
  unfold prefix_scan. intros [Hin _]%sort_by_length_head.
  by apply list_elem_of_filter in Hin as [Hp Hin].
Qed.

Lemma prefix_scan_None table normalized :
  prefix_scan table normalized = None <->
  forall entry, entry ∈ table -> String.prefix (fst entry) normalized = false.
Proof.
  unfold prefix_scan. split.
  - intros Hh entry He. destruct (String.prefix _ _) eqn:Hp; [|done].
    assert (Hs : sort_by_length
                   (filter (fun e => String.prefix (fst e) normalized = true) table) = [])
      by (by destruct (sort_by_length _)).
    apply sort_by_length_nil in Hs.
    assert (Hin : entry ∈ filter (fun e => String.prefix (fst e) normalized = true) table)
      by (by apply list_elem_of_filter).
    rewrite Hs in Hin. by inversion Hin.
  - intros Hno. destruct (head _) as [matched|] eqn:Hh; [|done].
    apply sort_by_length_head in Hh as [Hin _].
    apply list_elem_of_filter in Hin as [Hp Hin]. by rewrite (Hno matched Hin) in Hp.
Qed.

(** X5: the prefix scan returns an entry of the table whose prefix the
    normalized model starts with and that is at least as long as every
    other such prefix (the longest match wins, wherever it stands in the
    table); it returns nothing exactly when no prefix of the table
    matches. *)
Theorem prefix_scan_longest_match table normalized :
  match prefix_scan table normalized with
  | Some matched =>
      matched ∈ table /\ String.prefix (fst matched) normalized = true /\
      forall entry, entry ∈ table -> String.prefix (fst entry) normalized = true ->
                    (String.length (fst entry) <= String.length (fst matched))%nat
  | None =>
      forall entry, entry ∈ table -> String.prefix (fst entry) normalized = false
  end.
Proof.
  unfold prefix_scan.
  destruct (head _) as [matched|] eqn:Hh.
  - apply sort_by_length_head in Hh as [Hin Hmax].
    apply list_elem_of_filter in Hin as [Hp Hin].
    split; [done|]. split; [done|]. intros entry He Hpe.
    apply Hmax. by apply list_elem_of_filter.
  - intros entry He. destruct (String.prefix _ _) eqn:Hp; [|done].
    assert (Hs : sort_by_length
                   (filter (fun e => String.prefix (fst e) normalized = true) table) = [])
      by (by destruct (sort_by_length _)).
    apply sort_by_length_nil in Hs.
    assert (Hin : entry ∈ filter (fun e => String.prefix (fst e) normalized = true) table)
      by (by apply list_elem_of_filter).
    rewrite Hs in Hin. by inversion Hin.
Qed.

Section LookupRatio.

Variable toLowerCase : string -> string.
Variable eopts : ModelAwareEstimatorOptions.

(** X4: an override is looked up before the built-in table, under the
    model string as given and then under its lower-case form; when
    either lookup finds a ratio, that ratio is returned whatever the
    built-in prefixes say, and [onUnknownModel] is not called. *)
Theorem override_beats_prefix_scan ov model r :
  ov model = Some r \/ (ov model = None /\ ov (toLowerCase model) = Some r) ->
  lookupRatio toLowerCase (Some ov) eopts model = ([], Normal r).
Proof.
  unfold lookupRatio. simpl. intros [->|[-> ->]]; done.
Qed.

(** X6: a model that no override and no built-in prefix matches gets the
    naive ratio 4.0, and [onUnknownModel], when given, is called once
    with the model string as the caller wrote it (not lower-cased); what
    the callback throws is thrown by the lookup. *)
Theorem unknown_model_fallback overrides model :
  (overrides ≫= fun ov => nullish_opt (ov model) (ov (toLowerCase model))) = None ->
  (forall entry, entry ∈ BUILT_IN_RATIOS ->
                 String.prefix (fst entry) (toLowerCase model) = false) ->
  lookupRatio toLowerCase overrides eopts model
  = match onUnknownModel eopts with
    | Some callback =>
        ([model],
         match callback model with
         | Some e => Throw e
         | None => Normal NAIVE_CHAR_RATIO
         end)
    | None => ([], Normal NAIVE_CHAR_RATIO)
    end.
Proof.
  intros Hov Hno. unfold lookupRatio. rewrite Hov.
  destruct (prefix_scan _ _) as [matched|] eqn:Hscan; [|done].
  apply prefix_scan_Some in Hscan as [Hin Hp]. by rewrite (Hno matched Hin) in Hp.
Qed.

(** X7: [onUnknownModel] is called for an unknown model only: whenever
    the lookup makes a call, it is one call, with the model string as
    given; no override matched it and no built-in prefix is a prefix of
    its lower-case form. *)
Theorem known_model_skips_callback overrides model calls c :
  lookupRatio toLowerCase overrides eopts model = (calls, c) ->
  calls <> [] ->
  calls = [model] /\ onUnknownModel eopts <> None /\
  (overrides ≫= fun ov => nullish_opt (ov model) (ov (toLowerCase model))) = None /\
  forall entry, entry ∈ BUILT_IN_RATIOS ->
                String.prefix (fst entry) (toLowerCase model) = false.
Proof.
  unfold lookupRatio.
  destruct (overrides ≫= _) as [exact|]; [by intros [= <- <-]|].
  destruct (prefix_scan _ _) as [matched|] eqn:Hscan; [by intros [= <- <-]|].
  pose proof (proj1 (prefix_scan_None _ _) Hscan) as Hno.
  destruct (onUnknownModel eopts) as [callback|]; [|by intros [= <- <-]].
  intros [= <- <-] _. done.
Qed.

(** X8: without overrides every ratio the lookup returns lies between
    3.7 and 4.0 characters per token. *)
Theorem built_in_ratio_range model calls r :
  lookupRatio toLowerCase None eopts model = (calls, Normal r) ->
  QArith_base.Qle (tenths 37) r /\ QArith_base.Qle r NAIVE_CHAR_RATIO.
Proof.
  unfold lookupRatio. simpl.
  destruct (prefix_scan _ _) as [matched|] eqn:Hscan.
  - apply prefix_scan_Some in Hscan as [Hin _]. intros [= <- <-].
    assert (Hall : Forall (fun e => QArith_base.Qle (tenths 37) (snd e) /\
                                    QArith_base.Qle (snd e) NAIVE_CHAR_RATIO)
                          BUILT_IN_RATIOS).
    { unfold BUILT_IN_RATIOS. repeat constructor; simpl; unfold QArith_base.Qle; simpl; lia. }
    rewrite Forall_forall in Hall. by apply Hall.
  - assert (H4 : QArith_base.Qle (tenths 37) NAIVE_CHAR_RATIO /\
                 QArith_base.Qle NAIVE_CHAR_RATIO NAIVE_CHAR_RATIO)
      by (unfold QArith_base.Qle; simpl; lia).
    destruct (onUnknownModel eopts) as [callback|].
    + destruct (callback model); [done|]. by intros [= <- <-].
    + by intros [= <- <-].
Qed.

End LookupRatio.

Lemma override_beats_prefix_scan_witness :
  lookupRatio lower None plain_estimator_options "GPT-4o-mini"
    = ([], Normal (tenths 37)) /\
  lookupRatio lower (Some mini_override) plain_estimator_options "GPT-4o-mini"
    = ([], Normal (tenths 30)).
Proof.
  split; [vm_compute; reflexivity|].
  apply (override_beats_prefix_scan lower plain_estimator_options mini_override
           "GPT-4o-mini" (tenths 30)).
  right. split; vm_compute; reflexivity.
Defined.

Lemma no_built_in_prefix_of_my_gpt4_prod entry :
  entry ∈ BUILT_IN_RATIOS -> String.prefix (fst entry) (lower "My-GPT4-Prod") = false.
Proof.
  intros Hin. unfold BUILT_IN_RATIOS in Hin.
  repeat (apply elem_of_cons in Hin as [->|Hin]; [vm_compute; reflexivity|]).
  by apply elem_of_nil in Hin.
Defined.

Lemma unknown_model_fallback_witness :
  lookupRatio lower None (logging_estimator_options "My-GPT4-Prod") "My-GPT4-Prod"
  = (["My-GPT4-Prod"], Normal NAIVE_CHAR_RATIO).
Proof.
  exact (unknown_model_fallback lower (logging_estimator_options "My-GPT4-Prod")
           None "My-GPT4-Prod" eq_refl no_built_in_prefix_of_my_gpt4_prod).
Defined.

Lemma known_model_skips_callback_witness :
  onUnknownModel (logging_estimator_options "My-GPT4-Prod") <> None /\
  forall entry, entry ∈ BUILT_IN_RATIOS ->
                String.prefix (fst entry) (lower "My-GPT4-Prod") = false.
Proof.
  destruct (known_model_skips_callback lower
              (logging_estimator_options "My-GPT4-Prod") None "My-GPT4-Prod"
              ["My-GPT4-Prod"] (Normal NAIVE_CHAR_RATIO)
              ltac:(vm_compute; reflexivity) ltac:(discriminate))
    as (_ & Hcb & _ & Hno).
  exact (conj Hcb Hno).
Defined.

Lemma built_in_ratio_range_witness :
  QArith_base.Qle (tenths 37) (tenths 39) /\
  QArith_base.Qle (tenths 39) NAIVE_CHAR_RATIO.
Proof.
  exact (built_in_ratio_range lower plain_estimator_options
           "claude-3-5-sonnet-20241022" [] (tenths 39)
           ltac:(vm_compute; reflexivity)).
Defined.

Lemma exact_ceil_quotient_by_four n :
  exact_ceil_quotient n NAIVE_CHAR_RATIO = (n + 3) / 4.
Proof.
  unfold exact_ceil_quotient, NAIVE_CHAR_RATIO. simpl.
  pose proof (Z.div_mod (- (n * 1)) 4 ltac:(lia)).
  pose proof (Z.mod_pos_bound (- (n * 1)) 4 ltac:(lia)).
  pose proof (Z.div_mod (n + 3) 4 ltac:(lia)).
  pose proof (Z.mod_pos_bound (n + 3) 4 ltac:(lia)).
  lia.
Qed.

Section Estimator.

Variable toLowerCase : string -> string.
Variable ceil_quotient : Z -> Ratio -> Z.

(** X9: for a model that no override and no built-in prefix matches,
    with no callback or one that returns, the model-aware estimator
    charges what [naiveTokenEstimator] charges for the input (division
    by 4.0 being exact), and reserves [request.max_tokens] for the
    output when given, else [opts.outputCap], else 2048; with no
    [outputCap] the two estimators agree. *)
Theorem model_aware_falls_back_to_naive overrides eopts request :
  (forall n, ceil_quotient n NAIVE_CHAR_RATIO = (n + 3) / 4) ->
  (overrides ≫= fun ov =>
     nullish_opt (ov (nullish (defaultModel eopts) EmptyString))
                 (ov (toLowerCase (nullish (defaultModel eopts) EmptyString)))) = None ->
  (forall entry, entry ∈ BUILT_IN_RATIOS ->
     String.prefix (fst entry)
       (toLowerCase (nullish (defaultModel eopts) EmptyString)) = false) ->
  (onUnknownModel eopts ≫= fun callback =>
     callback (nullish (defaultModel eopts) EmptyString)) = None ->
  snd (createModelAwareTokenEstimator toLowerCase ceil_quotient overrides eopts request)
  = Normal {| input := input (naiveTokenEstimator request);
              maxOutput :=
                match max_tokens request with
                | Some n => n
                | None => nullish (mae_outputCap eopts) 2048
                end |} /\
  (mae_outputCap eopts = None ->
   snd (createModelAwareTokenEstimator toLowerCase ceil_quotient overrides eopts request)
   = Normal (naiveTokenEstimator request)).
Proof.
  intros Hq Hov Hno Hcb.
  assert (Hest : snd (createModelAwareTokenEstimator toLowerCase ceil_quotient
                        overrides eopts request)
    = Normal {| input := input (naiveTokenEstimator request);
                maxOutput :=
                  match max_tokens request with
                  | Some n => n
                  | None => nullish (mae_outputCap eopts) 2048
                  end |}).
  { unfold createModelAwareTokenEstimator, lookupRatio. rewrite Hov.
    rewrite (proj2 (prefix_scan_None BUILT_IN_RATIOS _) Hno).
    destruct (onUnknownModel eopts) as [callback|]; simpl in *.
    - rewrite Hcb. simpl. rewrite Hq. unfold resolveMaxOutput.
      by destruct (max_tokens request).
    - rewrite Hq. unfold resolveMaxOutput. by destruct (max_tokens request). }
  split; [exact Hest|]. intros Hcap. rewrite Hest, Hcap.
  unfold naiveTokenEstimator, resolveMaxOutput. simpl.
  by destruct (max_tokens request).
Qed.

(** The bulkhead's own estimator makes no call and does not throw. *)
Lemma default_estimator_eq m cap request :
  createModelAwareTokenEstimator toLowerCase ceil_quotient None
    {| defaultModel := Some m; mae_outputCap := cap; onUnknownModel := None |} request
  = ([], Normal (default_estimator toLowerCase ceil_quotient m cap request)).
Proof.
  unfold default_estimator, createModelAwareTokenEstimator, lookupRatio. simpl.
  by destruct (prefix_scan _ _).
Qed.

(** X10: what a bulkhead reserves for a request.  With
    [tokenBudget.estimator] given, that estimator is used as it is.
    Without it, the input charge is [Math.ceil(chars / ratio)] for the
    ratio of the bulkhead's [model] (the longest built-in prefix of its
    lower-case form, else 4.0), and the output reservation is
    [request.max_tokens] when given, else [tokenBudget.outputCap], else
    2048. *)
Theorem bulkhead_estimator_resolution host gate o B :
  createLLMBulkhead (default_estimator toLowerCase ceil_quotient) host gate o = inr B ->
  (forall tb custom, tokenBudget o = Some tb -> budget_estimator tb = Some custom ->
     estimator B = custom) /\
  ((forall tb, tokenBudget o = Some tb -> budget_estimator tb = None) ->
   forall request,
     estimator B request
     = {| input :=
            ceil_quotient (input_chars request)
              (match prefix_scan BUILT_IN_RATIOS (toLowerCase (model o)) with
               | Some matched => snd matched
               | None => NAIVE_CHAR_RATIO
               end);
          maxOutput :=
            match max_tokens request, tokenBudget o with
            | Some n, _ => n
            | None, Some tb => nullish (outputCap tb) 2048
            | None, None => 2048
            end |}).
Proof.
  unfold createLLMBulkhead. destruct (String.eqb _ _); [done|].
  destruct (maxConcurrent o) as [n|]; [|done].
  destruct (_ <=? _); [done|]. destruct (gate _ _); [done|].
  intros [= <-]. cbn [estimator]. split.
  - intros tb custom Htb Hcustom. rewrite Htb. simpl. by rewrite Hcustom.
  - intros Hnone request.
    assert (Hcall : forall cap,
      default_estimator toLowerCase ceil_quotient (model o) cap request
      = {| input :=
             ceil_quotient (input_chars request)
               (match prefix_scan BUILT_IN_RATIOS (toLowerCase (model o)) with
                | Some matched => snd matched
                | None => NAIVE_CHAR_RATIO
                end);
           maxOutput := nullish (max_tokens request) (nullish cap 2048) |}).
    { intros cap.
      unfold default_estimator, createModelAwareTokenEstimator, lookupRatio. simpl.
      by destruct (prefix_scan _ _). }
    destruct (tokenBudget o) as [tb|]; simpl.
    + rewrite (Hnone tb eq_refl). simpl. rewrite Hcall.
      by destruct (max_tokens request).
    + rewrite Hcall. by destruct (max_tokens request).
Qed.

End Estimator.

Lemma model_aware_falls_back_to_naive_witness :
  snd (createModelAwareTokenEstimator lower exact_ceil_quotient None
         (logging_estimator_options "My-GPT4-Prod") hello_request)
  = Normal {| input := 3; maxOutput := 2048 |}.
Proof.
  exact (proj1 (model_aware_falls_back_to_naive lower exact_ceil_quotient None
           (logging_estimator_options "My-GPT4-Prod") hello_request
           exact_ceil_quotient_by_four eq_refl no_built_in_prefix_of_my_gpt4_prod
           eq_refl)).
Defined.

Lemma bulkhead_estimator_resolution_witness :
  exists B,
    createLLMBulkhead (default_estimator lower exact_ceil_quotient) stringify_messages
      checking_createBulkhead azure_options = inr B /\
    estimator B hello_request = {| input := 3; maxOutput := 512 |} /\
    estimator B hello_request_256 = {| input := 3; maxOutput := 256 |}.
Proof.
  eexists. split; [reflexivity|].
  destruct (bulkhead_estimator_resolution lower exact_ceil_quotient stringify_messages
              checking_createBulkhead azure_options _ eq_refl) as [_ Hdefault].
  split.
  - rewrite (Hdefault ltac:(by intros tb [= <-]) hello_request).
    vm_compute. reflexivity.
  - rewrite (Hdefault ltac:(by intros tb [= <-]) hello_request_256).
    vm_compute. reflexivity.
Defined.

(** ** Admission at the grant *)

Lemma acquire_resumed_within_budget B b request token s :
  budget_of B = Some b -> inFlightTokens s + cost B request <= budget b ->
  _acquire_resumed B request (granted token) s
  = (Normal (ok_true (wrapToken token (cost B request))),
     with_inFlightTokens (inFlightTokens s + cost B request) s).
Proof.
  intros Hb Hfit. unfold _acquire_resumed, tryReserveTokens, cost in *.
  rewrite Hb. unfold_M.
  replace (_ >? _) with false by (symmetry; rewrite Z.gtb_ltb; apply Z.ltb_ge; lia).
  done.
Qed.

Lemma acquire_resumed_no_budget B request token s :
  budget_of B = None ->
  _acquire_resumed B request (granted token) s
  = (Normal (ok_true (wrapToken token 0)), s).
Proof.
  intros Hb. unfold _acquire_resumed, tryReserveTokens. rewrite Hb. by unfold_M.
Qed.

Lemma acquire_resumed_refused B request reason s :
  _acquire_resumed B request (refused reason) s = (Normal (ok_false reason), s).
Proof. done. Qed.

(** X11: when the gate grants a slot and the estimated cost still fits
    the budget (an exact fit included: the test is [>]), the call
    succeeds: it reserves exactly the estimated cost, wraps the slot
    token in an unreleased composite token carrying that reservation,
    and does not call the gate. *)
Theorem admission_within_budget B s a who request b token :
  budget_of B = Some b ->
  acquires s !! a = Some {| caller := who; acquire_pc := AwaitingGate request |} ->
  inFlightTokens s + cost B request <= budget b ->
  exists s1,
    step B (gate_settles a (granted token)) s = Some s1 /\
    token_of s1 a
      = Some {| base := token; reserved := cost B request; released := false |} /\
    inFlightTokens s1 = inFlightTokens s + cost B request /\
    trace s1 = trace s /\
    handed_out s1 a = bool_decide (who = None).
Proof.
  intros Hb Ha Hfit.
  assert (Hstep : step B (gate_settles a (granted token)) s
    = Some (with_acquires (alter (fun call =>
        {| caller := caller call;
           acquire_pc := AcquireSettled
             (Normal (ok_true (wrapToken token (cost B request)))) |}) a (acquires s))
        (with_inFlightTokens (inFlightTokens s + cost B request) s))).
  { unfold step. rewrite Ha. unfold settle_acquire.
    by rewrite (acquire_resumed_within_budget B b request token s Hb Hfit). }
  eexists. split; [exact Hstep|].
  unfold token_of, handed_out. simpl. rewrite list_lookup_alter_eq, Ha. simpl.
  by destruct who.
Qed.

(** X12: a refusal of the gate is passed on with the gate's reason:
    nothing is reserved, no slot is released (none was granted), and a
    [run] that waited for this admission rejects its promise with an
    [LLMBulkheadRejectedError] carrying that very reason, without
    invoking the work function. *)
Theorem gate_refusal_passed_on B s a who request reason :
  reachable B s ->
  acquires s !! a = Some {| caller := who; acquire_pc := AwaitingGate request |} ->
  exists s1,
    step B (gate_settles a (refused reason)) s = Some s1 /\
    acquires s1 !! a
      = Some {| caller := who;
                acquire_pc := AcquireSettled (Normal (ok_false reason)) |} /\
    inFlightTokens s1 = inFlightTokens s /\ trace s1 = trace s /\
    forall r call,
      runs s1 !! r = Some call -> run_pc call = AwaitingAcquire a ->
      exists ls s2,
        exec B (resume_run r :: ls) s1 = Some s2 /\
        promise_state s2 (Returned r)
          = Some (Rejected (LLMBulkheadRejectedError reason)) /\
        inFlightTokens s2 = inFlightTokens s /\ trace s2 = trace s.
Proof.
  intros Hr Ha.
  assert (Hstep : step B (gate_settles a (refused reason)) s
    = Some (with_acquires (alter (fun call =>
        {| caller := caller call;
           acquire_pc := AcquireSettled (Normal (ok_false reason)) |}) a (acquires s)) s)).
  { unfold step. by rewrite Ha. }
  eexists. split; [exact Hstep|].
  assert (Hlook : alter (fun call =>
        {| caller := caller call;
           acquire_pc := AcquireSettled (Normal (ok_false reason)) |}) a (acquires s) !! a
      = Some {| caller := who;
                acquire_pc := AcquireSettled (Normal (ok_false reason)) |}).
  { by rewrite list_lookup_alter_eq, Ha. }
  split; [exact Hlook|]. split; [done|]. split; [done|].
  intros r call Hcall Hpc.
  pose proof (run_inv_reachable B _ (reachable_step B _ _ _ Hr Hstep)) as Hinv.
  destruct (rejection_delivered B _ r call a who _ _ Hinv Hcall Hpc Hlook eq_refl)
    as (ls & s2 & Hexec & Hres & Hift & Htr & _).
  exists ls, s2. done.
Qed.

(** ** What a step does to the ledger *)

Lemma handed_out_token s a :
  handed_out s a = true -> exists w, token_of s a = Some w.
Proof.
  intros (w & Hw)%handed_out_inv. exists w. unfold token_of. by rewrite Hw.
Qed.

Lemma over_budget_frame B request s s' :
  inFlightTokens s' = inFlightTokens s -> over_budget B request s' = over_budget B request s.
Proof. unfold over_budget. by intros ->. Qed.

Lemma acquire_snoc B request ao who s :
  exists x,
    snd (_acquire B request ao who s)
    = with_acquires (acquires s ++ [x])
        (if over_budget B request s then s
         else with_trace (GateAcquire (mergedOptions B ao) :: trace s) s) /\
    caller x = who /\
    acquire_pc x = (if over_budget B request s
                    then AcquireSettled (Normal (ok_false budget_limit))
                    else AwaitingGate request).
Proof.
  unfold _acquire. unfold_M. destruct (over_budget B request s); simpl; eauto.
Qed.

Lemma step_ledger B l s s' :
  step B l s = Some s' ->
  (acquires s' = acquires s /\ inFlightTokens s' = inFlightTokens s /\
   slot_releases (trace s') = slot_releases (trace s) /\ granted_slot l = None) \/
  (exists x request,
     acquires s' = acquires s ++ [x] /\
     acquire_pc x = (if over_budget B request s
                     then AcquireSettled (Normal (ok_false budget_limit))
                     else AwaitingGate request) /\
     inFlightTokens s' = inFlightTokens s /\
     slot_releases (trace s') = slot_releases (trace s) /\ granted_slot l = None) \/
  (exists a c0 request c,
     acquires s !! a = Some c0 /\ acquire_pc c0 = AwaitingGate request /\
     acquires s' = alter (fun call =>
       {| caller := caller call; acquire_pc := AcquireSettled c |}) a (acquires s) /\
     ((exists reason,
         l = gate_settles a (refused reason) /\ c = Normal (ok_false reason) /\
         inFlightTokens s' = inFlightTokens s /\
         slot_releases (trace s') = slot_releases (trace s)) \/
      (exists token,
         l = gate_settles a (granted token) /\
         c = Normal (ok_true (wrapToken token (reservation B request))) /\
         over_budget B request s = false /\
         inFlightTokens s' = inFlightTokens s + reservation B request /\
         slot_releases (trace s') = slot_releases (trace s)) \/
      (exists token,
         l = gate_settles a (granted token) /\
         c = match release_throws token with
             | None => Normal (ok_false budget_limit)
             | Some e => Throw e
             end /\
         over_budget B request s = true /\
         inFlightTokens s' = inFlightTokens s /\
         slot_releases (trace s') = token :: slot_releases (trace s)))) \/
  (exists a w,
     token_of s a = Some w /\ released w = false /\
     acquires s' = acquires (set_released a s) /\
     inFlightTokens s' = Z.max 0 (inFlightTokens s - reserved w) /\
     slot_releases (trace s') = base w :: slot_releases (trace s) /\
     granted_slot l = None).
Proof.
  intros H. destruct l.
  - (* acquire *)
    right. left. simpl in H. simplify_eq. unfold acquire.
    destruct (acquire_snoc B request ao None s) as (x & -> & _ & Hpc).
    exists x, request. destruct (over_budget B request s); done.
  - (* run *)
    simpl in H. simplify_eq.
    destruct (joins B request s) as [ld|] eqn:Hj.
    { left. by rewrite (run_joins _ _ _ _ _ Hj). }
    right. left. destruct (leads B request s) eqn:Hl.
    + rewrite (run_leads _ _ _ _ Hl). cbn [snd].
      set (s0 := with_reactions _ _).
      assert (Ho : over_budget B request s0 = over_budget B request s)
        by (by apply over_budget_frame).
      destruct (acquire_snoc B request ao (Some (length (runs s))) s0)
        as (x & -> & _ & Hpc).
      rewrite Ho in *. exists x, request.
      destruct (over_budget B request s); done.
    + rewrite (run_direct _ _ _ _ Hj Hl). cbn [snd].
      destruct (acquire_snoc B request ao (Some (length (runs s))) s) as (x & -> & _ & Hpc).
      exists x, request. destruct (over_budget B request s); done.
  - (* release() by the caller *)
    simpl in H. destruct (handed_out s a) eqn:Hh; [|done]. simplify_eq.
    destruct (handed_out_token s a Hh) as (w & Hw).
    destruct (released w) eqn:Hr.
    + left. by rewrite (release_again a s w Hw Hr).
    + right. right. right. exists a, w. by rewrite (release_first a s w Hw Hr).
  - (* the gate answers *)
    simpl in H. destruct (acquires s !! a) as [[who [request|c']]|] eqn:Ha; try done.
    simplify_eq. right. right. left.
    destruct r as [token|reason].
    + destruct (over_budget B request s) eqn:Hover.
      * unfold over_budget in Hover. destruct (budget_of B) as [b|] eqn:Hb; [|done].
        cbv zeta in Hover. apply Z.gtb_lt in Hover. apply Z.lt_gt in Hover.
        eexists a, _, request, _. split; [exact Ha|]. split; [done|].
        unfold settle_acquire.
        rewrite (acquire_resumed_over_budget B b request token s Hb Hover).
        split; [reflexivity|]. right. right. exists token.
        unfold over_budget. rewrite Hb.
        split; [done|]. split; [done|]. split; [apply Z.gtb_lt; lia|]. done.
      * unfold over_budget in Hover. unfold settle_acquire.
        destruct (budget_of B) as [b|] eqn:Hb.
        -- cbv zeta in Hover. rewrite Z.gtb_ltb in Hover. apply Z.ltb_ge in Hover.
           rewrite (acquire_resumed_within_budget B b request token s Hb Hover).
           eexists a, _, request, _. split; [exact Ha|]. split; [done|].
           split; [reflexivity|]. right. left. exists token.
           unfold reservation, over_budget. rewrite Hb.
           split; [done|]. split; [done|].
           split; [rewrite Z.gtb_ltb; apply Z.ltb_ge; exact Hover|]. done.
        -- rewrite (acquire_resumed_no_budget B request token s Hb).
           eexists a, _, request, _. split; [exact Ha|]. split; [done|].
           split; [reflexivity|]. right. left. exists token.
           unfold reservation, over_budget. rewrite Hb.
           split; [done|]. split; [done|]. split; [done|]. split; [simpl; lia|done].
    + eexists a, _, request, _. split; [exact Ha|]. split; [done|].
      split; [reflexivity|]. left. exists reason. done.
  - (* the continuation of [run] *)
    left. simpl in H. unfold_code. simpl in H.
    repeat (case_match; simplify_eq/=); try done;
      autorewrite with frame; simpl; done.
  - (* the work function settles *)
    simpl in H. destruct (runs s !! r) as [call|] eqn:Hcall; [|done].
    destruct call as [ao ret def wk pc]. destruct pc as [?|?|a|?]; try done.
    simplify_eq. unfold work_resumed, try_finally, complete.
    destruct (token_of s a) as [w|] eqn:Hw.
    + destruct (released w) eqn:Hr.
      * left. rewrite (release_again a s w Hw Hr).
        destruct outcome; simpl; unfold settle_with, settle, set_run_pc; unfold_M;
          simpl; repeat case_match; autorewrite with frame; done.
      * right. right. right. exists a, w. rewrite (release_first a s w Hw Hr).
        destruct outcome, (release_throws (base w)); simpl;
          unfold settle_with, settle, set_run_pc; unfold_M;
          simpl; repeat case_match; autorewrite with frame; done.
    + left. unfold release. unfold_M. rewrite Hw.
      destruct outcome; simpl; unfold settle_with, settle, set_run_pc; unfold_M;
        simpl; repeat case_match; autorewrite with frame; done.
  - (* a callback runs *)
    left. simpl in H. unfold_code. simpl in H.
    repeat (case_match; simplify_eq/=); try done;
      autorewrite with frame; simpl; done.
Qed.

(** ** Conservation of reservations and of slots *)

Lemma omap_alter_None {A C} (f : A -> option C) (g : A -> A) (i : nat) (l : list A) c :
  l !! i = Some c -> f c = None -> f (g c) = None ->
  omap f (alter g i l) = omap f l.
Proof.
  revert i. induction l as [|x l IH]; intros [|i] Hi Hc Hg; simplify_eq/=.
  - by rewrite Hc, Hg.
  - by rewrite (IH i Hi Hc Hg).
Qed.

Lemma omap_alter_gain {A C} (f : A -> option C) (g : A -> A) (i : nat) (l : list A) c y :
  l !! i = Some c -> f c = None -> f (g c) = Some y ->
  omap f (alter g i l) ≡ₚ y :: omap f l.
Proof.
  revert i. induction l as [|x l IH]; intros [|i] Hi Hc Hg; simplify_eq/=.
  - by rewrite Hc, Hg.
  - destruct (f x); simpl; rewrite (IH i Hi Hc Hg); [apply Permutation_swap|done].
Qed.

Lemma omap_alter_loss {A C} (f : A -> option C) (g : A -> A) (i : nat) (l : list A) c y :
  l !! i = Some c -> f c = Some y -> f (g c) = None ->
  omap f l ≡ₚ y :: omap f (alter g i l).
Proof.
  revert i. induction l as [|x l IH]; intros [|i] Hi Hc Hg; simplify_eq/=.
  - by rewrite Hc, Hg.
  - destruct (f x); simpl; rewrite (IH i Hi Hc Hg); [apply Permutation_swap|done].
Qed.

Lemma sum_perm (l1 l2 : list Z) : l1 ≡ₚ l2 -> foldr Z.add 0 l1 = foldr Z.add 0 l2.
Proof. induction 1; simpl; lia. Qed.

Lemma reserved_sum_non_negative (l : list WrappedToken) :
  Forall (fun w => 0 <= reserved w) l -> 0 <= foldr Z.add 0 (reserved <$> l).
Proof.
  induction 1 as [|w l Hw _ IH]; [done|]. rewrite fmap_cons. cbn [foldr]. lia.
Qed.

Lemma held_token_of s a w :
  token_of s a = Some w -> released w = false ->
  exists c, acquires s !! a = Some c /\ held_token c = Some w.
Proof.
  unfold token_of, held_token. intros Hw Hr.
  destruct (acquires s !! a) as [c|]; [|done]. exists c. split; [done|].
  destruct c as [who [request|[[w'|reason]|e]]]; simplify_eq/=. by rewrite Hr.
Qed.

(** How the held tokens change in a step, up to their order: not at
    all, or a slot is granted and given back at once, or a token is
    gained, or one is released. *)
Lemma step_held B l s s' :
  step B l s = Some s' ->
  (held_tokens s' = held_tokens s /\ inFlightTokens s' = inFlightTokens s /\
   slot_releases (trace s') = slot_releases (trace s) /\ granted_slot l = None) \/
  (exists token,
     granted_slot l = Some token /\
     held_tokens s' = held_tokens s /\ inFlightTokens s' = inFlightTokens s /\
     slot_releases (trace s') = token :: slot_releases (trace s)) \/
  (exists token request,
     granted_slot l = Some token /\
     held_tokens s' ≡ₚ wrapToken token (reservation B request) :: held_tokens s /\
     inFlightTokens s' = inFlightTokens s + reservation B request /\
     over_budget B request s = false /\
     slot_releases (trace s') = slot_releases (trace s)) \/
  (exists w,
     held_tokens s ≡ₚ w :: held_tokens s' /\
     inFlightTokens s' = Z.max 0 (inFlightTokens s - reserved w) /\
     slot_releases (trace s') = base w :: slot_releases (trace s) /\
     granted_slot l = None).
Proof.
  intros H. unfold held_tokens.
  destruct (step_ledger B l s s' H)
    as [(-> & -> & -> & Hg)
       |[(x & request & -> & Hpc & -> & -> & Hg)
        |[(a & c0 & request & c & Ha & Hpc & -> & Hc)
         |(a & w & Hw & Hr & -> & -> & -> & Hg)]]].
  - left. auto.
  - left. rewrite omap_app. simpl. unfold held_token at 2. rewrite Hpc.
    destruct (over_budget B request s); simpl; rewrite app_nil_r; auto.
  - assert (H0 : held_token c0 = None) by (unfold held_token; by rewrite Hpc).
    destruct Hc as [(reason & -> & -> & -> & ->)
                   |[(token & -> & -> & Hover & -> & ->)
                    |(token & -> & -> & Hover & -> & ->)]].
    + left. erewrite omap_alter_None; [|exact Ha|exact H0|done]. auto.
    + right. right. left. exists token, request. split; [done|]. split; [|done].
      by apply (omap_alter_gain _ _ _ _ c0).
    + right. left. exists token.
      erewrite omap_alter_None; [|exact Ha|exact H0|
        unfold held_token; simpl; by destruct (release_throws token)].
      done.
  - right. right. right. exists w.
    destruct (held_token_of s a w Hw Hr) as (c & Hc & Hh).
    split; [|done]. unfold set_released. simpl.
    apply (omap_alter_loss _ _ _ _ c); [done|done|].
    unfold held_token in *. destruct (acquire_pc c) as [|[[w'|]|]]; simplify_eq/=. done.
Qed.

Lemma conservation_step B l s s' :
  (forall request, 0 <= reservation B request) ->
  inFlightTokens s = reserved_total s /\ Forall (fun w => 0 <= reserved w) (held_tokens s) ->
  step B l s = Some s' ->
  inFlightTokens s' = reserved_total s' /\ Forall (fun w => 0 <= reserved w) (held_tokens s').
Proof.
  intros Hres [Hsum Hpos] H. unfold reserved_total in *.
  destruct (step_held B l s s' H)
    as [(-> & -> & _)
       |[(token & _ & -> & -> & _)
        |[(token & request & _ & Hp & -> & _)
         |(w & Hp & -> & _)]]].
  - done.
  - done.
  - pose proof (sum_perm _ _ (fmap_Permutation reserved _ _ Hp)) as Hs.
    rewrite fmap_cons in Hs. cbn [foldr reserved wrapToken] in Hs.
    split; [lia|]. rewrite Hp. constructor; [apply Hres|done].
  - pose proof (sum_perm _ _ (fmap_Permutation reserved _ _ Hp)) as Hs.
    rewrite fmap_cons in Hs. cbn [foldr reserved wrapToken] in Hs.
    rewrite Hp in Hpos. apply Forall_cons in Hpos as [Hw Hpos].
    split; [|done].
    pose proof (reserved_sum_non_negative _ Hpos). lia.
Qed.

Lemma reservation_non_negative B :
  estimator_non_negative B -> forall request, 0 <= reservation B request.
Proof.
  intros Hest request. unfold reservation, cost.
  destruct (budget_of B); [|done]. destruct (Hest request). lia.
Qed.

Lemma conservation_reachable B s :
  estimator_non_negative B -> reachable B s ->
  inFlightTokens s = reserved_total s /\
  Forall (fun w => 0 <= reserved w) (held_tokens s).
Proof.
  intros Hest. revert s. apply reachable_invariant; [split; [done|constructor]|].
  intros l s s'. by apply conservation_step, reservation_non_negative.
Qed.

Lemma counter_within_budget B s :
  estimator_non_negative B -> reachable B s ->
  inFlightTokens s
  <= match budget_of B with
     | Some b => Z.max 0 (budget b)
     | None => 0
     end.
Proof.
  intros Hest Hr.
  assert (Hinv :
    (inFlightTokens s = reserved_total s /\
     Forall (fun w => 0 <= reserved w) (held_tokens s)) /\
    inFlightTokens s <= match budget_of B with
                        | Some b => Z.max 0 (budget b)
                        | None => 0
                        end).
  { revert s Hr. apply reachable_invariant.
    { split; [split; [done|constructor]|]. simpl. destruct (budget_of B); lia. }
    intros l s s' [Hc Hle] H.
    split; [by apply (conservation_step B l s s' (reservation_non_negative B Hest))|].
    destruct Hc as [Hsum Hpos].
    destruct (step_held B l s s' H)
      as [(_ & -> & _)
         |[(token & _ & _ & -> & _)
          |[(token & request & _ & _ & -> & Hover & _)
           |(w & Hp & -> & _)]]].
    - done.
    - done.
    - unfold over_budget in Hover. unfold reservation, cost.
      destruct (budget_of B) as [b|]; [|lia].
      cbv zeta in Hover. rewrite Z.gtb_ltb in Hover. apply Z.ltb_ge in Hover. lia.
    - rewrite Hp in Hpos. apply Forall_cons in Hpos as [Hw _].
      destruct (budget_of B); lia. }
  apply Hinv.
Qed.

Lemma counter_is_safe B s :
  estimator_non_negative B -> safe_budget B -> reachable B s ->
  0 <= inFlightTokens s <= MAX_SAFE_INTEGER.
Proof.
  intros Hest Hsafe Hr. split.
  - destruct (conservation_reachable B s Hest Hr) as (-> & Hpos).
    by apply reserved_sum_non_negative.
  - pose proof (counter_within_budget B s Hest Hr) as Hle.
    unfold safe_budget in Hsafe. destruct (budget_of B) as [b|].
    + specialize (Hsafe b eq_refl). unfold MAX_SAFE_INTEGER in *. lia.
    + unfold MAX_SAFE_INTEGER. lia.
Qed.

(** X13: with an estimator that returns non-negative integers and a
    budget of at most [Number.MAX_SAFE_INTEGER], so that the counter and
    every reservation stay in the range where the additions and
    subtractions of the ledger are exact, in every reachable state
    [inFlightTokens] is the sum of the reservations of the composite
    tokens that have not been released yet: a rejected or released
    admission leaves nothing behind, the clamp [Math.max(0, ...)] in
    [releaseTokens] never cuts anything off, and once every token has
    been released the counter is 0. *)
Theorem ledger_conservation B s :
  estimator_non_negative B -> safe_budget B -> reachable B s ->
  0 <= inFlightTokens s <= MAX_SAFE_INTEGER /\
  Forall (fun w => 0 <= reserved w <= MAX_SAFE_INTEGER) (held_tokens s) /\
  inFlightTokens s = reserved_total s /\
  (forall a w, token_of s a = Some w -> released w = false ->
     Z.max 0 (inFlightTokens s - reserved w) = inFlightTokens s - reserved w) /\
  (held_tokens s = [] -> inFlightTokens s = 0).
Proof.
  intros Hest Hsafe Hr.
  destruct (conservation_reachable B s Hest Hr) as [Hsum Hpos].
  pose proof (counter_is_safe B s Hest Hsafe Hr) as Hrange.
  assert (Hpart : forall w, w ∈ held_tokens s -> reserved w <= reserved_total s).
  { intros w Hin. unfold reserved_total. clear -Hin Hpos.
    induction Hpos as [|x l Hx Hpos IH]; [by inversion Hin|].
    pose proof (reserved_sum_non_negative _ Hpos).
    rewrite fmap_cons. cbn [foldr].
    apply elem_of_cons in Hin as [->|Hin]; [lia|]. specialize (IH Hin). lia. }
  split; [done|]. split; [|split; [done|split]].
  - apply Forall_forall. intros w Hin.
    pose proof (Hpart w Hin). rewrite Forall_forall in Hpos.
    pose proof (Hpos w Hin). lia.
  - intros a w Hw Hrel. destruct (held_token_of s a w Hw Hrel) as (c & Hc & Hh).
    assert (Hin : w ∈ held_tokens s).
    { unfold held_tokens. apply list_elem_of_omap. exists c. split; [|done].
      by eapply list_elem_of_lookup_2. }
    pose proof (Hpart w Hin). lia.
  - intros He. rewrite Hsum. unfold reserved_total. by rewrite He.
Qed.

Lemma ledger_conservation_witness :
  inFlightTokens fn_running = 100 /\
  reserved_total fn_running = 100 /\
  held_tokens fn_running = [ {| base := slot 0; reserved := 100; released := false |} ].
Proof.
  destruct (ledger_conservation plain_bulkhead fn_running
              (constant_estimator_non_negative 200 50 50 false None stringify_messages
                 ltac:(lia) ltac:(lia))
              ltac:(intros b [= <-]; vm_compute; discriminate)
              (reachable_by plain_bulkhead
                 [call_run hello_request no_acquire_options;
                  gate_settles 0%nat (granted (slot 0)); resume_run 0%nat]
                 fn_running eq_refl))
    as (_ & _ & Hsum & _).
  split; [rewrite Hsum; reflexivity|]. split; reflexivity.
Defined.

Lemma step_slots B l s s' :
  step B l s = Some s' ->
  slot_releases (trace s') ++ (base <$> held_tokens s')
  ≡ₚ match granted_slot l with
     | Some token => [token]
     | None => []
     end ++ slot_releases (trace s) ++ (base <$> held_tokens s).
Proof.
  intros H.
  destruct (step_held B l s s' H)
    as [(-> & _ & -> & ->)
       |[(token & -> & -> & _ & ->)
        |[(token & request & -> & Hp & _ & _ & ->)
         |(w & Hp & _ & -> & ->)]]].
  - done.
  - done.
  - rewrite Hp. simpl. by rewrite <- Permutation_middle.
  - rewrite Hp. simpl. by rewrite <- Permutation_middle.
Qed.

Lemma exec_slots B ls s s' :
  exec B ls s = Some s' ->
  slot_releases (trace s') ++ (base <$> held_tokens s')
  ≡ₚ granted_slots ls ++ slot_releases (trace s) ++ (base <$> held_tokens s).
Proof.
  revert s. induction ls as [|l ls IH]; simpl; intros s H; [by simplify_eq|].
  destruct (step B l s) as [s1|] eqn:Hs; [|done].
  rewrite (IH s1 H), (step_slots B l s s1 Hs). unfold granted_slots. simpl.
  destruct (granted_slot l); simpl.
  - rewrite <- Permutation_middle. done.
  - done.
Qed.

(** X14: the slots are conserved.  After any execution, the slot tokens
    the gate granted are, as a multiset, those whose [release()] the
    bulkhead has called together with those held by composite tokens
    not yet released: no granted slot is dropped without a release, and
    none is released that is still held.  If the gate never grants the
    same slot token twice, no slot is released twice. *)
Theorem slot_conservation B ls s :
  exec B ls initial_state = Some s ->
  slot_releases (trace s) ++ (base <$> held_tokens s) ≡ₚ granted_slots ls /\
  (length (slot_releases (trace s)) + length (held_tokens s))%nat
    = length (granted_slots ls) /\
  (NoDup (granted_slots ls) ->
   NoDup (slot_releases (trace s)) /\
   forall w, w ∈ held_tokens s -> base w ∉ slot_releases (trace s)).
Proof.
  intros H. pose proof (exec_slots B ls initial_state s H) as Hp.
  simpl in Hp. rewrite app_nil_r in Hp. split; [done|]. split.
  - rewrite <- Hp, length_app, length_fmap. done.
  - intros Hnd. rewrite <- Hp in Hnd. apply NoDup_app in Hnd as (Hn1 & Hdis & _).
    split; [done|]. intros w Hw Hin. apply (Hdis _ Hin).
    apply list_elem_of_fmap. by exists w.
Qed.

Lemma slot_conservation_witness :
  slot_releases (trace fn_running) = [] /\
  base <$> held_tokens fn_running = [slot 0] /\
  NoDup (slot_releases (trace fn_running)).
Proof.
  destruct (slot_conservation plain_bulkhead
              [call_run hello_request no_acquire_options;
               gate_settles 0%nat (granted (slot 0)); resume_run 0%nat]
              fn_running eq_refl) as (_ & _ & Hnd).
  split; [reflexivity|]. split; [reflexivity|].
  apply Hnd. apply NoDup_singleton.
Defined.

(** ** Features that are switched off *)

Lemma no_budget_not_over B request s :
  budget_of B = None -> over_budget B request s = false.
Proof. unfold over_budget. by intros ->. Qed.

(** X15: without [tokenBudget] the ledger is inert: [inFlightTokens]
    stays 0 in every reachable state, every composite token carries a
    reservation of 0, no admission ever ends in ['budget_limit'] (every
    refusal is the gate's), and [stats()] has no [tokenBudget] block. *)
Theorem no_budget_no_ledger B s :
  budget_of B = None -> reachable B s ->
  inFlightTokens s = 0 /\
  (forall a w, token_of s a = Some w -> reserved w = 0) /\
  (forall a who, acquires s !! a
     <> Some {| caller := who;
                acquire_pc := AcquireSettled (Normal (ok_false budget_limit)) |}) /\
  stats_tokenBudget (stats B s) = None.
Proof.
  intros Hb Hr.
  assert (Hinv : inFlightTokens s = 0 /\
    forall a c, acquires s !! a = Some c ->
      acquire_pc c <> AcquireSettled (Normal (ok_false budget_limit)) /\
      forall w, acquire_pc c = AcquireSettled (Normal (ok_true w)) -> reserved w = 0).
  { revert s Hr. apply reachable_invariant.
    { split; [done|]. by intros [|a] c. }
    intros l s s' [Hz Hacq] H.
    destruct (step_ledger B l s s' H)
      as [(-> & -> & _)
         |[(x & request & -> & Hpc & -> & _)
          |[(a & c0 & request & c & Ha & Hpc & -> & Hc)
           |(a & w & Hw & Hrel & -> & -> & _)]]].
    - done.
    - split; [done|]. intros a c [[_ Hc]|[_ <-]]%lookup_snoc_Some; [by apply (Hacq a)|].
      rewrite Hpc, (no_budget_not_over B request s Hb). done.
    - assert (Hc' : inFlightTokens s' = 0 /\
                    c <> Normal (ok_false budget_limit) /\
                    forall w, c = Normal (ok_true w) -> reserved w = 0).
      { destruct Hc as [(reason & _ & -> & -> & _)
                       |[(token & _ & -> & _ & -> & _)
                        |(token & _ & _ & Hover & _)]].
        - done.
        - unfold reservation. rewrite Hb. split; [lia|]. split; [done|].
          by intros w [= <-].
        - by rewrite (no_budget_not_over B request s Hb) in Hover. }
      destruct Hc' as (Hz' & Hne & Hres). split; [done|].
      intros a' c' Hl. apply lookup_alter_inv in Hl as [(<- & x & Hx & ->)|[_ Hl]];
        [|by apply (Hacq a')].
      simpl. split; [congruence|]. intros w [= ->]. by apply Hres.
    - assert (Hw0 : reserved w = 0).
      { unfold token_of in Hw. destruct (acquires s !! a) as [c|] eqn:Hc; [|done].
        apply (proj2 (Hacq a c Hc)).
        destruct c as [who [request|[[w'|reason]|e]]]; simplify_eq/=. done. }
      split; [lia|]. intros a' c' Hl. unfold set_released in Hl. simpl in Hl.
      apply lookup_alter_inv in Hl as [(<- & x & Hx & ->)|[_ Hl]]; [|by apply (Hacq a')].
      destruct (Hacq a x Hx) as [Hne Hres].
      destruct x as [who' [request'|[[w'|reason']|e']]]; simpl in *; try done.
      split; [done|]. intros w0 [= <-]. simpl. by apply Hres. }
  destruct Hinv as [Hz Hacq]. split; [done|]. split.
  - intros a w. unfold token_of. destruct (acquires s !! a) as [c|] eqn:Hc; [|done].
    intros Hw. apply (proj2 (Hacq a c Hc)).
    destruct c as [who [request|[[w'|reason]|e]]]; simplify_eq/=. done.
  - split.
    + intros a who Hl. by destruct (Hacq a _ Hl) as [Hne _].
    + unfold stats. by rewrite Hb.
Qed.

Lemma no_budget_no_ledger_witness :
  inFlightTokens bare_admitted = 0 /\
  token_of bare_admitted 0%nat
    = Some {| base := slot 0; reserved := 0; released := false |}.
Proof.
  destruct (no_budget_no_ledger bare_bulkhead bare_admitted eq_refl
              (reachable_by bare_bulkhead
                 [call_acquire hello_request no_acquire_options;
                  gate_settles 0%nat (granted (slot 0))] bare_admitted eq_refl))
    as (Hz & _).
  split; [exact Hz|reflexivity].
Defined.

Lemma dedup_off_no_join B request s :
  truthy (deduplication (opts B)) = false ->
  joins B request s = None /\ leads B request s = false.
Proof. unfold joins, leads. by intros ->. Qed.

(** X16: with [deduplication] absent or false the registry is inert: in
    every reachable state the map is empty, the hit counter is 0, no
    [cleanup] is subscribed, every [run] is admitted on its own, and
    [stats()] has no [deduplication] block. *)
Theorem deduplication_off B s :
  truthy (deduplication (opts B)) = false -> reachable B s ->
  dedupMap s = ∅ /\ dedupHits s = 0%nat /\ cleanups (reactions s) = [] /\
  Forall (fun ro => ro = direct) (role_of <$> runs s) /\
  stats_deduplication (stats B s) = None.
Proof.
  intros Hoff Hr.
  assert (Hinv : dedupMap s = ∅ /\ dedupHits s = 0%nat /\ cleanups (reactions s) = [] /\
                 Forall (fun ro => ro = direct) (role_of <$> runs s)).
  { revert s Hr. apply reachable_invariant.
    { split; [done|]. split; [done|]. split; [done|]. constructor. }
    intros l s s' (Hmap & Hhits & Hcl & Hroles) H.
    assert (Hj : is_join B l s = false).
    { destruct l; try done. simpl. by rewrite (proj1 (dedup_off_no_join B request s Hoff)). }
    split; [|split; [|split]].
    - destruct (step_registry B l s s' H)
        as [(-> & _)|[(request & ao & _ & Hl & _)|(i & ld & k & _ & Hi & _)]].
      + done.
      + by rewrite (proj2 (dedup_off_no_join B request s Hoff)) in Hl.
      + assert (Hin : (k, ld) ∈ cleanups (reactions s)).
        { apply elem_of_cleanups. by eapply list_elem_of_lookup_2. }
        rewrite Hcl in Hin. by inversion Hin.
    - rewrite (hits_step B l s s' H), Hj. done.
    - destruct (step_registry B l s s' H)
        as [(_ & -> & _)|[(request & ao & _ & Hl & _)|(i & ld & k & _ & Hi & _)]].
      + done.
      + by rewrite (proj2 (dedup_off_no_join B request s Hoff)) in Hl.
      + assert (Hin : (k, ld) ∈ cleanups (reactions s)).
        { apply elem_of_cleanups. by eapply list_elem_of_lookup_2. }
        rewrite Hcl in Hin. by inversion Hin.
    - destruct (step_roles B l s s' H) as [->|(request & ao & _ & ->)]; [done|].
      apply Forall_app. split; [done|]. constructor; [|constructor].
      destruct (dedup_off_no_join B request s Hoff) as [-> ->]. done. }
  destruct Hinv as (Hmap & Hhits & Hcl & Hroles).
  repeat (split; [done|]). unfold stats. simpl. by rewrite Hoff.
Qed.

Lemma deduplication_off_witness :
  dedupMap fn_running = ∅ /\ dedupHits fn_running = 0%nat /\
  role_of <$> runs fn_running = [direct].
Proof.
  destruct (deduplication_off plain_bulkhead fn_running eq_refl
              (reachable_by plain_bulkhead
                 [call_run hello_request no_acquire_options;
                  gate_settles 0%nat (granted (slot 0)); resume_run 0%nat]
                 fn_running eq_refl))
    as (Hmap & Hhits & _).
  split; [exact Hmap|]. split; [exact Hhits|reflexivity].
Defined.

(** ** Accounting of the registry *)

Lemma count_snoc (P : Role -> bool) (l : list Role) (x : Role) :
  length (filter (fun ro => P ro = true) (l ++ [x]))
  = (length (filter (fun ro => P ro = true) l) + (if P x then 1 else 0))%nat.
Proof.
  rewrite filter_app, length_app. f_equal. destruct (P x) eqn:E.
  - by rewrite filter_cons_True.
  - rewrite filter_cons_False; [done|]. by rewrite E.
Qed.

Lemma call_run_appends B request ao s s' :
  step B (call_run request ao) s = Some s' -> length (runs s') = S (length (runs s)).
Proof.
  simpl. intros [= <-]. destruct (joins B request s) as [ld|] eqn:Hj.
  - rewrite (run_joins _ _ _ _ _ Hj). simpl. rewrite length_app. simpl. lia.
  - destruct (leads B request s) eqn:Hl.
    + rewrite (run_leads _ _ _ _ Hl). simpl. rewrite length_app. simpl. lia.
    + rewrite (run_direct _ _ _ _ Hj Hl). simpl. rewrite length_app. simpl. lia.
Qed.

Lemma registry_accounting_step B l s s' :
  map_to_list (dedupMap s) ≡ₚ cleanups (reactions s) ->
  dedupHits s = follower_count s /\
  (size (dedupMap s) + length (deletions (trace s)))%nat = leader_count s ->
  step B l s = Some s' ->
  dedupHits s' = follower_count s' /\
  (size (dedupMap s') + length (deletions (trace s')))%nat = leader_count s'.
Proof.
  intros Hperm [Hhits Hlead] H. unfold follower_count, leader_count in *.
  pose proof (hits_step B l s s' H) as Hh.
  destruct (step_registry B l s s' H)
    as [(Hmap & _ & Hdel)
       |[(request & ao & -> & Hl & Hmap & _ & Hdel)
        |(i & ld & k & -> & Hi & _ & _ & Hruns & _ & _ & _ & Hguard)]].
  - rewrite Hmap, Hdel.
    destruct (step_roles B l s s' H) as [Heq|(request & ao & -> & ->)].
    + rewrite Heq. split; [|done]. rewrite Hh. destruct l; try done.
      exfalso. apply (f_equal length) in Heq. rewrite !length_fmap in Heq.
      rewrite (call_run_appends B request ao s s' H) in Heq. lia.
    + rewrite !count_snoc, Hh. simpl.
      destruct (joins B request s) as [ld|] eqn:Hj; simpl;
        [rewrite <- Hhits, <- Hlead; split; lia|].
      destruct (leads B request s) eqn:Hl; simpl;
        [|rewrite <- Hhits, <- Hlead; split; lia].
      exfalso. destruct (leads_lookup B request s Hl) as [Hnone _].
      revert H Hmap. simpl. rewrite (run_leads _ _ _ _ Hl). intros [= <-]. 
      unfold _acquire. unfold_M. simpl.
      intros Hmap. assert (Hk : dedupMap s !! dedupKey_of B request
                                = Some (length (runs s))).
      { rewrite <- Hmap. repeat case_match; simpl; by rewrite lookup_insert_eq. }
      congruence.
  - destruct (leads_lookup B request s Hl) as [Hnone Hj].
    destruct (step_roles B _ s s' H) as [Heq|(request' & ao' & [= <- <-] & ->)].
    + exfalso. apply (f_equal length) in Heq. rewrite !length_fmap in Heq.
      rewrite (call_run_appends B request ao s s' H) in Heq. lia.
    + rewrite !count_snoc, Hh. simpl. rewrite Hj, Hl, Hmap, Hdel. simpl.
      rewrite map_size_insert_None by done. rewrite <- Hhits, <- Hlead. split; lia.
  - rewrite Hh, Hruns. simpl. rewrite <- Hhits, <- Hlead. split; [lia|].
    destruct Hguard as [(Hk & -> & ->)|(_ & -> & ->)]; [|done].
    rewrite map_size_delete, Hk. simpl.
    assert (size (dedupMap s) <> 0)%nat.
    { intros Hz. apply map_size_empty_inv in Hz. by rewrite Hz, lookup_empty in Hk. }
    lia.
Qed.

(** X17: the registry's two counters account for the runs.  In every
    reachable state [hits] is the number of calls of [run] that joined
    an entry, and [active] plus the number of entries deleted so far is
    the number of calls that installed one: every follower is counted
    once, and every entry is either still active or was deleted once. *)
Theorem registry_accounting B s :
  reachable B s ->
  dedupHits s = follower_count s /\
  (size (dedupMap s) + length (deletions (trace s)))%nat = leader_count s.
Proof.
  intros Hr.
  assert (Hinv : registry_inv s /\
    (dedupHits s = follower_count s /\
     (size (dedupMap s) + length (deletions (trace s)))%nat = leader_count s)).
  { revert s Hr. apply reachable_invariant.
    { split; [apply registry_initial|done]. }
    intros l s s' [Hreg Hacc] H. split; [by eapply registry_step|].
    by apply (registry_accounting_step B l s s' (proj1 Hreg)). }
  apply Hinv.
Qed.

Lemma registry_accounting_witness :
  dedupHits shared_rejection = 1%nat /\ follower_count shared_rejection = 1%nat /\
  leader_count shared_rejection = 1%nat /\ size (dedupMap shared_rejection) = 1%nat.
Proof.
  destruct (registry_accounting dedup_bulkhead shared_rejection
              (reachable_by dedup_bulkhead
                 [call_run hello_request no_acquire_options;
                  call_run hello_request_256 no_acquire_options;
                  gate_settles 0%nat (refused timeout); resume_run 0%nat]
                 shared_rejection ltac:(vm_compute; reflexivity)))
    as [Hh Hl].
  split; [vm_compute; reflexivity|]. split; [rewrite <- Hh; vm_compute; reflexivity|].
  split; [rewrite <- Hl; vm_compute; reflexivity|vm_compute; reflexivity].
Defined.

(** ** The work function *)

Lemma lookup_alter_keeps (P : RunCall -> Prop) (f : RunCall -> RunCall)
      (r0 r : nat) (l : list RunCall) :
  (forall x, P x -> P (f x)) ->
  (exists call, l !! r = Some call /\ P call) ->
  exists call, alter f r0 l !! r = Some call /\ P call.
Proof.
  intros Hf (call & Hl & HP). rewrite list_lookup_alter. case_decide; [subst|eauto].
  rewrite Hl. simpl. eauto.
Qed.

(** A run that got past its admission stays there, with its options. *)
Lemma step_started B l s s' r call a :
  step B l s = Some s' -> runs s !! r = Some call ->
  run_pc call = AwaitingFn a \/ run_pc call = Finished a ->
  exists call', runs s' !! r = Some call' /\
    (run_ao call' = run_ao call /\
     (run_pc call' = AwaitingFn a \/ run_pc call' = Finished a)).
Proof.
  intros H Hr Hpc.
  assert (H0 : exists c, runs s !! r = Some c /\
    (run_ao c = run_ao call /\ (run_pc c = AwaitingFn a \/ run_pc c = Finished a)))
    by (exists call; by split).
  destruct l.
  - simpl in H. simplify_eq. unfold acquire, _acquire. unfold_M. simpl.
    by repeat case_match.
  - simpl in H. simplify_eq.
    assert (Happ : exists x, runs (snd (run B request ao s)) = runs s ++ [x]).
    { destruct (joins B request s) as [ld|] eqn:Hj.
      - rewrite (run_joins _ _ _ _ _ Hj). simpl. eauto.
      - destruct (leads B request s) eqn:Hl.
        + rewrite (run_leads _ _ _ _ Hl). simpl. eauto.
        + rewrite (run_direct _ _ _ _ Hj Hl). simpl. eauto. }
    destruct Happ as (x & ->). exists call. split; [by apply lookup_app_l_Some|done].
  - simpl in H. unfold_code. simpl in H.
    repeat (case_match; simplify_eq/=); done.
  - simpl in H. unfold_code. simpl in H.
    repeat (case_match; simplify_eq/=); done.
  - (* the continuation of another run *)
    destruct (decide (r0 = r)) as [->|Hne].
    + exfalso. simpl in H. rewrite Hr in H.
      destruct Hpc as [Hpc|Hpc]; rewrite Hpc in H; done.
    + simpl in H. unfold_code. simpl in H.
      repeat (case_match; simplify_eq/=); autorewrite with frame; simpl;
        rewrite ?list_lookup_alter_ne by done; try done.
      all: destruct p; simpl; rewrite ?list_lookup_alter_ne by done; done.
  - (* the work function settles *)
    destruct (decide (r0 = r)) as [->|Hne].
    + simpl in H. rewrite Hr in H. destruct call as [ao ret def wk pc].
      simpl in *. destruct Hpc as [-> | ->]; [|done]. simplify_eq.
      unfold_code. simpl.
      repeat (case_match; simplify_eq/=); autorewrite with frame; simpl;
        rewrite ?list_lookup_alter_eq, ?Hr; simpl; eauto.
    + simpl in H. unfold_code. simpl in H.
      repeat (case_match; simplify_eq/=); autorewrite with frame; simpl;
        rewrite ?list_lookup_alter_ne by done; try done.
  - (* a callback *)
    simpl in H. unfold_code. simpl in H.
    repeat (case_match; simplify_eq/=); autorewrite with frame; simpl; try done.
    all: destruct dst; simpl; (apply lookup_alter_keeps; [by intros x|done]).
Qed.

(** A wrapped token, once made, stays: only its flag changes. *)
Lemma token_persists B l s s' a w :
  step B l s = Some s' -> token_of s a = Some w ->
  exists w', token_of s' a = Some w' /\ base w' = base w /\ reserved w' = reserved w.
Proof.
  intros H Hw. unfold token_of in *.
  destruct (acquires s !! a) as [c|] eqn:Hc; [|done].
  destruct (step_ledger B l s s' H)
    as [(-> & _)
       |[(x & request & -> & _)
        |[(a0 & c0 & request & c' & Ha & Hpc & -> & _)
         |(a0 & w0 & Hw0 & Hrel & -> & _)]]].
  - rewrite Hc. eauto.
  - rewrite (lookup_app_l_Some _ _ _ _ Hc). eauto.
  - destruct (decide (a0 = a)) as [->|Hne].
    + rewrite Hc in Ha. simplify_eq.
      destruct c0 as [who pc]. simpl in Hpc. by subst pc.
    + rewrite list_lookup_alter_ne by done. rewrite Hc. eauto.
  - unfold set_released. simpl. destruct (decide (a0 = a)) as [->|Hne].
    + rewrite list_lookup_alter_eq, Hc. simpl.
      destruct c as [who [request|[[w'|reason]|e]]]; simplify_eq/=. eauto.
    + rewrite list_lookup_alter_ne by done. rewrite Hc. eauto.
Qed.

(** Only the continuation of [run] after a successful admission calls
    the work function, with the signal of that call's options. *)
Lemma step_fn_calls B l s s' :
  step B l s = Some s' ->
  fn_calls (trace s') = fn_calls (trace s) \/
  exists r call a w,
    l = resume_run r /\ runs s !! r = Some call /\ run_pc call = AwaitingAcquire a /\
    token_of s a = Some w /\
    fn_calls (trace s') = (r, signal (run_ao call)) :: fn_calls (trace s) /\
    exists call', runs s' !! r = Some call' /\ run_ao call' = run_ao call /\
                  run_pc call' = AwaitingFn a.
Proof.
  intros H. destruct l.
  5: { simpl in H. destruct (runs s !! r) as [call|] eqn:Hcall; [|done].
       destruct (run_pc call) as [|a| |] eqn:Hpc; try done.
       destruct (acquires s !! a) as [[who [request|c]]|] eqn:Ha; try done.
       simplify_eq.
       destruct c as [[w|reason]|e].
       - right. exists r, call, a, w. split; [done|]. split; [done|]. split; [done|].
         split; [unfold token_of; by rewrite Ha|].
         unfold run_resumed, set_run_pc. unfold_M. simpl.
         destruct (deferred call); simpl; rewrite ?list_lookup_alter_eq, Hcall; simpl;
           (split; [done|]); eexists; (split; [reflexivity|done]).
       - left. unfold run_resumed, set_run_pc, settle. unfold_M. simpl.
         repeat case_match; autorewrite with frame; done.
       - left. unfold run_resumed, set_run_pc, settle. unfold_M. simpl.
         repeat case_match; autorewrite with frame; done. }
  all: left; simpl in H; unfold_code; simpl in H.
  all: repeat (case_match; simplify_eq/=); try done.
  all: autorewrite with frame; simpl; try done.
Qed.

(** X18: the work function of a call of [run] is invoked at most once,
    only after the call's admission succeeded (the call holds a
    composite token), and with the [AbortSignal] of that call's own
    options. *)
Theorem work_function_invoked_once B s :
  reachable B s ->
  NoDup (fst <$> fn_calls (trace s)) /\
  (forall r sig, (r, sig) ∈ fn_calls (trace s) ->
     exists call a w,
       runs s !! r = Some call /\ sig = signal (run_ao call) /\
       (run_pc call = AwaitingFn a \/ run_pc call = Finished a) /\
       token_of s a = Some w).
Proof.
  revert s. apply reachable_invariant.
  { split; [constructor|]. intros r sig Hin; by inversion Hin. }
  intros l s s' (Hnd & Hin) H.
  assert (Hold : forall r sig, (r, sig) ∈ fn_calls (trace s) ->
     exists call a w,
       runs s' !! r = Some call /\ sig = signal (run_ao call) /\
       (run_pc call = AwaitingFn a \/ run_pc call = Finished a) /\
       token_of s' a = Some w).
  { intros r sig Hrs. destruct (Hin r sig Hrs) as (call & a & w & Hr & -> & Hpc & Hw).
    destruct (step_started B l s s' r call a H Hr Hpc) as (call' & Hr' & Hao & Hpc').
    destruct (token_persists B l s s' a w H Hw) as (w' & Hw' & _).
    exists call', a, w'. by rewrite Hao. }
  destruct (step_fn_calls B l s s' H)
    as [Heq|(r & call & a & w & -> & Hr & Hpc & Hw & Heq & call' & Hr' & Hao & Hpc')].
  - by rewrite Heq.
  - rewrite Heq. split.
    + rewrite fmap_cons. apply NoDup_cons. split; [|done]. simpl.
      intros ((r' & sig) & [= <-] & Hrs)%list_elem_of_fmap.
      destruct (Hin r sig Hrs) as (call0 & a0 & _ & Hr0 & _ & Hpc0 & _).
      rewrite Hr in Hr0. simplify_eq. destruct Hpc0; congruence.
    + intros r' sig [[= -> ->]|Hrs]%elem_of_cons; [|by apply Hold].
      destruct (token_persists B _ s s' a w H Hw) as (w' & Hw' & _).
      exists call', a, w'. rewrite Hao. auto.
Qed.

Lemma work_function_invoked_once_witness :
  fn_calls (trace fn_running) = [(0%nat, None)] /\
  NoDup (fst <$> fn_calls (trace fn_running)).
Proof.
  split; [reflexivity|].
  exact (proj1 (work_function_invoked_once plain_bulkhead fn_running
    (reachable_by plain_bulkhead
       [call_run hello_request no_acquire_options;
        gate_settles 0%nat (granted (slot 0)); resume_run 0%nat]
       fn_running eq_refl))).
Defined.

(** ** Round trips *)

Lemma admission_granted B s a who request token :
  acquires s !! a = Some {| caller := who; acquire_pc := AwaitingGate request |} ->
  over_budget B request s = false ->
  exists s1,
    step B (gate_settles a (granted token)) s = Some s1 /\
    acquires s1 !! a
      = Some {| caller := who;
                acquire_pc := AcquireSettled
                  (Normal (ok_true (wrapToken token (reservation B request)))) |} /\
    inFlightTokens s1 = inFlightTokens s + reservation B request /\
    trace s1 = trace s /\ runs s1 = runs s.
Proof.
  intros Ha Hover. unfold step. rewrite Ha. unfold settle_acquire, reservation.
  unfold over_budget in Hover. destruct (budget_of B) as [b|] eqn:Hb.
  - cbv zeta in Hover. rewrite Z.gtb_ltb in Hover. apply Z.ltb_ge in Hover.
    rewrite (acquire_resumed_within_budget B b request token s Hb Hover).
    eexists. split; [reflexivity|]. simpl. by rewrite list_lookup_alter_eq, Ha.
  - rewrite (acquire_resumed_no_budget B request token s Hb).
    eexists. split; [reflexivity|]. simpl. rewrite list_lookup_alter_eq, Ha.
    split; [done|]. split; [lia|done].
Qed.


Lemma acquire_within_budget B request ao who s :
  over_budget B request s = false ->
  _acquire B request ao who s
  = (Normal (length (acquires s)),
     with_acquires (acquires s ++
       [ {| caller := who; acquire_pc := AwaitingGate request |} ])
       (with_trace (GateAcquire (mergedOptions B ao) :: trace s) s)).
Proof. unfold _acquire. unfold_M. by intros ->. Qed.

Lemma in_flight_non_negative B s :
  estimator_non_negative B -> reachable B s -> 0 <= inFlightTokens s.
Proof.
  intros Hest Hr. destruct (conservation_reachable B s Hest Hr) as (-> & Hpos).
  by apply reserved_sum_non_negative.
Qed.

(** X19: acquiring and then releasing puts the ledger back.  With a
    budget of at most [Number.MAX_SAFE_INTEGER] and an estimator that
    returns non-negative integers, when the estimated cost fits the
    budget, [acquire] followed by the gate's grant reserves the cost,
    the counter staying in the range where its arithmetic is exact, and
    one [release()] on the token returned gives back exactly that:
    [inFlightTokens] is what it was before the call, the slot token was
    released once, and the gate was called once. *)
Theorem acquire_release_round_trip B s request ao token b :
  estimator_non_negative B -> reachable B s ->
  budget_of B = Some b -> budget b <= MAX_SAFE_INTEGER ->
  inFlightTokens s + cost B request <= budget b ->
  exists s2 s3,
    exec B [call_acquire request ao;
            gate_settles (length (acquires s)) (granted token)] s = Some s2 /\
    inFlightTokens s2 = inFlightTokens s + cost B request /\
    0 <= inFlightTokens s <= inFlightTokens s2 /\
    inFlightTokens s2 <= MAX_SAFE_INTEGER /\
    step B (call_release (length (acquires s))) s2 = Some s3 /\
    inFlightTokens s3 = inFlightTokens s /\
    trace s3 = SlotRelease token :: GateAcquire (mergedOptions B ao) :: trace s /\
    token_of s3 (length (acquires s))
      = Some {| base := token; reserved := cost B request; released := true |}.
Proof.
  intros Hest Hr Hb Hsafe Hfit.
  pose proof (in_flight_non_negative B s Hest Hr) as Hpos.
  pose proof (reservation_non_negative B Hest request) as Hcost.
  assert (Hover : over_budget B request s = false).
  { unfold over_budget, cost in *. rewrite Hb. cbv zeta.
    rewrite Z.gtb_ltb. apply Z.ltb_ge. lia. }
  set (s1 := with_acquires (acquires s ++
       [ {| caller := None; acquire_pc := AwaitingGate request |} ])
       (with_trace (GateAcquire (mergedOptions B ao) :: trace s) s)).
  assert (H1 : step B (call_acquire request ao) s = Some s1).
  { simpl. unfold acquire. by rewrite (acquire_within_budget B request ao None s Hover). }
  assert (Hres : reservation B request = cost B request)
    by (unfold reservation; by rewrite Hb).
  destruct (admission_granted B s1 (length (acquires s)) None request token)
    as (s2 & H2 & Hacq2 & Hift & Htr & _).
  { subst s1. simpl. by apply list_lookup_middle. }
  { done. }
  rewrite Hres in Hacq2, Hift.
  assert (Hw : token_of s2 (length (acquires s))
               = Some {| base := token; reserved := cost B request; released := false |})
    by (unfold token_of; by rewrite Hacq2).
  assert (Hout : handed_out s2 (length (acquires s)) = true)
    by (unfold handed_out; by rewrite Hacq2).
  assert (H3 : step B (call_release (length (acquires s))) s2
               = Some (snd (release (length (acquires s)) s2))).
  { simpl. by rewrite Hout. }
  exists s2, (snd (release (length (acquires s)) s2)).
  split; [by apply (exec_cons B _ _ s s1 s2 H1), exec_one|].
  split; [done|].
  assert (Hrange : 0 <= inFlightTokens s <= inFlightTokens s2 /\
                   inFlightTokens s2 <= MAX_SAFE_INTEGER).
  { rewrite Hift, Hres in *. subst s1. simpl. unfold cost in *. lia. }
  split; [apply Hrange|]. split; [apply Hrange|]. split; [exact H3|].
  rewrite (release_first _ s2 _ Hw eq_refl). cbn [snd].
  split; [simpl; rewrite Hift; simpl; lia|]. split; [simpl; by rewrite Htr|].
  change (token_of (set_released (length (acquires s)) s2) (length (acquires s))
          = Some {| base := token; reserved := cost B request; released := true |}).
  by rewrite (token_of_set_released _ _ _ Hw).
Qed.

Lemma acquire_release_round_trip_witness :
  exists s2 s3,
    exec plain_bulkhead
      [call_acquire hello_request no_acquire_options;
       gate_settles 0%nat (granted (slot 0))] initial_state = Some s2 /\
    inFlightTokens s2 = 100 /\
    0 <= 0 <= inFlightTokens s2 /\
    inFlightTokens s2 <= MAX_SAFE_INTEGER /\
    step plain_bulkhead (call_release 0%nat) s2 = Some s3 /\
    inFlightTokens s3 = 0 /\
    trace s3 = [SlotRelease (slot 0);
                GateAcquire (mergedOptions plain_bulkhead no_acquire_options)] /\
    token_of s3 0%nat
      = Some {| base := slot 0; reserved := 100; released := true |}.
Proof.
  exact (acquire_release_round_trip plain_bulkhead initial_state hello_request
           no_acquire_options (slot 0)
           {| budget := 200; budget_estimator := Some (constant_estimator 50 50);
              outputCap := None |}
           (constant_estimator_non_negative 200 50 50 false None stringify_messages
              ltac:(lia) ltac:(lia))
           (reachable_by plain_bulkhead [] initial_state eq_refl)
           eq_refl ltac:(vm_compute; discriminate) ltac:(vm_compute; discriminate)).
Defined.

(** ** The rejection error *)

(** X20: the message of an [LLMBulkheadRejectedError] determines its
    reason: it is ["LLM bulkhead rejected: "] followed by the reason,
    and two rejections with the same message have the same reason;
    [code] and [name] are the same for all of them. *)
Theorem rejection_message_names_reason r1 r2 :
  (error_message (LLMBulkheadRejectedError r1)
     = error_message (LLMBulkheadRejectedError r2) <-> r1 = r2) /\
  error_message (LLMBulkheadRejectedError r1)
    = Some ("LLM bulkhead rejected: " +:+ reason_text r1) /\
  error_code (LLMBulkheadRejectedError r1) = error_code (LLMBulkheadRejectedError r2) /\
  error_name (LLMBulkheadRejectedError r1) = error_name (LLMBulkheadRejectedError r2).
Proof.
  split; [|done]. split; [|by intros ->].
  destruct r1 as [[| | |]|], r2 as [[| | |]|]; simpl; intros H; try done;
    by inversion H.
Qed.

(** ** Construction *)

(** X21: [createLLMBulkhead] throws its own errors exactly when [model]
    is empty or [maxConcurrent] is not a positive integer (a fraction,
    [NaN] and the infinities included), the check of [model] coming
    first; past these checks it calls [createBulkhead] of the base
    library with [maxConcurrent] and the resolved [maxQueue] and throws
    what that call throws; it returns a bulkhead exactly when the checks
    pass and that call returns, so that no other option makes it throw;
    a bulkhead that could be created keeps its options and starts with
    an empty ledger and an empty registry. *)
Theorem construction_validates create host gate o :
  (createLLMBulkhead create host gate o = inl model_must_be_non_empty
   <-> model o = EmptyString) /\
  (createLLMBulkhead create host gate o = inl maxConcurrent_must_be_positive
   <-> model o <> EmptyString /\
       (maxConcurrent o = not_an_integer \/
        exists n, maxConcurrent o = integer n /\ n <= 0)) /\
  (forall e,
     createLLMBulkhead create host gate o = inl (thrown_by_createBulkhead e)
     <-> model o <> EmptyString /\
         exists n, maxConcurrent o = integer n /\ 0 < n /\
           gate n (nullish (opt_maxQueue o)
                     (nullish (preset_maxQueue (resolvePreset (profile o))) 0))
           = Some e) /\
  ((exists B, createLLMBulkhead create host gate o = inr B)
   <-> model o <> EmptyString /\
       exists n, maxConcurrent o = integer n /\ 0 < n /\
         gate n (nullish (opt_maxQueue o)
                   (nullish (preset_maxQueue (resolvePreset (profile o))) 0))
         = None) /\
  (forall B, createLLMBulkhead create host gate o = inr B ->
     opts B = o /\
     stats_tokenBudget (stats B initial_state)
       = (tb ← tokenBudget o;
          Some {| stats_budget := budget tb; stats_inFlightTokens := 0;
                  stats_available := Z.max 0 (budget tb) |}) /\
     stats_deduplication (stats B initial_state)
       = if truthy (deduplication o)
         then Some {| stats_active := 0; stats_hits := 0 |}
         else None).
Proof.
  unfold createLLMBulkhead.
  destruct (String.eqb (model o) EmptyString) eqn:Hm.
  { apply String.eqb_eq in Hm.
    split; [done|]. split; [split; [done|by intros [? _]]|].
    split; [intros e; split; [done|by intros [? _]]|].
    split; [split; [by intros [B ?]|by intros [? _]]|]. by intros B. }
  apply String.eqb_neq in Hm.
  destruct (maxConcurrent o) as [n|] eqn:Hmc.
  2:{ split; [split; [done|by intros ?]|].
      split; [split; [auto|done]|].
      split; [intros e; split; [done|by intros (_ & n & ? & _)]|].
      split; [split; [by intros [B ?]|by intros (_ & n & ? & _)]|]. by intros B. }
  destruct (n <=? 0) eqn:Hc.
  { apply Z.leb_le in Hc.
    split; [split; [done|by intros ?]|].
    split; [split; [eauto|done]|].
    split; [intros e; split; [done|intros (_ & n' & [= <-] & ? & _); lia]|].
    split; [split; [by intros [B ?]|intros (_ & n' & [= <-] & ? & _); lia]|].
    by intros B. }
  apply Z.leb_gt in Hc.
  destruct (gate n _) as [e0|] eqn:Hg.
  { split; [split; [done|by intros ?]|].
    split; [split; [done|intros (_ & [?|(n' & [= <-] & ?)]); [done|lia]]|].
    split.
    { intros e. split.
      - intros [= <-]. split; [done|]. exists n. done.
      - intros (_ & n' & [= <-] & _ & Hg'). rewrite Hg in Hg'. by injection Hg' as <-. }
    split; [split; [by intros [B ?]|]|by intros B].
    intros (_ & n' & [= <-] & _ & Hg'). by rewrite Hg in Hg'. }
  split; [split; [done|by intros ?]|].
  split; [split; [done|intros (_ & [?|(n' & [= <-] & ?)]); [done|lia]]|].
  split.
  { intros e. split; [done|].
    intros (_ & n' & [= <-] & _ & Hg'). by rewrite Hg in Hg'. }
  split; [split; [intros _; split; [done|]; exists n; done|eauto]|].
  intros B0 [= <-]. split; [done|]. unfold stats, budget_of. simpl. split.
  - destruct (tokenBudget o); simpl; [|done]. by rewrite Z.sub_0_r.
  - by destruct (truthy _).
Qed.

(** ** A call of [run] from start to end *)

Lemma run_admits B request ao s :
  joins B request s = None -> over_budget B request s = false ->
  exists call0 s1,
    step B (call_run request ao) s = Some s1 /\
    runs s1 = runs s ++ [call0] /\ run_ao call0 = ao /\
    run_pc call0 = AwaitingAcquire (length (acquires s)) /\
    acquires s1 = acquires s ++
      [ {| caller := Some (length (runs s)); acquire_pc := AwaitingGate request |} ] /\
    trace s1 = GateAcquire (mergedOptions B ao) :: trace s /\
    inFlightTokens s1 = inFlightTokens s.
Proof.
  intros Hj Hover. simpl. destruct (leads B request s) eqn:Hl.
  - rewrite (run_leads _ _ _ _ Hl). cbn [snd].
    rewrite acquire_within_budget by (unfold over_budget in *; simpl; exact Hover).
    eexists _, _. split; [reflexivity|]. simpl. done.
  - rewrite (run_direct _ _ _ _ Hj Hl). cbn [snd].
    rewrite acquire_within_budget by done.
    eexists _, _. split; [reflexivity|]. simpl. done.
Qed.

Lemma resume_admitted B s r call a who w :
  runs s !! r = Some call -> run_pc call = AwaitingAcquire a ->
  acquires s !! a
    = Some {| caller := who; acquire_pc := AcquireSettled (Normal (ok_true w)) |} ->
  exists s1 call1,
    step B (resume_run r) s = Some s1 /\
    runs s1 !! r = Some call1 /\ run_pc call1 = AwaitingFn a /\
    trace s1 = FnInvoke r (signal (run_ao call)) :: trace s /\
    inFlightTokens s1 = inFlightTokens s /\ acquires s1 = acquires s.
Proof.
  intros Hr Hpc Ha. simpl. rewrite Hr, Hpc, Ha.
  unfold run_resumed, set_run_pc. unfold_M. simpl.
  destruct (deferred call); simpl; eexists _, _;
    (split; [reflexivity|]); simpl; rewrite ?list_lookup_alter_eq, Hr; simpl; done.
Qed.

(** X22: a call of [run] that does not join an entry and finds headroom,
    taken from the call to the end, for a budget of at most
    [Number.MAX_SAFE_INTEGER], an estimator that returns non-negative
    integers and a slot token whose [release()] returns: the gate is
    called once, the work function once with the caller's signal, and
    when it settles the slot token is released once, [inFlightTokens],
    which stayed in the range where its arithmetic is exact, is back at
    what it was before the call, and the promise that [run] returned
    takes the outcome of the work function, its value or the error it
    threw. *)
Theorem run_round_trip B s request ao token outcome :
  estimator_non_negative B -> safe_budget B -> reachable B s ->
  joins B request s = None -> over_budget B request s = false ->
  release_throws token = None ->
  exists ls s',
    exec B (call_run request ao ::
            gate_settles (length (acquires s)) (granted token) ::
            resume_run (length (runs s)) ::
            fn_settles (length (runs s)) outcome :: ls) s = Some s' /\
    promise_state s' (Returned (length (runs s))) = Some (completion_state outcome) /\
    0 <= inFlightTokens s <= inFlightTokens s + reservation B request /\
    inFlightTokens s + reservation B request <= MAX_SAFE_INTEGER /\
    inFlightTokens s' = inFlightTokens s /\
    trace s' = SlotRelease token :: FnInvoke (length (runs s)) (signal ao) ::
               GateAcquire (mergedOptions B ao) :: trace s.
Proof.
  intros Hest Hsafe Hr Hj Hover Hrel.
  pose proof (in_flight_non_negative B s Hest Hr) as Hpos.
  pose proof (reservation_non_negative B Hest request) as Hcost.
  destruct (run_admits B request ao s Hj Hover)
    as (call0 & s1 & H1 & Hruns1 & Hao & Hpc0 & Hacq1 & Htr1 & Hift1).
  destruct (admission_granted B s1 (length (acquires s)) (Some (length (runs s)))
              request token)
    as (s2 & H2 & Hacq2 & Hift2 & Htr2 & Hruns2).
  { rewrite Hacq1. by apply list_lookup_middle. }
  { unfold over_budget in *. by rewrite Hift1. }
  assert (Hr2 : runs s2 !! length (runs s) = Some call0)
    by (rewrite Hruns2, Hruns1; by apply list_lookup_middle).
  destruct (resume_admitted B s2 (length (runs s)) call0 (length (acquires s)) _ _
              Hr2 Hpc0 Hacq2)
    as (s3 & call3 & H3 & Hr3 & Hpc3 & Htr3 & Hift3 & Hacq3).
  assert (Hreach3 : reachable B s3).
  { apply (reachable_exec B [call_run request ao;
             gate_settles (length (acquires s)) (granted token);
             resume_run (length (runs s))] s s3 Hr).
    apply (exec_cons B _ _ s s1 s3 H1), (exec_cons B _ _ s1 s2 s3 H2), exec_one, H3. }
  destruct (work_delivered B s3 _ call3 _ (run_inv_reachable B s3 Hreach3) Hr3 Hpc3)
    as (w & Hw & _ & _ & Hall).
  assert (Hweq : w = wrapToken token (reservation B request)).
  { unfold token_of in Hw. rewrite Hacq3, Hacq2 in Hw. by simplify_eq. }
  subst w. cbn [base reserved wrapToken] in Hall.
  destruct (Hall outcome)
    as (s4 & H4 & Htr4 & Hift4 & _ & _ & ls & s5 & H5 & Hres & Htr5 & Hift5).
  unfold work_completion in Hres. rewrite Hrel in Hres.
  exists ls, s5. split.
  { apply (exec_cons B _ _ s s1 s5 H1), (exec_cons B _ _ s1 s2 s5 H2),
      (exec_cons B _ _ s2 s3 s5 H3), (exec_cons B _ _ s3 s4 s5 H4), H5. }
  split; [exact Hres|]. split; [lia|]. split; [|split].
  - rewrite <- Hift1, <- Hift2. apply (counter_is_safe B s2 Hest Hsafe).
    apply (reachable_exec B [call_run request ao;
             gate_settles (length (acquires s)) (granted token)] s s2 Hr).
    apply (exec_cons B _ _ s s1 s2 H1), exec_one, H2.
  - rewrite Hift5, Hift4, Hift3, Hift2, Hift1. lia.
  - rewrite Htr5, Htr4, Htr3, Htr2, Htr1, Hao. done.
Qed.

Lemma run_round_trip_witness :
  exists ls s',
    exec plain_bulkhead
      (call_run hello_request no_acquire_options ::
       gate_settles 0%nat (granted (slot 0)) ::
       resume_run 0%nat :: fn_settles 0%nat (Normal 7%nat) :: ls) initial_state
      = Some s' /\
    promise_state s' (Returned 0%nat) = Some (Fulfilled 7%nat) /\
    0 <= 0 <= 0 + reservation plain_bulkhead hello_request /\
    0 + reservation plain_bulkhead hello_request <= MAX_SAFE_INTEGER /\
    inFlightTokens s' = 0 /\
    trace s' = [SlotRelease (slot 0); FnInvoke 0%nat None;
                GateAcquire (mergedOptions plain_bulkhead no_acquire_options)].
Proof.
  exact (run_round_trip plain_bulkhead initial_state hello_request no_acquire_options
           (slot 0) (Normal 7%nat)
           (constant_estimator_non_negative 200 50 50 false None stringify_messages
              ltac:(lia) ltac:(lia))
           ltac:(intros b [= <-]; vm_compute; discriminate)
           (reachable_by plain_bulkhead [] initial_state eq_refl)
           eq_refl eq_refl eq_refl).
Defined.

Lemma admission_within_budget_witness :
  cost exact_fit_bulkhead hello_request = 100 /\
  exists s1,
    step exact_fit_bulkhead (gate_settles 0%nat (granted (slot 0)))
      (acquire_waiting exact_fit_bulkhead) = Some s1 /\
    token_of s1 0%nat = Some {| base := slot 0; reserved := 100; released := false |} /\
    inFlightTokens s1 = 100 /\
    trace s1 = trace (acquire_waiting exact_fit_bulkhead) /\
    handed_out s1 0%nat = true.
Proof.
  split; [reflexivity|].
  exact (admission_within_budget exact_fit_bulkhead (acquire_waiting exact_fit_bulkhead)
           0%nat None hello_request
           {| budget := 100; budget_estimator := Some (constant_estimator 50 50);
              outputCap := None |}
           (slot 0) eq_refl eq_refl ltac:(vm_compute; discriminate)).
Defined.

Lemma gate_refusal_passed_on_witness :
  exists s1,
    step plain_bulkhead (gate_settles 0%nat (refused queue_limit))
      (run_waiting plain_bulkhead) = Some s1 /\
    inFlightTokens s1 = 0 /\ trace s1 = trace (run_waiting plain_bulkhead) /\
    exists ls s2,
      exec plain_bulkhead (resume_run 0%nat :: ls) s1 = Some s2 /\
      promise_state s2 (Returned 0%nat)
        = Some (Rejected (LLMBulkheadRejectedError queue_limit)).
Proof.
  destruct (gate_refusal_passed_on plain_bulkhead (run_waiting plain_bulkhead)
              0%nat (Some 0%nat) hello_request queue_limit
              (reachable_by plain_bulkhead [call_run hello_request no_acquire_options]
                 (run_waiting plain_bulkhead) eq_refl)
              eq_refl)
    as (s1 & Hstep & _ & Hift & Htr & Hrun).
  injection Hstep as <-.
  eexists. split; [reflexivity|]. split; [exact Hift|]. split; [exact Htr|].
  destruct (Hrun 0%nat _ eq_refl eq_refl) as (ls & s2 & Hexec & Hres & _).
  exists ls, s2. split; [exact Hexec|exact Hres].
Defined.
